(** * Observables of the shell model: Stokes parameters, Faraday depth,
      polarization angles

    A shallow embedding of [shell/observable.py], the properties its
    specification states about it, and further properties of the code:
    of the two angle kernels, of [compute_Psi] and [compute_RM], and of
    the maps of [compute_fd] and [compute_stokes_parameters].

    Modelling conventions.
    - Numbers.  The angle kernels [adjust_angles] and [_adjust_diff] are
      scalar [float64 -> float64] loops; the specification states their
      contracts for real angles.  They are modelled over [R], with exact
      arithmetic and [PI] for [np.pi], and over binary64 floats
      ([adjust_angles_float64], [_adjust_diff_float64]), with the
      arithmetic of the machine.  The exact reading differs from the
      machine's by rounding only as long as a shift is not absorbed, that
      is up to a magnitude of 2^53 ([moderate]); the float64 kernels show
      what happens beyond, and the rounded kernels
      ([adjust_angles_rounded], [_adjust_diff_rounded]) what rounding
      changes below.
      Array elements are modelled by [xreal]: the reals extended with the
      IEEE special values the source explicitly reasons about (infinities
      and NaN), exact on finite values.  Rounding, overflow and the sign
      of zero are not modelled.
    - Loops.  A Python [while] is run with a fuel bound; termination is
      proved separately for every claim that says a value is returned.
    - Arrays.  A 3-D numpy array is a list (axis 0) of lists (axis 1) of
      columns (axis 2, the depth axis); a map is a list of lists.
    - Quantities.  The inputs are taken in the units of the calibration
      constant (microgauss for the field, cm^-3 for the densities, pc for
      the depth axis, m for the wavelength) and are represented by their
      magnitudes, so that every [to_value] of the source is the identity.
      Output quantities carry their unit as a symbolic tag.
    - The depth axis is the 1-D array of the data model; numpy's
      broadcasting of arrays of different shapes is not modelled: an
      element-wise operation on two shapes raises [ValueError].  The
      floating-point [RuntimeWarning]s of numpy are not recorded. *)

From Stdlib Require Import PrimFloat.
From Stdlib Require Import Reals Lra Lia String List ZArith Bool.
Import ListNotations.

Open Scope R_scope.

(** ** Comparisons of reals as booleans *)

Definition Rltb (a b : R) : bool := if Rlt_dec a b then true else false.
Definition Rleb (a b : R) : bool := if Rle_dec a b then true else false.
Definition Reqb (a b : R) : bool := if Req_dec_T a b then true else false.

(** ** Python [while] loops *)

Fixpoint while_loop {St : Type} (cond : St -> bool) (body : St -> St)
         (fuel : nat) (s : St) : option St :=
  match fuel with
  | O => None
  | S fuel' =>
      if cond s then while_loop cond body fuel' (body s) else Some s
  end.

(** A fuelled computation returns [r]: it does with enough fuel. *)
Definition returns {A : Type} (run : nat -> option A) (r : A) : Prop :=
  exists fuel, forall fuel', (fuel <= fuel')%nat -> run fuel' = Some r.

(** ** The angle kernels *)

(** [adjust_angles]: restricts angles to [-pi < psi <= pi].  The loops in
    exact arithmetic.
<<
    while (psi > pi):   psi -= 2*pi
    while (psi <= -pi): psi += 2*pi
    return psi
>> *)
Definition adjust_angles (fuel : nat) (psi : R) : option R :=
  match while_loop (fun psi => Rltb PI psi) (fun psi => psi - 2 * PI) fuel psi with
  | Some psi => while_loop (fun psi => Rleb psi (- PI)) (fun psi => psi + 2 * PI) fuel psi
  | None => None
  end.

(** [_adjust_diff]: the smallest angle difference up to the n-pi ambiguity.
    The loops in exact arithmetic.
<<
    while (abs(diff-pi) < abs(diff)): diff -= pi
    while (abs(diff+pi) < abs(diff)): diff += pi
    return diff
>> *)
Definition _adjust_diff (fuel : nat) (diff : R) : option R :=
  match while_loop (fun diff => Rltb (Rabs (diff - PI)) (Rabs diff))
                   (fun diff => diff - PI) fuel diff with
  | Some diff => while_loop (fun diff => Rltb (Rabs (diff + PI)) (Rabs diff))
                            (fun diff => diff + PI) fuel diff
  | None => None
  end.

(** ** The angle kernels on float64 *)

(** The two kernels are compiled for [float64]; the definitions above read
    their loops in exact arithmetic.  The two readings part on large
    angles: from about 1e17 the spacing of float64 exceeds the shift, so
    that [psi - 2*pi == psi] and [diff - pi == diff].  The kernels are
    therefore given a second time, on binary64 floats, with the IEEE
    arithmetic and comparisons of the machine. *)

(** [np.pi], the float64 nearest to pi: 0x1.921fb54442d18p+1. *)
Definition np_pi : float := 0x1.921fb54442d18p+1%float.

Definition adjust_angles_float64 (fuel : nat) (psi : float) : option float :=
  match while_loop (fun psi => PrimFloat.ltb np_pi psi)
                   (fun psi => PrimFloat.sub psi (PrimFloat.mul 2 np_pi)) fuel psi with
  | Some psi => while_loop (fun psi => PrimFloat.leb psi (PrimFloat.opp np_pi))
                           (fun psi => PrimFloat.add psi (PrimFloat.mul 2 np_pi)) fuel psi
  | None => None
  end.

Definition _adjust_diff_float64 (fuel : nat) (diff : float) : option float :=
  match while_loop (fun diff => PrimFloat.ltb (PrimFloat.abs (PrimFloat.sub diff np_pi))
                                              (PrimFloat.abs diff))
                   (fun diff => PrimFloat.sub diff np_pi) fuel diff with
  | Some diff => while_loop (fun diff => PrimFloat.ltb (PrimFloat.abs (PrimFloat.add diff np_pi))
                                                      (PrimFloat.abs diff))
                            (fun diff => PrimFloat.add diff np_pi) fuel diff
  | None => None
  end.

(** 2^53: up to this magnitude the spacing of float64 is at most 1, and a
    shift by pi or by 2 pi is never absorbed. *)
Definition max_angle : R := 9007199254740992.

(** An angle on which the exact reading of the kernels is used. *)
Definition moderate (x : R) : Prop := - max_angle <= x <= max_angle.

(** A number of shifts within which the loops end on such an angle. *)
Definition max_shifts : nat := Z.to_nat 9007199254740992.

(** ** The angle kernels under rounding *)

(** Between the exact reading and the machine: the loops on the reals, with
    every subtraction and addition followed by a rounding [rnd] (for
    float64: to the nearest float, ties to even) and [npi] for the float
    [np.pi]; comparisons and absolute values of floats are exact.
<<
    while (psi > pi):   psi -= 2*pi
    while (psi <= -pi): psi += 2*pi
>> *)
Definition adjust_angles_rounded (rnd : R -> R) (npi : R) (fuel : nat) (psi : R) : option R :=
  match while_loop (fun psi => Rltb npi psi) (fun psi => rnd (psi - rnd (2 * npi))) fuel psi with
  | Some psi => while_loop (fun psi => Rleb psi (- npi))
                           (fun psi => rnd (psi + rnd (2 * npi))) fuel psi
  | None => None
  end.

(** [_adjust_diff] in the same way.
<<
    while (abs(diff-pi) < abs(diff)): diff -= pi
    while (abs(diff+pi) < abs(diff)): diff += pi
>> *)
Definition _adjust_diff_rounded (rnd : R -> R) (npi : R) (fuel : nat) (diff : R) : option R :=
  match while_loop (fun diff => Rltb (Rabs (rnd (diff - npi))) (Rabs diff))
                   (fun diff => rnd (diff - npi)) fuel diff with
  | Some diff => while_loop (fun diff => Rltb (Rabs (rnd (diff + npi))) (Rabs diff))
                            (fun diff => rnd (diff + npi)) fuel diff
  | None => None
  end.

(** The rounding error of float64 on a number of magnitude at most [B]:
    at most [B / 2^53], half the spacing of the floats below [B]. *)
Definition half_ulp (B : R) : R := B / 9007199254740992.

(** ** Array elements: reals with the IEEE special values *)

Inductive xreal : Type :=
| Fin (r : R)      (* a finite value *)
| PInf             (* +inf *)
| NInf             (* -inf *)
| NaN.

(** The infinity with the sign of [r]; NaN when [r] is zero
    (inf * 0 and 0 / 0). *)
Definition xinf_of_sign (r : R) : xreal :=
  if Rlt_dec 0 r then PInf else if Rlt_dec r 0 then NInf else NaN.

Definition xopp (x : xreal) : xreal :=
  match x with
  | Fin a => Fin (- a)
  | PInf => NInf
  | NInf => PInf
  | NaN => NaN
  end.

Definition xadd (x y : xreal) : xreal :=
  match x, y with
  | NaN, _ | _, NaN => NaN
  | Fin a, Fin b => Fin (a + b)
  | PInf, NInf | NInf, PInf => NaN
  | PInf, _ | _, PInf => PInf
  | NInf, _ | _, NInf => NInf
  end.

Definition xsub (x y : xreal) : xreal := xadd x (xopp y).

Definition xmul (x y : xreal) : xreal :=
  match x, y with
  | NaN, _ | _, NaN => NaN
  | Fin a, Fin b => Fin (a * b)
  | Fin a, PInf | PInf, Fin a => xinf_of_sign a
  | Fin a, NInf | NInf, Fin a => xinf_of_sign (- a)
  | PInf, PInf | NInf, NInf => PInf
  | PInf, NInf | NInf, PInf => NInf
  end.

(** Division; a finite value divided by zero is the infinity of its sign
    (0/0 is NaN) instead of an exception, as numpy does. *)
Definition xdiv (x y : xreal) : xreal :=
  match x, y with
  | NaN, _ | _, NaN => NaN
  | Fin a, Fin b => if Req_dec_T b 0 then xinf_of_sign a else Fin (a / b)
  | Fin _, PInf | Fin _, NInf => Fin 0
  | PInf, Fin b => if Rlt_dec b 0 then NInf else PInf
  | NInf, Fin b => if Rlt_dec b 0 then PInf else NInf
  | PInf, PInf | PInf, NInf | NInf, PInf | NInf, NInf => NaN
  end.

(** Is the real [y] an integer, and is it an odd one. *)
Definition is_integer (y : R) : bool := Reqb y (IZR (Int_part y)).
Definition is_odd_integer (y : R) : bool := is_integer y && Z.odd (Int_part y).

(** [x ** y] for a finite exponent [y], after C's [pow]. *)
Definition xpow (x : xreal) (y : R) : xreal :=
  if Req_dec_T y 0 then Fin 1
  else
    match x with
    | NaN => NaN
    | Fin a =>
        if Rlt_dec 0 a then Fin (Rpower a y)
        else if Req_dec_T a 0 then (if Rlt_dec 0 y then Fin 0 else PInf)
        else if is_integer y then Fin (powerRZ a (Int_part y))
        else NaN
    | PInf => if Rlt_dec 0 y then PInf else Fin 0
    | NInf =>
        if Rlt_dec 0 y then (if is_odd_integer y then NInf else PInf)
        else Fin 0
    end.

Definition xatan (x : xreal) : xreal :=
  match x with
  | Fin a => Fin (atan a)
  | PInf => Fin (PI / 2)
  | NInf => Fin (- (PI / 2))
  | NaN => NaN
  end.

Definition xsin (x : xreal) : xreal :=
  match x with Fin a => Fin (sin a) | _ => NaN end.

Definition xcos (x : xreal) : xreal :=
  match x with Fin a => Fin (cos a) | _ => NaN end.

(** Comparisons; every comparison with NaN is false. *)
Definition xeqb (x y : xreal) : bool :=
  match x, y with
  | Fin a, Fin b => Reqb a b
  | PInf, PInf | NInf, NInf => true
  | _, _ => false
  end.

Definition xltb (x y : xreal) : bool :=
  match x, y with
  | Fin a, Fin b => Rltb a b
  | NInf, Fin _ | NInf, PInf | Fin _, PInf => true
  | _, _ => false
  end.

Definition xgtb (x y : xreal) : bool := xltb y x.

(** ** Exceptions and warnings *)

Inductive exn : Type :=
| ValueError            (* numpy: operands could not be broadcast together *)
| ZeroDivisionError.    (* Python float division by zero *)

Inductive result (A : Type) : Type :=
| Ok (a : A)
| Raise (e : exn).
Arguments Ok {A} a.
Arguments Raise {A} e.

Inductive warning : Type :=
| DeprecationWarning (message : string).

(** A computation returns the warnings it issued and its outcome. *)
Definition py (A : Type) : Type := (list warning * result A)%type.

Definition ret {A} (a : A) : py A := ([], Ok a).
Definition lift {A} (r : result A) : py A := ([], r).
Definition warn (w : warning) : py unit := ([w], Ok tt).
Definition bind {A B} (c : py A) (k : A -> py B) : py B :=
  match c with
  | (w, Ok a) => let (w', r) := k a in (w ++ w', r)
  | (w, Raise e) => (w, Raise e)
  end.

Declare Scope py_scope.
Delimit Scope py_scope with py.
Notation "x <- c ;; k" := (bind c (fun x => k))
  (at level 61, c at next level, right associativity) : py_scope.

Definition rbind {A B} (c : result A) (k : A -> result B) : result B :=
  match c with
  | Ok a => k a
  | Raise e => Raise e
  end.

(** ** numpy arrays *)

Abbreviation array1 A := (list A) (only parsing).
Abbreviation array2 A := (list (list A)) (only parsing).
Abbreviation array3 A := (list (list (list A))) (only parsing).

(** An element-wise binary operation on two lists of the same length;
    lists of different lengths do not broadcast. *)
Fixpoint map2M {A B C : Type} (f : A -> B -> result C)
         (l1 : list A) (l2 : list B) : result (list C) :=
  match l1, l2 with
  | [], [] => Ok []
  | a :: l1', b :: l2' =>
      rbind (f a b) (fun c =>
      rbind (map2M f l1' l2') (fun l => Ok (c :: l)))
  | _, _ => Raise ValueError
  end.

Definition elementwise {A B C : Type} (f : A -> B -> C) (a : A) (b : B) : result C :=
  Ok (f a b).

Definition arr1_map2 {A B C} (f : A -> B -> C) : array1 A -> array1 B -> result (array1 C) :=
  map2M (elementwise f).
Definition arr2_map2 {A B C} (f : A -> B -> C) : array2 A -> array2 B -> result (array2 C) :=
  map2M (arr1_map2 f).
Definition arr3_map2 {A B C} (f : A -> B -> C) : array3 A -> array3 B -> result (array3 C) :=
  map2M (arr2_map2 f).

Definition arr2_map {A B} (f : A -> B) : array2 A -> array2 B := map (map f).
Definition arr3_map {A B} (f : A -> B) : array3 A -> array3 B := map (map (map f)).

Fixpoint mapM {A B : Type} (f : A -> result B) (l : list A) : result (list B) :=
  match l with
  | [] => Ok []
  | a :: l' => rbind (f a) (fun b => rbind (mapM f l') (fun bs => Ok (b :: bs)))
  end.

(** Pairs two slices of one array, which always have the same length. *)
Definition zip_with {A B C : Type} (f : A -> B -> C) (l1 : list A) (l2 : list B) : list C :=
  map (fun p => f (fst p) (snd p)) (combine l1 l2).

(** [np.sum] of a 1-D array, and [np.cumsum]. *)
Definition xsum (l : array1 xreal) : xreal := fold_left xadd l (Fin 0).

Fixpoint cumsum_from (acc : xreal) (l : array1 xreal) : array1 xreal :=
  match l with
  | [] => []
  | a :: l' => xadd acc a :: cumsum_from (xadd acc a) l'
  end.

Definition cumsum (l : array1 xreal) : array1 xreal :=
  match l with
  | [] => []
  | a :: l' => a :: cumsum_from a l'
  end.

(** [np.diff(x)] is [x[1:] - x[:-1]]. *)
Definition diff (x : array1 xreal) : array1 xreal :=
  zip_with xsub (tl x) (removelast x).

(** The trapezoid terms [d * (y[1:] + y[:-1]) / 2.0] of one column. *)
Definition trapezoids (d y : array1 xreal) : result (array1 xreal) :=
  rbind (arr1_map2 xmul d (zip_with xadd (tl y) (removelast y))) (fun t =>
  Ok (map (fun a => xdiv a (Fin 2)) t)).

(** [trapz(y, x, axis=2)] for a 1-D [x]: along the depth axis of every
    column,
<<
    d = diff(x)
    ret = (d * (y[..., 1:] + y[..., :-1]) / 2.0).sum(axis)
>> *)
Definition trapz_column (y x : array1 xreal) : result xreal :=
  rbind (trapezoids (diff x) y) (fun t => Ok (xsum t)).

Definition trapz (y : array3 xreal) (x : array1 xreal) : result (array2 xreal) :=
  mapM (mapM (fun column => trapz_column column x)) y.

(** [cumtrapz(y, x, axis=2, initial=initial)] for a 1-D [x]:
<<
    d = np.diff(x)
    if d.shape[axis] != y.shape[axis] - 1: raise ValueError(...)
    res = np.cumsum(d * (y[slice1] + y[slice2]) / 2.0, axis=axis)
    if initial is not None:
        res = np.concatenate([np.full(shape, initial), res], axis=axis)
>> *)
Definition cumtrapz_column (y x : array1 xreal) (initial : option xreal)
  : result (array1 xreal) :=
  let d := diff x in
  if (Z.of_nat (length d) =? Z.of_nat (length y) - 1)%Z then
    rbind (trapezoids d y) (fun t =>
    let res := cumsum t in
    match initial with
    | Some i => Ok (i :: res)
    | None => Ok res
    end)
  else Raise ValueError.

Definition cumtrapz (y : array3 xreal) (x : array1 xreal) (initial : option xreal)
  : result (array3 xreal) :=
  mapM (mapM (fun column => cumtrapz_column column x initial)) y.

(** ** Units and quantities *)

Inductive Unit : Type :=
| u_dimensionless
| u_rad
| u_m
| u_pc
| u_cm
| u_microgauss
| u_mul (a b : Unit)
| u_div (a b : Unit)
| u_pow (a : Unit) (p : R).

Record Quantity (A : Type) : Type := mkQuantity { value : A; unit : Unit }.
Arguments mkQuantity {A} value unit.
Arguments value {A} q.
Arguments unit {A} q.

(** rad m^-2, the unit of the calibration constant [0.812*u.rad/u.m**2]. *)
Definition rad_per_m2 : Unit := u_div u_rad (u_pow u_m 2).

(** The unit astropy derives for
    [ncr * Bperp2**((gamma+1)/4) * wavelength**((gamma-1)/2)] integrated
    over the depth axis (the "arbitrary units" of the Stokes maps). *)
Definition emissivity_unit (gamma : R) : Unit :=
  u_mul (u_mul (u_pow u_cm (-3)) (u_pow (u_pow u_microgauss 2) ((gamma + 1) / 4)))
        (u_pow u_m ((gamma - 1) / 2)).

Definition stokes_unit (gamma : R) : Unit := u_mul (emissivity_unit gamma) u_pc.

(** ** The depth argument and its legacy form *)

(** An IMAGINE grid object: it has the depth axis as attribute [z]. *)
Record Grid : Type := mkGrid { z : array1 R }.

(** What callers pass as [depth_grid]: the depth array, or (legacy) a full
    grid.  [hasattr(depth_grid, 'z')] holds of the second only. *)
Inductive depth_arg : Type :=
| DepthArray (a : array1 R)
| FullGrid (g : Grid).

Definition hasattr_z (depth_grid : depth_arg) : bool :=
  match depth_grid with
  | FullGrid _ => true
  | DepthArray _ => false
  end.

Definition syntax_changed : string :=
  "The synthax of this function has changed: one should provide a depth grid (array) instead of a full IMAGINE grid".

(** The depth array an argument stands for: itself, or its attribute
    [z]. *)
Definition depth_array (depth_grid : depth_arg) : array1 R :=
  match depth_grid with
  | DepthArray a => a
  | FullGrid g => z g
  end.

(**
<<
    if hasattr(depth_grid,'z'):
        warnings.warn("...", DeprecationWarning)
        depth_grid = depth_grid.z
>> *)
Definition legacy_depth_grid (depth_grid : depth_arg) : py (array1 R) :=
  if hasattr_z depth_grid then
    (_ <- warn (DeprecationWarning syntax_changed) ;;
     ret (depth_array depth_grid))%py
  else ret (depth_array depth_grid).

(** ** The blocks of [compute_stokes_parameters] *)

(** [Bperp2 = Bx**2+By**2] *)
Definition stokes_Bperp2 (Bx By : array3 xreal) : result (array3 xreal) :=
  arr3_map2 xadd (arr3_map (fun b => xpow b 2) Bx) (arr3_map (fun b => xpow b 2) By).

(** [emissivity = ncr * Bperp2**((gamma+1)/4) * wavelength**((gamma-1)/2)] *)
Definition stokes_emissivity (wavelength : R) (Bx By ncr : array3 xreal) (gamma : R)
  : result (array3 xreal) :=
  rbind (stokes_Bperp2 Bx By) (fun Bperp2 =>
  rbind (arr3_map2 xmul ncr (arr3_map (fun b => xpow b ((gamma + 1) / 4)) Bperp2)) (fun e =>
  Ok (arr3_map (fun a => xmul a (xpow (Fin wavelength) ((gamma - 1) / 2))) e))).

(** The intrinsic polarization angles:
<<
    psi0 = np.arctan(By/Bx) + pi/2
    ok = (By == 0) * (Bx == 0)
    psi0[ok] = 0
    psi0[psi0>pi] = psi0[psi0>pi]-2*pi
    psi0[psi0<-pi] = psi0[psi0<-pi]+2*pi
>> *)
Definition stokes_psi0 (Bx By : array3 xreal) : result (array3 xreal) :=
  rbind (arr3_map2 xdiv By Bx) (fun ratio =>
  let psi0 := arr3_map (fun t => xadd (xatan t) (Fin (PI / 2))) ratio in
  rbind (arr3_map2 andb (arr3_map (fun b => xeqb b (Fin 0)) By)
                        (arr3_map (fun b => xeqb b (Fin 0)) Bx)) (fun ok =>
  rbind (arr3_map2 (fun p (m : bool) => if m then Fin 0 else p) psi0 ok) (fun psi0 =>
  let psi0 := arr3_map (fun p => if xgtb p (Fin PI) then xsub p (Fin (2 * PI)) else p) psi0 in
  let psi0 := arr3_map (fun p => if xltb p (Fin (- PI)) then xadd p (Fin (2 * PI)) else p) psi0 in
  Ok psi0))).

(** The value of [RM]: an array from [cumtrapz], or the scalar [0.0]. *)
Inductive rm_value : Type :=
| RM_array (a : array3 xreal)
| RM_scalar (s : xreal).

(** The cumulative Faraday rotation:
<<
    if wavelength != 0:
        integrand = Bz.to_value(u.microgauss)*ne.to_value(u.cm**-3)
        RM = (0.812*u.rad/u.m**2) * cumtrapz(integrand,
                                             depth_grid.to_value(u.pc),
                                             axis=2, initial=0)
    else:
        RM = 0.0 * u.rad/u.m**2
>> *)
Definition stokes_RM (depth_grid : array1 xreal) (wavelength : R) (Bz ne : array3 xreal)
  : result (Quantity rm_value) :=
  if negb (Reqb wavelength 0) then
    rbind (arr3_map2 xmul Bz ne) (fun integrand =>
    rbind (cumtrapz integrand depth_grid (Some (Fin 0))) (fun c =>
    Ok (mkQuantity (RM_array (arr3_map (xmul (Fin (812 / 1000))) c)) rad_per_m2)))
  else
    Ok (mkQuantity (RM_scalar (Fin 0)) rad_per_m2).

(** [psi = psi0 + wavelength**2*RM]; a scalar [RM] broadcasts. *)
Definition stokes_psi (psi0 : array3 xreal) (wavelength : R) (RM : Quantity rm_value)
  : result (array3 xreal) :=
  let w2 := xpow (Fin wavelength) 2 in
  match value RM with
  | RM_array a => arr3_map2 xadd psi0 (arr3_map (xmul w2) a)
  | RM_scalar s => Ok (arr3_map (fun p => xadd p (xmul w2 s)) psi0)
  end.

(** [p0 = (gamma+1)/(gamma+7/3)], a division of Python floats. *)
Definition stokes_p0 (gamma : R) : result R :=
  if Req_dec_T (gamma + 7 / 3) 0 then Raise ZeroDivisionError
  else Ok ((gamma + 1) / (gamma + 7 / 3)).

(** [p0*integrate(emissivity * f(2*psi), depth_grid, axis=2)], for [f] the
    sine (Stokes U) or the cosine (Stokes Q). *)
Definition stokes_polarized (f : xreal -> xreal) (depth_grid : array1 xreal)
           (p0 : R) (emissivity psi : array3 xreal) : result (array2 xreal) :=
  rbind (arr3_map2 xmul emissivity (arr3_map (fun p => f (xmul (Fin 2) p)) psi)) (fun y =>
  rbind (trapz y depth_grid) (fun t =>
  Ok (arr2_map (xmul (Fin p0)) t))).

(** ** The observables *)

Section Observable.

(** [scipy.ndimage.gaussian_filter(input, sigma)] on a 2-D array. *)
Variable gaussian_filter : array2 xreal -> R -> array2 xreal.

Definition map_quantity : Type := Quantity (array2 xreal).

(** [gaussian_filter(X.value, sigma=beam_kernel_sd)*X.unit] *)
Definition convolve (X : map_quantity) (beam_kernel_sd : R) : map_quantity :=
  mkQuantity (gaussian_filter (value X) beam_kernel_sd) (unit X).

(** The beam stage of the specification: a pass-through when the standard
    deviation is absent, the smoothing of the values otherwise. *)
Definition BeamConvolver (X : map_quantity) (beam_kernel_sd : option R) : map_quantity :=
  match beam_kernel_sd with
  | Some sd => convolve X sd
  | None => X
  end.

Local Open Scope py_scope.

(** Computes Stokes I, Q, U integrated along the z axis. *)
Definition compute_stokes_parameters
           (depth_grid : depth_arg) (wavelength : R)
           (Bx By Bz ne ncr : array3 R) (gamma : R)
           (beam_kernel_sd : option R)
  : py (map_quantity * map_quantity * map_quantity) :=
  let Bx := arr3_map Fin Bx in
  let By := arr3_map Fin By in
  let Bz := arr3_map Fin Bz in
  let ne := arr3_map Fin ne in
  let ncr := arr3_map Fin ncr in
  depth_grid <- legacy_depth_grid depth_grid ;;
  let depth_grid := map Fin depth_grid in
  emissivity <- lift (stokes_emissivity wavelength Bx By ncr gamma) ;;
  I <- lift (trapz emissivity depth_grid) ;;
  psi0 <- lift (stokes_psi0 Bx By) ;;
  RM <- lift (stokes_RM depth_grid wavelength Bz ne) ;;
  psi <- lift (stokes_psi psi0 wavelength RM) ;;
  p0 <- lift (stokes_p0 gamma) ;;
  U <- lift (stokes_polarized xsin depth_grid p0 emissivity psi) ;;
  Q <- lift (stokes_polarized xcos depth_grid p0 emissivity psi) ;;
  let I := mkQuantity I (stokes_unit gamma) in
  let U := mkQuantity U (stokes_unit gamma) in
  let Q := mkQuantity Q (stokes_unit gamma) in
  match beam_kernel_sd with
  | Some sd => ret (convolve I sd, convolve U sd, convolve Q sd)
  | None => ret (I, U, Q)
  end.

(** Computes RM / Faraday depth. *)
Definition compute_fd (depth_grid : depth_arg) (Bz ne : array3 R)
           (beam_kernel_sd : option R) : py map_quantity :=
  let Bz := arr3_map Fin Bz in
  let ne := arr3_map Fin ne in
  depth_grid <- legacy_depth_grid depth_grid ;;
  let depth_grid := map Fin depth_grid in
  integrand <- lift (arr3_map2 xmul Bz ne) ;;
  t <- lift (trapz integrand depth_grid) ;;
  let RM := mkQuantity (arr2_map (xmul (Fin (812 / 1000))) t) rad_per_m2 in
  match beam_kernel_sd with
  | Some sd => ret (convolve RM sd)
  | None => ret RM
  end.

End Observable.

(** ** The polarization angle and the rotation measure *)

Definition xleb (x y : xreal) : bool :=
  match x, y with
  | Fin a, Fin b => Rleb a b
  | NInf, Fin _ | NInf, PInf | NInf, NInf | Fin _, PInf | PInf, PInf => true
  | _, _ => false
  end.

Definition xabs (x : xreal) : xreal :=
  match x with
  | Fin a => Fin (Rabs a)
  | PInf | NInf => PInf
  | NaN => NaN
  end.

(** [np.arctan2(y, x)] of two reals: the angle of the point (x, y), in
    (-pi, pi]. *)
Definition atan2 (y x : R) : R :=
  if Rlt_dec 0 x then atan (y / x)
  else if Rlt_dec x 0 then
         (if Rle_dec 0 y then atan (y / x) + PI else atan (y / x) - PI)
  else if Rlt_dec 0 y then PI / 2
  else if Rlt_dec y 0 then - (PI / 2)
  else 0.

(** [np.arctan2] on array elements, after C's [atan2] at the infinities. *)
Definition xatan2 (y x : xreal) : xreal :=
  match y, x with
  | NaN, _ | _, NaN => NaN
  | Fin b, Fin a => Fin (atan2 b a)
  | Fin _, PInf => Fin 0
  | Fin b, NInf => if Rlt_dec b 0 then Fin (- PI) else Fin PI
  | PInf, Fin _ => Fin (PI / 2)
  | NInf, Fin _ => Fin (- (PI / 2))
  | PInf, PInf => Fin (PI / 4)
  | PInf, NInf => Fin (3 * PI / 4)
  | NInf, PInf => Fin (- (PI / 4))
  | NInf, NInf => Fin (- (3 * PI / 4))
  end.

(** The angle kernels as [vectorize] runs them, on one element of an
    array: the loops of [adjust_angles] and [_adjust_diff] with the
    comparisons and the arithmetic of the special values, exact on the
    finite elements (the exact reading, as above: for finite elements of
    magnitude at most [max_angle]). *)
Definition adjust_angles_elem (fuel : nat) (psi : xreal) : option xreal :=
  match while_loop (fun psi => xgtb psi (Fin PI))
                   (fun psi => xsub psi (Fin (2 * PI))) fuel psi with
  | Some psi => while_loop (fun psi => xleb psi (Fin (- PI)))
                           (fun psi => xadd psi (Fin (2 * PI))) fuel psi
  | None => None
  end.

Definition _adjust_diff_elem (fuel : nat) (diff : xreal) : option xreal :=
  match while_loop (fun diff => xltb (xabs (xsub diff (Fin PI))) (xabs diff))
                   (fun diff => xsub diff (Fin PI)) fuel diff with
  | Some diff => while_loop (fun diff => xltb (xabs (xadd diff (Fin PI))) (xabs diff))
                            (fun diff => xadd diff (Fin PI)) fuel diff
  | None => None
  end.

(** A kernel applied to every element of a map; it returns when the
    kernel does on every element. *)
Fixpoint mapO {A B : Type} (f : A -> option B) (l : list A) : option (list B) :=
  match l with
  | [] => Some []
  | a :: l' =>
      match f a, mapO f l' with
      | Some b, Some bs => Some (b :: bs)
      | _, _ => None
      end
  end.

Definition ufunc2 (kernel : xreal -> option xreal) (a : array2 xreal)
  : option (array2 xreal) :=
  mapO (mapO kernel) a.

(** Computes the observed polarization angle, from the magnitudes of
    Stokes U and Q in one unit:
<<
    psi = np.arctan2(U,Q) / 2.
    psi = adjust_angles(psi.to_value(u.rad))*u.rad
    return psi
>> *)
Definition compute_Psi (fuel : nat) (U Q : array2 xreal) : option (result map_quantity) :=
  match arr2_map2 xatan2 U Q with
  | Raise e => Some (Raise e)
  | Ok a =>
      let psi := arr2_map (fun t => xdiv t (Fin 2)) a in
      match ufunc2 (adjust_angles_elem fuel) psi with
      | Some psi => Some (Ok (mkQuantity psi u_rad))
      | None => None
      end
  end.

(** Computes the Faraday rotation measure from two angle maps (in rad) and
    the two wavelengths (in m):
<<
    diff = Psi2 - Psi1
    diff = _adjust_diff(diff.to_value(u.rad))*u.rad
    return  diff / (lambda2**2 - lambda1**2)
>> *)
Definition compute_RM (fuel : nat) (Psi1 Psi2 : array2 xreal) (lambda1 lambda2 : R)
  : option (result map_quantity) :=
  match arr2_map2 xsub Psi2 Psi1 with
  | Raise e => Some (Raise e)
  | Ok diff =>
      match ufunc2 (_adjust_diff_elem fuel) diff with
      | Some diff =>
          let dl2 := xsub (xpow (Fin lambda2) 2) (xpow (Fin lambda1) 2) in
          Some (Ok (mkQuantity (arr2_map (fun d => xdiv d dl2) diff) rad_per_m2))
      | None => None
      end
  end.

(** ** Indexing and shapes *)

Definition get2 {A : Type} (d : A) (a : array2 A) (i j : nat) : A :=
  nth j (nth i a []) d.

Definition get3 {A : Type} (d : A) (a : array3 A) (i j k : nat) : A :=
  nth k (nth j (nth i a []) []) d.

(** Elements of the arrays of this development, out of range: NaN. *)
Definition xget2 := @get2 xreal NaN.
Definition xget3 := @get3 xreal NaN.
Definition rget3 := @get3 R 0.

Definition rget2 := @get2 R 0.

(** [a.shape == (nx, ny)] and [a.shape == (nx, ny, nz)], as a test. *)
Definition has_shape2 {A : Type} (nx ny : nat) (a : array2 A) : bool :=
  (length a =? nx)%nat && forallb (fun row => (length row =? ny)%nat) a.

Definition has_shape3 {A : Type} (nx ny nz : nat) (a : array3 A) : bool :=
  (length a =? nx)%nat && forallb (has_shape2 ny nz) a.

(** The same, read through the indices. *)
Definition shape2 {A : Type} (nx ny : nat) (a : array2 A) : Prop :=
  length a = nx /\ forall i, (i < nx)%nat -> length (nth i a []) = ny.

Definition shape3 {A : Type} (nx ny nz : nat) (a : array3 A) : Prop :=
  length a = nx /\ forall i, (i < nx)%nat -> shape2 ny nz (nth i a []).

(** ** The quadrature of the specification *)

(** The sum of the terms [t 0], ..., [t (m - 1)]. *)
Fixpoint xsum_upto (t : nat -> xreal) (m : nat) : xreal :=
  match m with
  | O => Fin 0
  | S k => xadd (xsum_upto t k) (t k)
  end.

(** The trapezoidal rule on the first [m] intervals of the samples [zs],
    with the actual spacing of the samples: the sum over [k < m] of
    [(zs (k+1) - zs k) * (f (k+1) + f k) / 2]. *)
Definition trapezoid_term (zs f : nat -> xreal) (k : nat) : xreal :=
  xdiv (xmul (xsub (zs (S k)) (zs k)) (xadd (f (S k)) (f k))) (Fin 2).

Definition trapezoid_sum (zs f : nat -> xreal) (m : nat) : xreal :=
  xsum_upto (trapezoid_term zs f) m.

(** The depth samples as a function of the index. *)
Definition samples (depth : array1 R) (k : nat) : xreal := Fin (nth k depth 0).

(** The cumulative Faraday integral of the specification at depth index
    [k] of the column [(i, j)]:  k0 times the integral of [Bz * ne] from
    the first sample to sample [k]. *)
Definition faraday_prefix (depth : array1 R) (Bz ne : array3 R) (i j k : nat) : xreal :=
  xmul (Fin (812 / 1000))
       (trapezoid_sum (samples depth)
                      (fun m => xmul (Fin (rget3 Bz i j m)) (Fin (rget3 ne i j m))) k).

(** The emissivity and the intrinsic angle of one voxel. *)
Definition voxel_emissivity (wavelength gamma bx by' ncr : R) : xreal :=
  xmul (xmul (Fin ncr)
             (xpow (xadd (xpow (Fin bx) 2) (xpow (Fin by') 2)) ((gamma + 1) / 4)))
       (xpow (Fin wavelength) ((gamma - 1) / 2)).

Definition voxel_psi0 (bx by' : R) : xreal :=
  let p := xadd (xatan (xdiv (Fin by') (Fin bx))) (Fin (PI / 2)) in
  let p := if xeqb (Fin by') (Fin 0) && xeqb (Fin bx) (Fin 0) then Fin 0 else p in
  let p := if xgtb p (Fin PI) then xsub p (Fin (2 * PI)) else p in
  if xltb p (Fin (- PI)) then xadd p (Fin (2 * PI)) else p.

(** Membership of an array element in the interval (-pi, pi]. *)
Definition in_wrap_interval (x : xreal) : Prop :=
  exists r, x = Fin r /\ - PI < r <= PI.

(** ** Closed forms *)

(** The trapezoidal rule on reals: the sum over [k < m] of
    [(z (k+1) - z k) * (f (k+1) + f k) / 2]. *)
Fixpoint Rtrapezoid (z f : nat -> R) (m : nat) : R :=
  match m with
  | O => 0
  | S k => Rtrapezoid z f k + (z (S k) - z k) * (f (S k) + f k) / 2
  end.

(** The intrinsic polarization angle of a voxel in closed form: the
    direction of the field in the plane of the sky turned by a quarter
    turn, in [0, pi]. *)
Definition intrinsic_angle (bx by' : R) : R :=
  if Req_dec_T bx 0 then (if Rlt_dec 0 by' then PI else 0)
  else atan (by' / bx) + PI / 2.

(** The rotated angle of a voxel: finite, the intrinsic angle plus
    wavelength^2 times the cumulative Faraday integral. *)
Definition rotated_angle (depth : array1 R) (wavelength : R) (Bx By Bz ne : array3 R)
           (i j k : nat) : R :=
  intrinsic_angle (rget3 Bx i j k) (rget3 By i j k)
  + wavelength * wavelength *
    (812 / 1000 * Rtrapezoid (fun m => nth m depth 0)
                             (fun m => rget3 Bz i j m * rget3 ne i j m) k).

(** The emissivity of a voxel whose field in the plane of the sky is not
    zero, at a positive wavelength. *)
Definition emissivity_value (wavelength gamma bx by' n : R) : R :=
  n * Rpower (bx * bx + by' * by') ((gamma + 1) / 4) * Rpower wavelength ((gamma - 1) / 2).

(** The emissivity of a voxel for [gamma > -1] at a positive wavelength:
    zero where the field in the plane of the sky vanishes. *)
Definition emissivity_real (wavelength gamma bx by' n : R) : R :=
  n * (if Req_dec_T (bx * bx + by' * by') 0 then 0
       else Rpower (bx * bx + by' * by') ((gamma + 1) / 4))
    * Rpower wavelength ((gamma - 1) / 2).

(** * Properties *)

(** ** Booleans of real comparisons *)

Lemma Rltb_true (a b : R) : Rltb a b = true <-> a < b.
Proof. unfold Rltb; destruct (Rlt_dec a b); split; intros; try discriminate; tauto. Qed.

Lemma Rltb_false (a b : R) : Rltb a b = false <-> b <= a.
Proof.
  unfold Rltb; destruct (Rlt_dec a b); split; intros;
    try discriminate; try lra; try reflexivity.
Qed.

Lemma Rleb_true (a b : R) : Rleb a b = true <-> a <= b.
Proof. unfold Rleb; destruct (Rle_dec a b); split; intros; try discriminate; tauto. Qed.

Lemma Rleb_false (a b : R) : Rleb a b = false <-> b < a.
Proof.
  unfold Rleb; destruct (Rle_dec a b); split; intros;
    try discriminate; try lra; try reflexivity.
Qed.

Lemma Reqb_true (a b : R) : Reqb a b = true <-> a = b.
Proof. unfold Reqb; destruct (Req_dec_T a b); split; intros; try discriminate; tauto. Qed.

Lemma Reqb_refl (a : R) : Reqb a a = true.
Proof. apply Reqb_true; reflexivity. Qed.

(** ** Loops and fuel *)

Lemma while_loop_S {St : Type} (cond : St -> bool) (body : St -> St) (fuel : nat) (s : St) :
  while_loop cond body (S fuel) s
  = if cond s then while_loop cond body fuel (body s) else Some s.
Proof. reflexivity. Qed.

(** A loop whose body leaves the state as it is, under a test that holds,
    never ends. *)
Lemma while_loop_stuck {St : Type} (cond : St -> bool) (body : St -> St) (s : St) :
  cond s = true -> body s = s -> forall fuel, while_loop cond body fuel s = None.
Proof.
  intros Hc Hb. induction fuel as [|n IH]; simpl; [reflexivity|].
  rewrite Hc, Hb. exact IH.
Qed.

Lemma while_loop_mono {St : Type} (cond : St -> bool) (body : St -> St) :
  forall fuel fuel' s r,
    while_loop cond body fuel s = Some r -> (fuel <= fuel')%nat ->
    while_loop cond body fuel' s = Some r.
Proof.
  induction fuel as [|n IH]; intros fuel' s r H Hle; simpl in H; [discriminate|].
  destruct fuel' as [|m]; [lia|]. simpl.
  destruct (cond s); [apply IH; [exact H | lia] | exact H].
Qed.

Lemma while_loop_ext {St : Type} (cond cond' : St -> bool) (body : St -> St) :
  (forall s, cond s = cond' s) ->
  forall fuel s, while_loop cond body fuel s = while_loop cond' body fuel s.
Proof.
  intros E. induction fuel as [|n IH]; intros s; simpl; [reflexivity|].
  rewrite E, IH. reflexivity.
Qed.

Lemma while_loop_idle {St : Type} (cond : St -> bool) (body : St -> St) :
  forall fuel s r,
    cond s = false -> while_loop cond body fuel s = Some r -> r = s.
Proof.
  intros [|n] s r E H; simpl in H; [discriminate|].
  rewrite E in H. congruence.
Qed.

Lemma nat_above (x : R) : exists n : nat, x <= INR n.
Proof.
  destruct (archimed x) as [Hup _].
  exists (Z.to_nat (up x)).
  destruct (Z_lt_le_dec (up x) 0) as [Hneg|Hpos].
  - replace (Z.to_nat (up x)) with O by lia. simpl.
    apply IZR_lt in Hneg. lra.
  - rewrite INR_IZR_INZ, Z2Nat.id by exact Hpos. lra.
Qed.

(** The conditions of [_adjust_diff], without absolute values. *)
Lemma closer_below (d : R) : Rltb (Rabs (d - PI)) (Rabs d) = Rltb (PI / 2) d.
Proof.
  pose proof PI_RGT_0 as Hpi.
  destruct (Rlt_dec (PI / 2) d) as [H|H].
  - replace (Rltb (PI / 2) d) with true by (symmetry; apply Rltb_true; exact H).
    apply Rltb_true. unfold Rabs.
    destruct (Rcase_abs (d - PI)), (Rcase_abs d); lra.
  - replace (Rltb (PI / 2) d) with false by (symmetry; apply Rltb_false; lra).
    apply Rltb_false. unfold Rabs.
    destruct (Rcase_abs (d - PI)), (Rcase_abs d); lra.
Qed.

Lemma closer_above (d : R) : Rltb (Rabs (d + PI)) (Rabs d) = Rltb d (- (PI / 2)).
Proof.
  pose proof PI_RGT_0 as Hpi.
  destruct (Rlt_dec d (- (PI / 2))) as [H|H].
  - replace (Rltb d (- (PI / 2))) with true by (symmetry; apply Rltb_true; exact H).
    apply Rltb_true. unfold Rabs.
    destruct (Rcase_abs (d + PI)), (Rcase_abs d); lra.
  - replace (Rltb d (- (PI / 2))) with false by (symmetry; apply Rltb_false; lra).
    apply Rltb_false. unfold Rabs.
    destruct (Rcase_abs (d + PI)), (Rcase_abs d); lra.
Qed.

(** A loop that subtracts the period [p] while the value is above [hi]
    (strictly, or not): what it returns, and that it returns. *)
Section ShiftLoops.

Variable p : R.

Lemma shift_down_sound (hi : R) :
  forall fuel x r,
    while_loop (fun x => Rltb hi x) (fun x => x - p) fuel x = Some r ->
    r <= hi /\ (exists k : nat, r = x - p * INR k) /\ (r = x \/ hi - p < r).
Proof.
  induction fuel as [|n IH]; intros x r H; simpl in H; [discriminate|].
  destruct (Rltb hi x) eqn:E.
  - apply Rltb_true in E.
    destruct (IH _ _ H) as (Hle & (k & Hk) & Hor).
    split; [exact Hle|]. split.
    + exists (S k). rewrite S_INR. lra.
    + right. destruct Hor; lra.
  - apply Rltb_false in E. injection H as <-.
    split; [exact E|]. split; [exists O; simpl; lra | left; reflexivity].
Qed.

Lemma shift_down_returns (hi : R) :
  forall n x, x <= hi + p * INR n ->
    exists r, while_loop (fun x => Rltb hi x) (fun x => x - p) (S n) x = Some r.
Proof.
  induction n as [|n IH]; intros x Hx.
  - simpl in *. replace (Rltb hi x) with false by (symmetry; apply Rltb_false; lra).
    eauto.
  - cbn [while_loop]. destruct (Rltb hi x) eqn:E; [|eauto].
    apply IH. rewrite S_INR in Hx. lra.
Qed.

Lemma shift_up_strict_sound (lo : R) :
  forall fuel x r,
    while_loop (fun x => Rltb x lo) (fun x => x + p) fuel x = Some r ->
    lo <= r /\ (exists k : nat, r = x + p * INR k) /\ (r = x \/ r < lo + p).
Proof.
  induction fuel as [|n IH]; intros x r H; simpl in H; [discriminate|].
  destruct (Rltb x lo) eqn:E.
  - apply Rltb_true in E.
    destruct (IH _ _ H) as (Hle & (k & Hk) & Hor).
    split; [exact Hle|]. split.
    + exists (S k). rewrite S_INR. lra.
    + right. destruct Hor; lra.
  - apply Rltb_false in E. injection H as <-.
    split; [exact E|]. split; [exists O; simpl; lra | left; reflexivity].
Qed.

Lemma shift_up_strict_returns (lo : R) :
  forall n x, lo - p * INR n <= x ->
    exists r, while_loop (fun x => Rltb x lo) (fun x => x + p) (S n) x = Some r.
Proof.
  induction n as [|n IH]; intros x Hx.
  - simpl in *. replace (Rltb x lo) with false by (symmetry; apply Rltb_false; lra).
    eauto.
  - cbn [while_loop]. destruct (Rltb x lo) eqn:E; [|eauto].
    apply IH. rewrite S_INR in Hx. lra.
Qed.

Lemma shift_up_sound (lo : R) :
  forall fuel x r,
    while_loop (fun x => Rleb x lo) (fun x => x + p) fuel x = Some r ->
    lo < r /\ (exists k : nat, r = x + p * INR k) /\ (r = x \/ r <= lo + p).
Proof.
  induction fuel as [|n IH]; intros x r H; simpl in H; [discriminate|].
  destruct (Rleb x lo) eqn:E.
  - apply Rleb_true in E.
    destruct (IH _ _ H) as (Hle & (k & Hk) & Hor).
    split; [exact Hle|]. split.
    + exists (S k). rewrite S_INR. lra.
    + right. destruct Hor; lra.
  - apply Rleb_false in E. injection H as <-.
    split; [exact E|]. split; [exists O; simpl; lra | left; reflexivity].
Qed.

Lemma shift_up_returns (lo : R) :
  forall n x, lo - p * INR n < x ->
    exists r, while_loop (fun x => Rleb x lo) (fun x => x + p) (S n) x = Some r.
Proof.
  induction n as [|n IH]; intros x Hx.
  - simpl in *. replace (Rleb x lo) with false by (symmetry; apply Rleb_false; lra).
    eauto.
  - cbn [while_loop]. destruct (Rleb x lo) eqn:E; [|eauto].
    apply IH. rewrite S_INR in Hx. lra.
Qed.

End ShiftLoops.

Lemma nat_above_scaled (x c : R) : 0 < c -> exists n : nat, x <= c * INR n.
Proof.
  intros Hc. destruct (nat_above (x / c)) as [n Hn]. exists n.
  replace x with (c * (x / c)) by (field; lra).
  apply Rmult_le_compat_l; lra.
Qed.

Lemma returns_unique {A : Type} (run : nat -> option A) (r r' : A) :
  returns run r -> returns run r' -> r = r'.
Proof.
  intros [n Hn] [m Hm].
  specialize (Hn (Nat.max n m) (Nat.le_max_l _ _)).
  specialize (Hm (Nat.max n m) (Nat.le_max_r _ _)).
  congruence.
Qed.

(** ** [adjust_angles] *)

Lemma adjust_angles_mono (fuel fuel' : nat) (psi r : R) :
  adjust_angles fuel psi = Some r -> (fuel <= fuel')%nat ->
  adjust_angles fuel' psi = Some r.
Proof.
  unfold adjust_angles. intros H Hle.
  destruct (while_loop _ _ fuel psi) as [r1|] eqn:E1; [|discriminate].
  rewrite (while_loop_mono _ _ _ _ _ _ E1 Hle).
  exact (while_loop_mono _ _ _ _ _ _ H Hle).
Qed.

Lemma adjust_angles_sound (fuel : nat) (psi r : R) :
  adjust_angles fuel psi = Some r ->
  - PI < r <= PI /\ exists k : Z, r = psi + 2 * PI * IZR k.
Proof.
  pose proof PI_RGT_0 as Hpi.
  assert (Hp : 0 < 2 * PI) by lra.
  unfold adjust_angles. intros H.
  destruct (while_loop _ _ fuel psi) as [r1|] eqn:E1; [|discriminate].
  destruct (shift_down_sound (2 * PI) PI _ _ _ E1) as (H1 & (k1 & Hk1) & H1').
  destruct (shift_up_sound (2 * PI) (- PI) _ _ _ H) as (H2 & (k2 & Hk2) & H2').
  split.
  - split; [exact H2|]. destruct H2'; lra.
  - exists (Z.of_nat k2 - Z.of_nat k1)%Z.
    rewrite minus_IZR, <- !INR_IZR_INZ. lra.
Qed.

Lemma adjust_angles_returns (psi : R) : exists r, returns (fun fuel => adjust_angles fuel psi) r.
Proof.
  pose proof PI_RGT_0 as Hpi.
  assert (Hp : 0 < 2 * PI) by lra.
  destruct (nat_above_scaled (psi - PI) (2 * PI) Hp) as [n1 Hn1].
  destruct (shift_down_returns (2 * PI) PI n1 psi) as [r1 Hr1]; [lra|].
  destruct (nat_above_scaled (- PI - r1 + 2 * PI) (2 * PI) Hp) as [n2 Hn2].
  destruct (shift_up_returns (2 * PI) (- PI) n2 r1) as [r Hr]; [lra|].
  exists r, (Nat.max (S n1) (S n2)). intros fuel' Hle.
  unfold adjust_angles.
  rewrite (while_loop_mono _ _ _ fuel' _ _ Hr1) by lia.
  apply (while_loop_mono _ _ _ fuel' _ _ Hr). lia.
Qed.

(** Two angles of (-pi, pi] that differ by a multiple of 2 pi are equal. *)
Lemma wrap_interval_unique (r r' : R) (k : Z) :
  - PI < r <= PI -> - PI < r' <= PI -> r = r' + 2 * PI * IZR k -> r = r'.
Proof.
  pose proof PI_RGT_0 as Hpi. intros Hr Hr' E.
  assert (Hk : k = 0%Z).
  { apply one_IZR_lt1. split.
    - apply Rmult_lt_reg_l with (2 * PI); [lra|]. lra.
    - apply Rmult_lt_reg_l with (2 * PI); [lra|]. lra. }
  subst k. lra.
Qed.

(** The kernels on a few angles. *)
Ltac decide_comparisons :=
  repeat match goal with
         | |- context [Rltb ?a ?b] =>
             first [ replace (Rltb a b) with true by (symmetry; apply Rltb_true; lra)
                   | replace (Rltb a b) with false by (symmetry; apply Rltb_false; lra) ]
         | |- context [Rleb ?a ?b] =>
             first [ replace (Rleb a b) with true by (symmetry; apply Rleb_true; lra)
                   | replace (Rleb a b) with false by (symmetry; apply Rleb_false; lra) ]
         end.

Example adjust_angles_three_pi : adjust_angles 2 (3 * PI) = Some PI.
Proof.
  pose proof PI_RGT_0. unfold adjust_angles. cbn [while_loop].
  decide_comparisons. f_equal. lra.
Qed.

Example adjust_angles_minus_pi : adjust_angles 2 (- PI) = Some PI.
Proof.
  pose proof PI_RGT_0. unfold adjust_angles. cbn [while_loop].
  decide_comparisons. f_equal. lra.
Qed.

(** On a moderate angle the loops end within [max_shifts] shifts. *)
Lemma PI_above_3 : 3 < PI.
Proof. pose proof PI2_3_2. lra. Qed.

Lemma INR_half_shifts : INR (Z.to_nat 4503599627370496) = 4503599627370496.
Proof. rewrite INR_IZR_INZ, Z2Nat.id by lia. reflexivity. Qed.

Lemma half_shifts_le : (S (Z.to_nat 4503599627370496) <= max_shifts)%nat.
Proof. unfold max_shifts. lia. Qed.

Lemma adjust_angles_within (psi : R) :
  moderate psi ->
  exists r, forall fuel, (max_shifts <= fuel)%nat -> adjust_angles fuel psi = Some r.
Proof.
  intros [Hlo Hhi]. unfold max_angle in *.
  pose proof PI_above_3 as Hpi. pose proof INR_half_shifts as HN.
  set (N := Z.to_nat 4503599627370496) in *.
  destruct (shift_down_returns (2 * PI) PI N psi) as [r1 Hr1]; [rewrite HN; lra|].
  destruct (shift_down_sound (2 * PI) PI _ _ _ Hr1) as (_ & _ & Hr1').
  destruct (shift_up_returns (2 * PI) (- PI) N r1) as [r Hr];
    [rewrite HN; destruct Hr1'; lra|].
  exists r. intros fuel Hle. pose proof half_shifts_le as HS. fold N in HS.
  unfold adjust_angles.
  rewrite (while_loop_mono _ _ _ fuel _ _ Hr1) by lia.
  apply (while_loop_mono _ _ _ fuel _ _ Hr). lia.
Qed.




(** ** [_adjust_diff] *)

Lemma adjust_diff_sound (fuel : nat) (d r : R) :
  _adjust_diff fuel d = Some r ->
  (- (PI / 2) <= r <= PI / 2) /\
  (exists k : Z, r = d + PI * IZR k) /\
  (- (PI / 2) < d -> - (PI / 2) < r) /\
  (d <= - (PI / 2) -> r < PI / 2) /\
  (- (PI / 2) <= d <= PI / 2 -> r = d).
Proof.
  pose proof PI_RGT_0 as Hpi.
  unfold _adjust_diff. intros H.
  destruct (while_loop _ _ fuel d) as [r1|] eqn:E1; [|discriminate].
  rewrite (while_loop_ext _ _ _ closer_below) in E1.
  rewrite (while_loop_ext _ _ _ closer_above) in H.
  destruct (shift_down_sound PI (PI / 2) _ _ _ E1) as (H1 & (k1 & Hk1) & H1').
  destruct (shift_up_strict_sound PI (- (PI / 2)) _ _ _ H) as (H2 & (k2 & Hk2) & H2').
  assert (Hk : exists k : Z, r = d + PI * IZR k).
  { exists (Z.of_nat k2 - Z.of_nat k1)%Z. rewrite minus_IZR, <- !INR_IZR_INZ. lra. }
  assert (Hidle1 : d <= PI / 2 -> r1 = d).
  { intros Hd.
    apply (while_loop_idle (fun x => Rltb (PI / 2) x) _ _ _ _ (proj2 (Rltb_false _ _) Hd) E1). }
  assert (Hidle2 : - (PI / 2) <= r1 -> r = r1).
  { intros Hd.
    apply (while_loop_idle (fun x => Rltb x (- (PI / 2))) _ _ _ _
             (proj2 (Rltb_false _ _) Hd) H). }
  split; [|split; [exact Hk|]].
  - split; [exact H2|]. destruct H2'; lra.
  - repeat split.
    + intros Hd. destruct H1' as [->|H1']; rewrite Hidle2; lra.
    + intros Hd. rewrite Hidle1 in * by lra. destruct H2'; lra.
    + intros Hd. rewrite Hidle2; rewrite Hidle1; lra.
Qed.

Lemma adjust_diff_returns (d : R) : exists r, returns (fun fuel => _adjust_diff fuel d) r.
Proof.
  pose proof PI_RGT_0 as Hpi.
  destruct (nat_above_scaled (d - PI / 2) PI Hpi) as [n1 Hn1].
  destruct (shift_down_returns PI (PI / 2) n1 d) as [r1 Hr1]; [lra|].
  destruct (nat_above_scaled (- (PI / 2) - r1) PI Hpi) as [n2 Hn2].
  destruct (shift_up_strict_returns PI (- (PI / 2)) n2 r1) as [r Hr]; [lra|].
  exists r, (Nat.max (S n1) (S n2)). intros fuel' Hle.
  unfold _adjust_diff.
  rewrite (while_loop_ext _ (fun x => Rltb (PI / 2) x) _ closer_below).
  rewrite (while_loop_mono _ _ _ fuel' _ _ Hr1) by lia.
  rewrite (while_loop_ext _ (fun x => Rltb x (- (PI / 2))) _ closer_above).
  apply (while_loop_mono _ _ _ fuel' _ _ Hr). lia.
Qed.

(** The tie at the difference -pi/2, in exact arithmetic: neither loop
    shifts it (shifting by pi does not strictly reduce its absolute value),
    so [_adjust_diff] returns -pi/2 itself, which is outside (-pi/2, pi/2]. *)
Lemma adjust_diff_minus_half_pi :
  returns (fun fuel => _adjust_diff fuel (- (PI / 2))) (- (PI / 2)) /\
  ~ (- (PI / 2) < - (PI / 2) <= PI / 2).
Proof.
  pose proof PI_RGT_0 as Hpi. split.
  - destruct (adjust_diff_returns (- (PI / 2))) as [r Hr].
    assert (E : r = - (PI / 2)).
    { destruct Hr as [f Hf].
      destruct (adjust_diff_sound f _ _ (Hf f (Nat.le_refl f))) as (_ & _ & _ & _ & Hid).
      apply Hid. lra. }
    rewrite E in Hr. exact Hr.
  - lra.
Qed.

Lemma adjust_diff_within (d : R) :
  moderate d ->
  exists r, forall fuel, (max_shifts <= fuel)%nat -> _adjust_diff fuel d = Some r.
Proof.
  intros [Hlo Hhi]. unfold max_angle in *.
  pose proof PI_above_3 as Hpi. pose proof INR_half_shifts as HN.
  set (N := Z.to_nat 4503599627370496) in *.
  destruct (shift_down_returns PI (PI / 2) N d) as [r1 Hr1]; [rewrite HN; lra|].
  destruct (shift_down_sound PI (PI / 2) _ _ _ Hr1) as (_ & _ & Hr1').
  destruct (shift_up_strict_returns PI (- (PI / 2)) N r1) as [r Hr];
    [rewrite HN; destruct Hr1'; lra|].
  exists r. intros fuel Hle. pose proof half_shifts_le as HS. fold N in HS.
  unfold _adjust_diff.
  rewrite (while_loop_ext _ (fun x => Rltb (PI / 2) x) _ closer_below).
  rewrite (while_loop_mono _ _ _ fuel _ _ Hr1) by lia.
  rewrite (while_loop_ext _ (fun x => Rltb x (- (PI / 2))) _ closer_above).
  apply (while_loop_mono _ _ _ fuel _ _ Hr). lia.
Qed.




(** ** The kernels under rounding *)

(** What the exact reading leaves out is the rounding of each shift.  The
    loops are run here with a rounding after every operation; the
    hypotheses on it hold of rounding to the nearest float64, and of no
    rounding at all. *)
Section RoundedKernels.

Variable rnd : R -> R.
Variable npi : R.
Hypothesis rnd_mono : forall x y, x <= y -> rnd x <= rnd y.
Hypothesis rnd_npi : rnd npi = npi.
Hypothesis rnd_opp_npi : rnd (- npi) = - npi.
Hypothesis rnd_two_npi : rnd (2 * npi) = 2 * npi.
Hypothesis rnd_near :
  forall B x, 4 <= B <= 2 * max_angle -> - B <= x <= B -> Rabs (rnd x - x) <= half_ulp B.
Hypothesis npi_range : 3 < npi <= 4.

Variable B : R.
Hypothesis B_range : 4 <= B <= max_angle.

Lemma half_ulp_small : 0 <= half_ulp B <= 1.
Proof. unfold half_ulp, max_angle in *. lra. Qed.

Lemma rnd_close (x : R) : - B <= x <= B -> x - half_ulp B <= rnd x <= x + half_ulp B.
Proof.
  intros Hx.
  assert (HB : 4 <= B <= 2 * max_angle) by (unfold max_angle in *; lra).
  pose proof (rnd_near B x HB Hx) as H.
  unfold Rabs in H. destruct (Rcase_abs (rnd x - x)); lra.
Qed.

Lemma rounded_down_loop :
  forall n x, - B <= x <= B -> x <= npi + 5 * INR n ->
    exists r k,
      while_loop (fun psi => Rltb npi psi) (fun psi => rnd (psi - rnd (2 * npi))) (S n) x
      = Some r /\
      r <= npi /\ - B <= r /\ (- npi <= x -> - npi <= r) /\
      Rabs (r - (x - 2 * npi * INR k)) <= INR k * half_ulp B.
Proof.
  pose proof half_ulp_small as He. rewrite rnd_two_npi.
  induction n as [|n IH]; intros x Hx Hn.
  - simpl in Hn. exists x, O. cbn [while_loop].
    replace (Rltb npi x) with false by (symmetry; apply Rltb_false; lra).
    split; [reflexivity|]. split; [lra|]. split; [lra|]. split; [auto|].
    simpl. replace (x - (x - 2 * npi * 0)) with 0 by lra. rewrite Rabs_R0. lra.
  - rewrite while_loop_S. destruct (Rltb npi x) eqn:E.
    + apply Rltb_true in E.
      set (x' := rnd (x - 2 * npi)).
      assert (Hc : x - 2 * npi - half_ulp B <= x' <= x - 2 * npi + half_ulp B).
      { apply rnd_close. lra. }
      assert (Hlo : - npi <= x').
      { rewrite <- rnd_opp_npi. apply rnd_mono. lra. }
      rewrite S_INR in Hn.
      destruct (IH x') as (r & k & Hr & Hle & HB & Hge & Hd); [lra | lra |].
      exists r, (S k). split; [exact Hr|]. split; [exact Hle|]. split; [exact HB|].
      split; [intros _; apply Hge; exact Hlo|].
      rewrite S_INR.
      replace (r - (x - 2 * npi * (INR k + 1)))
        with ((r - (x' - 2 * npi * INR k)) + (x' - (x - 2 * npi))) by lra.
      eapply Rle_trans; [apply Rabs_triang|].
      assert (Rabs (x' - (x - 2 * npi)) <= half_ulp B).
      { unfold Rabs. destruct (Rcase_abs (x' - (x - 2 * npi))); lra. }
      lra.
    + apply Rltb_false in E. exists x, O.
      split; [reflexivity|]. split; [lra|]. split; [lra|]. split; [auto|].
      simpl. replace (x - (x - 2 * npi * 0)) with 0 by lra. rewrite Rabs_R0. lra.
Qed.

Lemma rounded_up_loop :
  forall n x, - B <= x <= npi -> - npi - 5 * INR n < x ->
    exists r k,
      while_loop (fun psi => Rleb psi (- npi)) (fun psi => rnd (psi + rnd (2 * npi))) (S n) x
      = Some r /\
      - npi < r <= npi /\
      Rabs (r - (x + 2 * npi * INR k)) <= INR k * half_ulp B.
Proof.
  pose proof half_ulp_small as He. rewrite rnd_two_npi.
  induction n as [|n IH]; intros x Hx Hn.
  - simpl in Hn. exists x, O. cbn [while_loop].
    replace (Rleb x (- npi)) with false by (symmetry; apply Rleb_false; lra).
    split; [reflexivity|]. split; [lra|].
    simpl. replace (x - (x + 2 * npi * 0)) with 0 by lra. rewrite Rabs_R0. lra.
  - rewrite while_loop_S. destruct (Rleb x (- npi)) eqn:E.
    + apply Rleb_true in E.
      set (x' := rnd (x + 2 * npi)).
      assert (Hc : x + 2 * npi - half_ulp B <= x' <= x + 2 * npi + half_ulp B).
      { apply rnd_close. lra. }
      assert (Hhi : x' <= npi).
      { rewrite <- rnd_npi. apply rnd_mono. lra. }
      rewrite S_INR in Hn.
      destruct (IH x') as (r & k & Hr & Hin & Hd); [lra | lra |].
      exists r, (S k). split; [exact Hr|]. split; [exact Hin|].
      rewrite S_INR.
      replace (r - (x + 2 * npi * (INR k + 1)))
        with ((r - (x' + 2 * npi * INR k)) + (x' - (x + 2 * npi))) by lra.
      eapply Rle_trans; [apply Rabs_triang|].
      assert (Rabs (x' - (x + 2 * npi)) <= half_ulp B).
      { unfold Rabs. destruct (Rcase_abs (x' - (x + 2 * npi))); lra. }
      lra.
    + apply Rleb_false in E. exists x, O.
      split; [reflexivity|]. split; [lra|].
      simpl. replace (x - (x + 2 * npi * 0)) with 0 by lra. rewrite Rabs_R0. lra.
Qed.


Let eB := half_ulp (B + 4).
Let e4 := half_ulp 4.

Lemma eB_small : 0 <= eB <= 101 / 100.
Proof. unfold eB, half_ulp, max_angle in *. lra. Qed.

Lemma e4_small : 0 <= e4 <= 1 / 1000.
Proof. unfold e4, half_ulp. lra. Qed.

Lemma rnd_close_B (x : R) : - (B + 4) <= x <= B + 4 -> x - eB <= rnd x <= x + eB.
Proof.
  intros Hx.
  assert (HB : 4 <= B + 4 <= 2 * max_angle) by (unfold max_angle in *; lra).
  pose proof (rnd_near (B + 4) x HB Hx) as H. fold eB in H.
  unfold Rabs in H. destruct (Rcase_abs (rnd x - x)); lra.
Qed.

Lemma rnd_close_4 (x : R) : - 4 <= x <= 4 -> x - e4 <= rnd x <= x + e4.
Proof.
  intros Hx.
  assert (HB : 4 <= 4 <= 2 * max_angle) by (unfold max_angle; lra).
  pose proof (rnd_near 4 x HB Hx) as H. fold e4 in H.
  unfold Rabs in H. destruct (Rcase_abs (rnd x - x)); lra.
Qed.

(** The first test holds on positive differences only. *)
Lemma closer_below_rounded (d : R) :
  - B <= d <= B -> Rltb (Rabs (rnd (d - npi))) (Rabs d) = true -> 0 < d.
Proof.
  intros Hd H. apply Rltb_true in H.
  destruct (Rlt_dec 0 d) as [Hp|Hn]; [exact Hp|exfalso].
  pose proof eB_small. pose proof (rnd_close_B (d - npi) ltac:(lra)) as Hc.
  assert (Hle : rnd (d - npi) <= - npi) by (rewrite <- rnd_opp_npi; apply rnd_mono; lra).
  rewrite (Rabs_left (rnd (d - npi))) in H by lra.
  rewrite (Rabs_left1 d) in H by lra. lra.
Qed.

Lemma closer_above_rounded (d : R) :
  - B <= d <= B -> Rltb (Rabs (rnd (d + npi))) (Rabs d) = true -> d < 0.
Proof.
  intros Hd H. apply Rltb_true in H.
  destruct (Rlt_dec d 0) as [Hp|Hn]; [exact Hp|exfalso].
  pose proof eB_small. pose proof (rnd_close_B (d + npi) ltac:(lra)) as Hc.
  assert (Hle : npi <= rnd (d + npi)) by (rewrite <- rnd_npi at 1; apply rnd_mono; lra).
  rewrite (Rabs_pos_eq (rnd (d + npi))) in H by lra.
  rewrite (Rabs_pos_eq d) in H by lra. lra.
Qed.

(** Where the first test fails the difference is at most pi/2, up to the
    rounding of one subtraction. *)
Lemma below_exit_rounded (r : R) :
  - B <= r <= B -> Rltb (Rabs (rnd (r - npi))) (Rabs r) = false -> r <= npi / 2 + e4.
Proof.
  intros Hr H. apply Rltb_false in H.
  pose proof eB_small. pose proof e4_small.
  destruct (Rle_dec r (npi / 2 + e4)) as [Hle|Hgt]; [exact Hle|exfalso].
  apply Rnot_le_lt in Hgt. rewrite (Rabs_pos_eq r) in H by lra.
  destruct (Rle_dec npi r) as [Hbig|Hsmall].
  - pose proof (rnd_close_B (r - npi) ltac:(lra)) as Hc.
    assert (Rabs (rnd (r - npi)) <= r - npi + eB)
      by (unfold Rabs; destruct (Rcase_abs (rnd (r - npi))); lra).
    lra.
  - pose proof (rnd_close_4 (r - npi) ltac:(lra)) as Hc.
    assert (Rabs (rnd (r - npi)) <= npi - r + e4)
      by (unfold Rabs; destruct (Rcase_abs (rnd (r - npi))); lra).
    lra.
Qed.

Lemma above_exit_rounded (r : R) :
  - B <= r <= B -> Rltb (Rabs (rnd (r + npi))) (Rabs r) = false -> - (npi / 2 + e4) <= r.
Proof.
  intros Hr H. apply Rltb_false in H.
  pose proof eB_small. pose proof e4_small.
  destruct (Rle_dec (- (npi / 2 + e4)) r) as [Hle|Hgt]; [exact Hle|exfalso].
  apply Rnot_le_lt in Hgt. rewrite (Rabs_left r) in H by lra.
  destruct (Rle_dec r (- npi)) as [Hbig|Hsmall].
  - pose proof (rnd_close_B (r + npi) ltac:(lra)) as Hc.
    assert (Rabs (rnd (r + npi)) <= - (r + npi) + eB)
      by (unfold Rabs; destruct (Rcase_abs (rnd (r + npi))); lra).
    lra.
  - pose proof (rnd_close_4 (r + npi) ltac:(lra)) as Hc.
    assert (Rabs (rnd (r + npi)) <= r + npi + e4)
      by (unfold Rabs; destruct (Rcase_abs (rnd (r + npi))); lra).
    lra.
Qed.

(** A shift up lands at most at pi/2, up to rounding. *)
Lemma above_step_rounded (d : R) :
  - B <= d <= B -> Rltb (Rabs (rnd (d + npi))) (Rabs d) = true ->
  rnd (d + npi) <= npi / 2 + 2 * e4.
Proof.
  intros Hd H. pose proof (closer_above_rounded d Hd H) as Hneg.
  apply Rltb_true in H. pose proof e4_small.
  rewrite (Rabs_left d) in H by lra.
  destruct (Rle_dec d (- npi)) as [Hbig|Hsmall].
  - assert (rnd (d + npi) <= rnd 0) by (apply rnd_mono; lra).
    pose proof (rnd_close_4 0 ltac:(lra)). lra.
  - pose proof (rnd_close_4 (d + npi) ltac:(lra)) as Hc.
    assert (rnd (d + npi) < - d)
      by (unfold Rabs in H; destruct (Rcase_abs (rnd (d + npi))); lra).
    lra.
Qed.

Lemma rounded_diff_down_loop :
  forall n d, - B <= d <= B -> d <= 3 / 2 * INR n ->
    exists r k,
      while_loop (fun diff => Rltb (Rabs (rnd (diff - npi))) (Rabs diff))
                 (fun diff => rnd (diff - npi)) (S n) d = Some r /\
      Rltb (Rabs (rnd (r - npi))) (Rabs r) = false /\
      - B <= r <= d /\
      Rabs (r - (d - npi * INR k)) <= INR k * eB.
Proof.
  pose proof eB_small as He.
  induction n as [|n IH]; intros d Hd Hn; rewrite while_loop_S;
    destruct (Rltb (Rabs (rnd (d - npi))) (Rabs d)) eqn:E;
    try (exists d, O; split; [reflexivity|]; split; [exact E|]; split; [lra|];
         simpl; replace (d - (d - npi * 0)) with 0 by lra; rewrite Rabs_R0; lra).
  - pose proof (closer_below_rounded d Hd E). simpl in Hn. lra.
  - pose proof (closer_below_rounded d Hd E) as Hp.
    set (d' := rnd (d - npi)).
    pose proof (rnd_close_B (d - npi) ltac:(lra)) as Hc. fold d' in Hc.
    assert (Hlo : - npi <= d') by (unfold d'; rewrite <- rnd_opp_npi; apply rnd_mono; lra).
    rewrite S_INR in Hn.
    destruct (IH d') as (r & k & Hr & Hx & Hin & Hdr); [lra | lra |].
    exists r, (S k). split; [exact Hr|]. split; [exact Hx|]. split; [lra|].
    rewrite S_INR.
    replace (r - (d - npi * (INR k + 1)))
      with ((r - (d' - npi * INR k)) + (d' - (d - npi))) by lra.
    eapply Rle_trans; [apply Rabs_triang|].
    assert (Rabs (d' - (d - npi)) <= eB)
      by (unfold Rabs; destruct (Rcase_abs (d' - (d - npi))); lra).
    lra.
Qed.

Lemma rounded_diff_up_loop :
  forall n d, - B <= d <= B -> - (3 / 2 * INR n) <= d ->
    exists r k,
      while_loop (fun diff => Rltb (Rabs (rnd (diff + npi))) (Rabs diff))
                 (fun diff => rnd (diff + npi)) (S n) d = Some r /\
      Rltb (Rabs (rnd (r + npi))) (Rabs r) = false /\
      - B <= r <= B /\
      (r = d \/ r <= npi / 2 + 2 * e4) /\
      Rabs (r - (d + npi * INR k)) <= INR k * eB.
Proof.
  pose proof eB_small as He. pose proof e4_small as He4.
  induction n as [|n IH]; intros d Hd Hn; rewrite while_loop_S;
    destruct (Rltb (Rabs (rnd (d + npi))) (Rabs d)) eqn:E;
    try (exists d, O; split; [reflexivity|]; split; [exact E|]; split; [lra|];
         split; [left; reflexivity|];
         simpl; replace (d - (d + npi * 0)) with 0 by lra; rewrite Rabs_R0; lra).
  - pose proof (closer_above_rounded d Hd E). simpl in Hn. lra.
  - pose proof (closer_above_rounded d Hd E) as Hp.
    pose proof (above_step_rounded d Hd E) as Hup.
    set (d' := rnd (d + npi)) in *.
    pose proof (rnd_close_B (d + npi) ltac:(lra)) as Hc. fold d' in Hc.
    rewrite S_INR in Hn.
    destruct (IH d') as (r & k & Hr & Hx & Hin & Hor & Hdr); [lra | lra |].
    exists r, (S k). split; [exact Hr|]. split; [exact Hx|]. split; [lra|].
    split; [right; destruct Hor; lra|].
    rewrite S_INR.
    replace (r - (d + npi * (INR k + 1)))
      with ((r - (d' + npi * INR k)) + (d' - (d + npi))) by lra.
    eapply Rle_trans; [apply Rabs_triang|].
    assert (Rabs (d' - (d + npi)) <= eB)
      by (unfold Rabs; destruct (Rcase_abs (d' - (d + npi))); lra).
    lra.
Qed.


End RoundedKernels.

(** Without rounding, and with pi for [np.pi], these are the kernels in exact
    arithmetic. *)
Lemma adjust_angles_rounded_exact (fuel : nat) (psi : R) :
  adjust_angles_rounded (fun x => x) PI fuel psi = adjust_angles fuel psi.
Proof. reflexivity. Qed.

Lemma adjust_diff_rounded_exact (fuel : nat) (diff : R) :
  _adjust_diff_rounded (fun x => x) PI fuel diff = _adjust_diff fuel diff.
Proof. reflexivity. Qed.



(** ** Arrays: element-wise operations on arrays of one shape *)

Lemma map2M_ok {A B C : Type} (f : A -> B -> result C) (da : A) (db : B) (dc : C) :
  forall l1 l2 n,
    length l1 = n -> length l2 = n ->
    (forall i, (i < n)%nat -> exists c, f (nth i l1 da) (nth i l2 db) = Ok c) ->
    exists l, map2M f l1 l2 = Ok l /\ length l = n /\
              forall i, (i < n)%nat -> f (nth i l1 da) (nth i l2 db) = Ok (nth i l dc).
Proof.
  induction l1 as [|a l1 IH]; intros [|b l2] n H1 H2 Hf; simpl in *; subst n;
    try discriminate.
  - exists []. repeat split; intros; lia.
  - injection H2 as H2.
    destruct (Hf O ltac:(lia)) as [c Hc]. simpl in Hc.
    destruct (IH l2 (length l1) eq_refl H2) as (l & Hl & Hlen & Hnth).
    { intros i Hi. apply (Hf (S i)). lia. }
    exists (c :: l). rewrite Hc, Hl. simpl.
    repeat split; [lia|]. intros [|i] Hi; [exact Hc | apply Hnth; lia].
Qed.

Lemma mapM_ok {A B : Type} (f : A -> result B) (da : A) (db : B) :
  forall l n,
    length l = n ->
    (forall i, (i < n)%nat -> exists c, f (nth i l da) = Ok c) ->
    exists l', mapM f l = Ok l' /\ length l' = n /\
               forall i, (i < n)%nat -> f (nth i l da) = Ok (nth i l' db).
Proof.
  induction l as [|a l IH]; intros n H1 Hf; simpl in *; subst n.
  - exists []. repeat split; intros; lia.
  - destruct (Hf O ltac:(lia)) as [c Hc]. simpl in Hc.
    destruct (IH (length l) eq_refl) as (l' & Hl & Hlen & Hnth).
    { intros i Hi. apply (Hf (S i)). lia. }
    exists (c :: l'). rewrite Hc, Hl. simpl.
    repeat split; [lia|]. intros [|i] Hi; [exact Hc | apply Hnth; lia].
Qed.

Lemma arr1_map2_ok {A B C : Type} (f : A -> B -> C) (da : A) (db : B) (dc : C) :
  forall l1 l2 n,
    length l1 = n -> length l2 = n ->
    exists l, arr1_map2 f l1 l2 = Ok l /\ length l = n /\
              forall i, (i < n)%nat -> nth i l dc = f (nth i l1 da) (nth i l2 db).
Proof.
  intros l1 l2 n H1 H2.
  destruct (map2M_ok (elementwise f) da db dc l1 l2 n H1 H2) as (l & Hl & Hlen & Hnth).
  { intros i _. eexists. reflexivity. }
  exists l. repeat split; try assumption.
  intros i Hi. specialize (Hnth i Hi). unfold elementwise in Hnth. congruence.
Qed.

Lemma arr2_map2_ok {A B C : Type} (f : A -> B -> C) (da : A) (db : B) (dc : C) :
  forall a b nx ny,
    shape2 nx ny a -> shape2 nx ny b ->
    exists c, arr2_map2 f a b = Ok c /\ shape2 nx ny c /\
              forall i j, (i < nx)%nat -> (j < ny)%nat ->
                          get2 dc c i j = f (get2 da a i j) (get2 db b i j).
Proof.
  intros a b nx ny [Ha Ha'] [Hb Hb'].
  destruct (map2M_ok (arr1_map2 f) [] [] [] a b nx Ha Hb) as (c & Hc & Hlen & Hnth).
  { intros i Hi.
    destruct (arr1_map2_ok f da db dc (nth i a []) (nth i b []) ny (Ha' i Hi) (Hb' i Hi))
      as (l & Hl & _). eauto. }
  exists c. split; [exact Hc|]. split.
  - split; [exact Hlen|]. intros i Hi.
    destruct (arr1_map2_ok f da db dc (nth i a []) (nth i b []) ny (Ha' i Hi) (Hb' i Hi))
      as (l & Hl & Hll & _).
    pose proof (eq_trans (eq_sym Hl) (Hnth i Hi)) as E. injection E as <-. exact Hll.
  - intros i j Hi Hj. unfold get2.
    destruct (arr1_map2_ok f da db dc (nth i a []) (nth i b []) ny (Ha' i Hi) (Hb' i Hi))
      as (l & Hl & _ & Hl').
    pose proof (eq_trans (eq_sym Hl) (Hnth i Hi)) as E. injection E as <-.
    apply Hl'. exact Hj.
Qed.

Lemma arr3_map2_ok {A B C : Type} (f : A -> B -> C) (da : A) (db : B) (dc : C) :
  forall a b nx ny nz,
    shape3 nx ny nz a -> shape3 nx ny nz b ->
    exists c, arr3_map2 f a b = Ok c /\ shape3 nx ny nz c /\
              forall i j k, (i < nx)%nat -> (j < ny)%nat -> (k < nz)%nat ->
                            get3 dc c i j k = f (get3 da a i j k) (get3 db b i j k).
Proof.
  intros a b nx ny nz [Ha Ha'] [Hb Hb'].
  destruct (map2M_ok (arr2_map2 f) [] [] [] a b nx Ha Hb) as (c & Hc & Hlen & Hnth).
  { intros i Hi.
    destruct (arr2_map2_ok f da db dc (nth i a []) (nth i b []) ny nz (Ha' i Hi) (Hb' i Hi))
      as (l & Hl & _). eauto. }
  exists c. split; [exact Hc|]. split.
  - split; [exact Hlen|]. intros i Hi.
    destruct (arr2_map2_ok f da db dc (nth i a []) (nth i b []) ny nz (Ha' i Hi) (Hb' i Hi))
      as (l & Hl & Hll & _).
    pose proof (eq_trans (eq_sym Hl) (Hnth i Hi)) as E. injection E as <-. exact Hll.
  - intros i j k Hi Hj Hk. unfold get3.
    destruct (arr2_map2_ok f da db dc (nth i a []) (nth i b []) ny nz (Ha' i Hi) (Hb' i Hi))
      as (l & Hl & _ & Hl').
    pose proof (eq_trans (eq_sym Hl) (Hnth i Hi)) as E. injection E as <-.
    apply (Hl' j k Hj Hk).
Qed.

Lemma nth_map_in {A B : Type} (f : A -> B) (l : list A) (i : nat) (da : A) (db : B) :
  (i < length l)%nat -> nth i (map f l) db = f (nth i l da).
Proof.
  intros Hi. rewrite (nth_indep _ db (f da)) by (rewrite length_map; exact Hi).
  apply map_nth.
Qed.

Lemma arr2_map_shape {A B : Type} (f : A -> B) (a : array2 A) (nx ny : nat) :
  shape2 nx ny a -> shape2 nx ny (arr2_map f a).
Proof.
  intros [Ha Ha']. unfold arr2_map. split; [rewrite length_map; exact Ha|].
  intros i Hi. rewrite (nth_map_in _ _ _ []) by lia.
  rewrite length_map. apply Ha'. exact Hi.
Qed.

Lemma arr2_map_get {A B : Type} (f : A -> B) (da : A) (db : B) (a : array2 A)
      (nx ny i j : nat) :
  shape2 nx ny a -> (i < nx)%nat -> (j < ny)%nat ->
  get2 db (arr2_map f a) i j = f (get2 da a i j).
Proof.
  intros [Ha Ha'] Hi Hj. unfold get2, arr2_map.
  rewrite (nth_map_in _ _ _ []) by lia.
  apply nth_map_in. rewrite Ha' by exact Hi. exact Hj.
Qed.

Lemma arr3_map_shape {A B : Type} (f : A -> B) (a : array3 A) (nx ny nz : nat) :
  shape3 nx ny nz a -> shape3 nx ny nz (arr3_map f a).
Proof.
  intros [Ha Ha']. unfold arr3_map. split; [rewrite length_map; exact Ha|].
  intros i Hi. rewrite (nth_map_in _ _ _ []) by lia.
  apply (arr2_map_shape f). apply Ha'. exact Hi.
Qed.

Lemma arr3_map_get {A B : Type} (f : A -> B) (da : A) (db : B) (a : array3 A)
      (nx ny nz i j k : nat) :
  shape3 nx ny nz a -> (i < nx)%nat -> (j < ny)%nat -> (k < nz)%nat ->
  get3 db (arr3_map f a) i j k = f (get3 da a i j k).
Proof.
  intros [Ha Ha'] Hi Hj Hk. unfold get3, arr3_map.
  rewrite (nth_map_in _ _ _ []) by lia.
  apply (arr2_map_get f da db (nth i a []) ny nz j k); auto.
Qed.

(** The test of a shape decides the shape. *)
Lemma has_shape2_shape2 {A : Type} (nx ny : nat) (a : array2 A) :
  has_shape2 nx ny a = true -> shape2 nx ny a.
Proof.
  unfold has_shape2. intros H. apply andb_true_iff in H. destruct H as [H1 H2].
  apply Nat.eqb_eq in H1. split; [exact H1|].
  intros i Hi. rewrite forallb_forall in H2.
  apply Nat.eqb_eq. apply H2. apply nth_In. lia.
Qed.

Lemma has_shape3_shape3 {A : Type} (nx ny nz : nat) (a : array3 A) :
  has_shape3 nx ny nz a = true -> shape3 nx ny nz a.
Proof.
  unfold has_shape3. intros H. apply andb_true_iff in H. destruct H as [H1 H2].
  apply Nat.eqb_eq in H1. split; [exact H1|].
  intros i Hi. rewrite forallb_forall in H2.
  apply has_shape2_shape2. apply H2. apply nth_In. lia.
Qed.

(** ** Sums, differences and the trapezoidal rule *)

Lemma xadd_0_l (x : xreal) : xadd (Fin 0) x = x.
Proof. destruct x; simpl; try reflexivity. f_equal. lra. Qed.

Lemma xadd_0_r (x : xreal) : xadd x (Fin 0) = x.
Proof. destruct x; simpl; try reflexivity. f_equal. lra. Qed.

Lemma xsum_upto_ext (t t' : nat -> xreal) (m : nat) :
  (forall k, (k < m)%nat -> t k = t' k) -> xsum_upto t m = xsum_upto t' m.
Proof.
  induction m as [|m IH]; intros H; simpl; [reflexivity|].
  rewrite IH, H by (intros; try apply H; lia). reflexivity.
Qed.

Lemma fold_left_xsum_upto (t : nat -> xreal) (d : xreal) :
  forall l m,
    (forall i, (i < length l)%nat -> nth i l d = t (m + i)%nat) ->
    fold_left xadd l (xsum_upto t m) = xsum_upto t (m + length l).
Proof.
  induction l as [|a l IH]; intros m H; simpl.
  - rewrite Nat.add_0_r. reflexivity.
  - replace (m + S (length l))%nat with (S m + length l)%nat by lia.
    rewrite <- IH.
    + simpl. specialize (H O ltac:(simpl; lia)). simpl in H.
      rewrite Nat.add_0_r in H. rewrite H. reflexivity.
    + intros i Hi. specialize (H (S i) ltac:(simpl; lia)). simpl in H.
      rewrite H. f_equal. lia.
Qed.

Lemma xsum_spec (t : nat -> xreal) (d : xreal) (l : list xreal) :
  (forall i, (i < length l)%nat -> nth i l d = t i) ->
  xsum l = xsum_upto t (length l).
Proof.
  intros H. unfold xsum.
  apply (fold_left_xsum_upto t d l O). exact H.
Qed.

Lemma cumsum_from_length (l : list xreal) :
  forall acc, length (cumsum_from acc l) = length l.
Proof. induction l; intros; simpl; auto. Qed.

Lemma cumsum_from_nth (t : nat -> xreal) (d : xreal) :
  forall l m,
    (forall i, (i < length l)%nat -> nth i l d = t (m + i)%nat) ->
    forall i, (i < length l)%nat ->
      nth i (cumsum_from (xsum_upto t m) l) d = xsum_upto t (m + S i).
Proof.
  induction l as [|a l IH]; intros m H i Hi; simpl in Hi; [lia|].
  assert (Ha : a = t m).
  { specialize (H O ltac:(simpl; lia)). simpl in H. rewrite Nat.add_0_r in H. exact H. }
  subst a. destruct i as [|i]; simpl.
  - rewrite Nat.add_1_r. reflexivity.
  - change (xadd (xsum_upto t m) (t m)) with (xsum_upto t (S m)).
    rewrite IH.
    + f_equal. lia.
    + intros j Hj. specialize (H (S j) ltac:(simpl; lia)). simpl in H.
      rewrite H. f_equal. lia.
    + lia.
Qed.

Lemma cumsum_length (l : list xreal) : length (cumsum l) = length l.
Proof. destruct l; simpl; [reflexivity|]. rewrite cumsum_from_length. reflexivity. Qed.

Lemma cumsum_nth (t : nat -> xreal) (d : xreal) (l : list xreal) :
  (forall i, (i < length l)%nat -> nth i l d = t i) ->
  forall i, (i < length l)%nat -> nth i (cumsum l) d = xsum_upto t (S i).
Proof.
  intros H i Hi. destruct l as [|a l]; simpl in Hi; [lia|].
  assert (Ha : a = xsum_upto t 1).
  { specialize (H O ltac:(simpl; lia)). simpl in H. cbn [xsum_upto].
    rewrite xadd_0_l. exact H. }
  destruct i as [|i]; simpl nth; [exact Ha|].
  rewrite Ha. rewrite (cumsum_from_nth t d l 1).
  - reflexivity.
  - intros j Hj. apply (H (S j)). simpl. lia.
  - lia.
Qed.

Lemma length_tl {A : Type} (l : list A) : length (tl l) = (length l - 1)%nat.
Proof. destruct l; simpl; lia. Qed.

Lemma length_removelast {A : Type} (l : list A) : length (removelast l) = (length l - 1)%nat.
Proof.
  induction l as [|a [|b l] IH]; simpl in *; try reflexivity. lia.
Qed.

Lemma nth_tl {A : Type} (l : list A) (k : nat) (d : A) : nth k (tl l) d = nth (S k) l d.
Proof. destruct l; simpl; [destruct k; reflexivity | reflexivity]. Qed.

Lemma nth_removelast {A : Type} (d : A) :
  forall (l : list A) (k : nat), (k < length l - 1)%nat -> nth k (removelast l) d = nth k l d.
Proof.
  induction l as [|a [|b l] IH]; intros k Hk; simpl in Hk; try lia.
  destruct k as [|k]; [reflexivity|].
  change (nth k (removelast (b :: l)) d = nth k (b :: l) d).
  apply IH. simpl. lia.
Qed.

(** Two consecutive elements of an array, paired by the slices
    [a[1:]] and [a[:-1]]. *)
Lemma zip_slices_length {A C : Type} (f : A -> A -> C) (l : list A) :
  length (zip_with f (tl l) (removelast l)) = (length l - 1)%nat.
Proof.
  unfold zip_with. rewrite length_map, length_combine, length_tl, length_removelast. lia.
Qed.

Lemma zip_slices_nth {A C : Type} (f : A -> A -> C) (l : list A) (k : nat) (d : A) (dc : C) :
  (k < length l - 1)%nat ->
  nth k (zip_with f (tl l) (removelast l)) dc = f (nth (S k) l d) (nth k l d).
Proof.
  intros Hk. unfold zip_with.
  rewrite (nth_map_in _ _ _ (d, d)).
  - rewrite combine_nth by (rewrite length_tl, length_removelast; reflexivity).
    simpl. rewrite nth_tl, nth_removelast by exact Hk. reflexivity.
  - rewrite length_combine, length_tl, length_removelast. lia.
Qed.

(** The trapezoid terms of a column of [n] samples. *)
Lemma trapezoids_ok (x y : list xreal) (n : nat) (d : xreal) :
  length x = n -> length y = n ->
  exists t, trapezoids (diff x) y = Ok t /\ length t = (n - 1)%nat /\
            forall k, (k < n - 1)%nat ->
              nth k t d = trapezoid_term (fun k => nth k x d) (fun k => nth k y d) k.
Proof.
  intros Hx Hy. unfold trapezoids, diff.
  destruct (arr1_map2_ok xmul d d d
              (zip_with xsub (tl x) (removelast x))
              (zip_with xadd (tl y) (removelast y)) (n - 1))
    as (t & Ht & Hlen & Hnth).
  { rewrite zip_slices_length. lia. }
  { rewrite zip_slices_length. lia. }
  rewrite Ht. simpl. eexists. split; [reflexivity|]. split.
  - rewrite length_map. exact Hlen.
  - intros k Hk. rewrite (nth_map_in _ _ _ d) by lia.
    rewrite Hnth by exact Hk.
    rewrite (zip_slices_nth xsub x k d) by lia.
    rewrite (zip_slices_nth xadd y k d) by lia.
    reflexivity.
Qed.

Lemma trapz_column_ok (x y : list xreal) (n : nat) (d : xreal) :
  length x = n -> length y = n ->
  trapz_column y x =
  Ok (trapezoid_sum (fun k => nth k x d) (fun k => nth k y d) (n - 1)).
Proof.
  intros Hx Hy. unfold trapz_column.
  destruct (trapezoids_ok x y n d Hx Hy) as (t & Ht & Hlen & Hnth).
  rewrite Ht. simpl. f_equal. unfold trapezoid_sum.
  rewrite <- Hlen. apply (xsum_spec _ d). intros i Hi. apply Hnth. lia.
Qed.

Lemma cumtrapz_column_ok (x y : list xreal) (n : nat) (d : xreal) :
  (0 < n)%nat -> length x = n -> length y = n ->
  exists c, cumtrapz_column y x (Some (Fin 0)) = Ok c /\ length c = n /\
            forall k, (k < n)%nat ->
              nth k c d = trapezoid_sum (fun k => nth k x d) (fun k => nth k y d) k.
Proof.
  intros Hn Hx Hy. unfold cumtrapz_column.
  replace (Z.of_nat (length (diff x)) =? Z.of_nat (length y) - 1)%Z with true.
  2:{ symmetry. apply Z.eqb_eq. unfold diff. rewrite zip_slices_length. lia. }
  destruct (trapezoids_ok x y n d Hx Hy) as (t & Ht & Hlen & Hnth).
  rewrite Ht. simpl. eexists. split; [reflexivity|]. split.
  - simpl. rewrite cumsum_length. lia.
  - intros [|k] Hk; [reflexivity|]. simpl nth.
    unfold trapezoid_sum. apply cumsum_nth; [|lia].
    intros i Hi. apply Hnth. lia.
Qed.

(** The quadratures on the samples 1, 1, 3 at the depths 0, 1, 3. *)
Example trapz_column_uneven :
  trapz_column [Fin 1; Fin 1; Fin 3] [Fin 0; Fin 1; Fin 3] = Ok (Fin 5).
Proof.
  unfold trapz_column, trapezoids, diff, zip_with, xsum. cbn.
  destruct (Req_dec_T 2 0); [lra|]. cbn. do 2 f_equal. lra.
Qed.

Example cumtrapz_column_uneven :
  cumtrapz_column [Fin 1; Fin 1; Fin 3] [Fin 0; Fin 1; Fin 3] (Some (Fin 0))
  = Ok [Fin 0; Fin 1; Fin 5].
Proof.
  unfold cumtrapz_column, trapezoids, diff, zip_with. cbn.
  destruct (Req_dec_T 2 0); [lra|]. cbn.
  do 2 f_equal. f_equal; [f_equal; lra|]. f_equal. f_equal. lra.
Qed.

Example cumtrapz_column_length_mismatch :
  cumtrapz_column [Fin 1; Fin 1; Fin 3] [Fin 0; Fin 1] (Some (Fin 0)) = Raise ValueError.
Proof. reflexivity. Qed.

(** ** Integration along the depth axis of a 3-D array *)

Lemma mapM2_ok {A B : Type} (f : A -> result B) (da : A) (db : B) :
  forall (a : array2 A) nx ny,
    shape2 nx ny a ->
    (forall i j, (i < nx)%nat -> (j < ny)%nat -> exists c, f (get2 da a i j) = Ok c) ->
    exists c, mapM (mapM f) a = Ok c /\ shape2 nx ny c /\
              forall i j, (i < nx)%nat -> (j < ny)%nat ->
                          f (get2 da a i j) = Ok (get2 db c i j).
Proof.
  intros a nx ny [Ha Ha'] Hf.
  assert (Hrow : forall i, (i < nx)%nat ->
            exists l', mapM f (nth i a []) = Ok l' /\ length l' = ny /\
                       forall j, (j < ny)%nat -> f (nth j (nth i a []) da) = Ok (nth j l' db)).
  { intros i Hi. apply mapM_ok; [apply Ha'; exact Hi|].
    intros j Hj. apply (Hf i j Hi Hj). }
  destruct (mapM_ok (mapM f) [] [] a nx Ha) as (c & Hc & Hlen & Hnth).
  { intros i Hi. destruct (Hrow i Hi) as (l' & Hl' & _). eauto. }
  exists c. split; [exact Hc|]. split.
  - split; [exact Hlen|]. intros i Hi.
    destruct (Hrow i Hi) as (l' & Hl' & Hll & _).
    pose proof (eq_trans (eq_sym Hl') (Hnth i Hi)) as E. injection E as <-. exact Hll.
  - intros i j Hi Hj. unfold get2.
    destruct (Hrow i Hi) as (l' & Hl' & _ & Hl'').
    pose proof (eq_trans (eq_sym Hl') (Hnth i Hi)) as E. injection E as <-.
    apply Hl''. exact Hj.
Qed.

Lemma shape3_columns {A : Type} (a : array3 A) (nx ny nz : nat) :
  shape3 nx ny nz a ->
  shape2 nx ny a /\
  forall i j, (i < nx)%nat -> (j < ny)%nat -> length (get2 [] a i j) = nz.
Proof.
  intros [Ha Ha']. split.
  - split; [exact Ha|]. intros i Hi. apply (Ha' i Hi).
  - intros i j Hi Hj. unfold get2. apply (Ha' i Hi). exact Hj.
Qed.

Lemma trapz_ok (y : array3 xreal) (x : array1 xreal) (nx ny nz : nat) :
  shape3 nx ny nz y -> length x = nz ->
  exists t, trapz y x = Ok t /\ shape2 nx ny t /\
            forall i j, (i < nx)%nat -> (j < ny)%nat ->
              xget2 t i j =
              trapezoid_sum (fun k => nth k x NaN) (fun k => xget3 y i j k) (nz - 1).
Proof.
  intros Hy Hx. destruct (shape3_columns y nx ny nz Hy) as [Hy2 Hcol].
  destruct (mapM2_ok (fun column => trapz_column column x) [] NaN y nx ny Hy2)
    as (t & Ht & Hshape & Hget).
  { intros i j Hi Hj. rewrite (trapz_column_ok x _ nz NaN Hx (Hcol i j Hi Hj)). eauto. }
  exists t. split; [exact Ht|]. split; [exact Hshape|].
  intros i j Hi Hj. specialize (Hget i j Hi Hj).
  rewrite (trapz_column_ok x _ nz NaN Hx (Hcol i j Hi Hj)) in Hget.
  injection Hget as Hget. unfold xget2. rewrite <- Hget. reflexivity.
Qed.

Lemma cumtrapz_ok (y : array3 xreal) (x : array1 xreal) (nx ny nz : nat) :
  (0 < nz)%nat -> shape3 nx ny nz y -> length x = nz ->
  exists c, cumtrapz y x (Some (Fin 0)) = Ok c /\ shape3 nx ny nz c /\
            forall i j k, (i < nx)%nat -> (j < ny)%nat -> (k < nz)%nat ->
              xget3 c i j k =
              trapezoid_sum (fun k => nth k x NaN) (fun k => xget3 y i j k) k.
Proof.
  intros Hnz Hy Hx. destruct (shape3_columns y nx ny nz Hy) as [Hy2 Hcol].
  destruct (mapM2_ok (fun column => cumtrapz_column column x (Some (Fin 0))) [] [] y nx ny Hy2)
    as (c & Hc & Hshape & Hget).
  { intros i j Hi Hj.
    destruct (cumtrapz_column_ok x _ nz NaN Hnz Hx (Hcol i j Hi Hj)) as (l & Hl & _). eauto. }
  exists c. split; [exact Hc|]. split.
  - destruct Hshape as [Hlen Hrows]. split; [exact Hlen|].
    intros i Hi. split; [apply Hrows; exact Hi|].
    intros j Hj. specialize (Hget i j Hi Hj).
    destruct (cumtrapz_column_ok x _ nz NaN Hnz Hx (Hcol i j Hi Hj)) as (l & Hl & Hll & _).
    pose proof (eq_trans (eq_sym Hl) Hget) as E. injection E as E.
    unfold get2 in E. rewrite <- E. exact Hll.
  - intros i j k Hi Hj Hk. specialize (Hget i j Hi Hj).
    destruct (cumtrapz_column_ok x _ nz NaN Hnz Hx (Hcol i j Hi Hj)) as (l & Hl & _ & Hl').
    pose proof (eq_trans (eq_sym Hl) Hget) as E. injection E as E.
    unfold xget3, get3. unfold get2 in E. rewrite <- E. apply Hl'. exact Hk.
Qed.

(** ** The blocks of [compute_stokes_parameters] on arrays of one shape *)

Lemma lift_shape (a : array3 R) (nx ny nz : nat) :
  shape3 nx ny nz a -> shape3 nx ny nz (arr3_map Fin a).
Proof. apply arr3_map_shape. Qed.

Lemma lift_get (a : array3 R) (nx ny nz i j k : nat) :
  shape3 nx ny nz a -> (i < nx)%nat -> (j < ny)%nat -> (k < nz)%nat ->
  xget3 (arr3_map Fin a) i j k = Fin (rget3 a i j k).
Proof. intros. apply (arr3_map_get Fin 0 NaN a nx ny nz); assumption. Qed.

Lemma lift_depth_nth (depth : array1 R) (k : nat) :
  (k < length depth)%nat -> nth k (map Fin depth) NaN = samples depth k.
Proof. intros Hk. unfold samples. apply nth_map_in. exact Hk. Qed.

Lemma trapezoid_sum_ext (zs zs' f f' : nat -> xreal) (m : nat) :
  (forall k, (k <= m)%nat -> zs k = zs' k) ->
  (forall k, (k <= m)%nat -> f k = f' k) ->
  trapezoid_sum zs f m = trapezoid_sum zs' f' m.
Proof.
  intros Hz Hf. unfold trapezoid_sum. apply xsum_upto_ext.
  intros k Hk. unfold trapezoid_term.
  rewrite (Hz (S k)), (Hz k), (Hf (S k)), (Hf k) by lia. reflexivity.
Qed.

Section Blocks.

Variables nx ny nz : nat.
Variables Bx By Bz ne ncr : array3 R.
Variable depth : array1 R.
Hypothesis Bx_shape : shape3 nx ny nz Bx.
Hypothesis By_shape : shape3 nx ny nz By.
Hypothesis Bz_shape : shape3 nx ny nz Bz.
Hypothesis ne_shape : shape3 nx ny nz ne.
Hypothesis ncr_shape : shape3 nx ny nz ncr.
Hypothesis depth_length : length depth = nz.

Lemma stokes_emissivity_ok (wavelength gamma : R) :
  exists E,
    stokes_emissivity wavelength (arr3_map Fin Bx) (arr3_map Fin By) (arr3_map Fin ncr) gamma
    = Ok E /\
    shape3 nx ny nz E /\
    forall i j k, (i < nx)%nat -> (j < ny)%nat -> (k < nz)%nat ->
      xget3 E i j k =
      voxel_emissivity wavelength gamma (rget3 Bx i j k) (rget3 By i j k) (rget3 ncr i j k).
Proof.
  unfold stokes_emissivity, stokes_Bperp2.
  destruct (arr3_map2_ok xadd NaN NaN NaN
              (arr3_map (fun b => xpow b 2) (arr3_map Fin Bx))
              (arr3_map (fun b => xpow b 2) (arr3_map Fin By)) nx ny nz)
    as (B2 & HB2 & HB2s & HB2g).
  { apply arr3_map_shape, lift_shape, Bx_shape. }
  { apply arr3_map_shape, lift_shape, By_shape. }
  rewrite HB2. cbn [rbind].
  destruct (arr3_map2_ok xmul NaN NaN NaN (arr3_map Fin ncr)
              (arr3_map (fun b => xpow b ((gamma + 1) / 4)) B2) nx ny nz)
    as (e & He & Hes & Heg).
  { apply lift_shape, ncr_shape. }
  { apply arr3_map_shape, HB2s. }
  rewrite He. cbn [rbind].
  eexists. split; [reflexivity|]. split; [apply arr3_map_shape, Hes|].
  intros i j k Hi Hj Hk. unfold xget3.
  rewrite (arr3_map_get _ NaN NaN e nx ny nz) by assumption.
  rewrite Heg by assumption.
  rewrite (arr3_map_get _ NaN NaN B2 nx ny nz) by assumption.
  rewrite HB2g by assumption.
  rewrite (arr3_map_get _ NaN NaN (arr3_map Fin Bx) nx ny nz)
    by (try apply lift_shape; assumption).
  rewrite (arr3_map_get _ NaN NaN (arr3_map Fin By) nx ny nz)
    by (try apply lift_shape; assumption).
  fold (xget3 (arr3_map Fin Bx) i j k) (xget3 (arr3_map Fin By) i j k)
       (xget3 (arr3_map Fin ncr) i j k).
  rewrite !(lift_get _ nx ny nz) by assumption.
  reflexivity.
Qed.

Lemma stokes_psi0_ok :
  exists P,
    stokes_psi0 (arr3_map Fin Bx) (arr3_map Fin By) = Ok P /\
    shape3 nx ny nz P /\
    forall i j k, (i < nx)%nat -> (j < ny)%nat -> (k < nz)%nat ->
      xget3 P i j k = voxel_psi0 (rget3 Bx i j k) (rget3 By i j k).
Proof.
  unfold stokes_psi0.
  destruct (arr3_map2_ok xdiv NaN NaN NaN (arr3_map Fin By) (arr3_map Fin Bx) nx ny nz)
    as (ratio & Hr & Hrs & Hrg); try (apply lift_shape; assumption).
  rewrite Hr. cbn [rbind].
  destruct (arr3_map2_ok andb false false false
              (arr3_map (fun b => xeqb b (Fin 0)) (arr3_map Fin By))
              (arr3_map (fun b => xeqb b (Fin 0)) (arr3_map Fin Bx)) nx ny nz)
    as (ok & Hok & Hoks & Hokg); try (apply arr3_map_shape, lift_shape; assumption).
  rewrite Hok. cbn [rbind].
  destruct (arr3_map2_ok (fun p (m : bool) => if m then Fin 0 else p) NaN false NaN
              (arr3_map (fun t => xadd (xatan t) (Fin (PI / 2))) ratio) ok nx ny nz)
    as (P1 & HP1 & HP1s & HP1g); [apply arr3_map_shape, Hrs | exact Hoks |].
  rewrite HP1. cbn [rbind].
  eexists. split; [reflexivity|]. split; [apply arr3_map_shape, arr3_map_shape, HP1s|].
  intros i j k Hi Hj Hk. unfold xget3.
  rewrite (arr3_map_get _ NaN NaN _ nx ny nz)
    by (try apply arr3_map_shape; assumption).
  rewrite (arr3_map_get _ NaN NaN _ nx ny nz) by assumption.
  rewrite HP1g by assumption.
  rewrite (arr3_map_get _ NaN NaN ratio nx ny nz) by assumption.
  rewrite Hrg, Hokg by assumption.
  rewrite (arr3_map_get _ NaN false (arr3_map Fin By) nx ny nz)
    by (try apply lift_shape; assumption).
  rewrite (arr3_map_get _ NaN false (arr3_map Fin Bx) nx ny nz)
    by (try apply lift_shape; assumption).
  fold (xget3 (arr3_map Fin Bx) i j k) (xget3 (arr3_map Fin By) i j k).
  rewrite !(lift_get _ nx ny nz) by assumption.
  reflexivity.
Qed.

Lemma trapezoid_sum_finite (zs f : nat -> xreal) (m : nat) :
  (forall k, (k <= m)%nat -> exists r, zs k = Fin r) ->
  (forall k, (k <= m)%nat -> exists r, f k = Fin r) ->
  exists r, trapezoid_sum zs f m = Fin r.
Proof.
  unfold trapezoid_sum. induction m as [|m IH]; intros Hz Hf; simpl.
  - eauto.
  - destruct IH as [s Hs]; [intros; apply Hz; lia | intros; apply Hf; lia|].
    rewrite Hs. unfold trapezoid_term.
    destruct (Hz (S m) (Nat.le_refl _)) as [z1 ->].
    destruct (Hz m ltac:(lia)) as [z0 ->].
    destruct (Hf (S m) (Nat.le_refl _)) as [f1 ->].
    destruct (Hf m ltac:(lia)) as [f0 ->].
    simpl. destruct (Req_dec_T 2 0); [lra|]. simpl. eauto.
Qed.

Lemma faraday_prefix_finite (i j k : nat) :
  exists r, faraday_prefix depth Bz ne i j k = Fin r.
Proof.
  unfold faraday_prefix.
  destruct (trapezoid_sum_finite (samples depth)
              (fun m => xmul (Fin (rget3 Bz i j m)) (Fin (rget3 ne i j m))) k) as [r Hr].
  - intros. unfold samples. eauto.
  - intros. simpl. eauto.
  - rewrite Hr. simpl. eauto.
Qed.

(** The cumulative Faraday rotation, when it is computed. *)
Lemma stokes_RM_ok (wavelength : R) :
  (0 < nz)%nat -> wavelength <> 0 ->
  exists c,
    stokes_RM (map Fin depth) wavelength (arr3_map Fin Bz) (arr3_map Fin ne)
    = Ok (mkQuantity (RM_array c) rad_per_m2) /\
    shape3 nx ny nz c /\
    forall i j k, (i < nx)%nat -> (j < ny)%nat -> (k < nz)%nat ->
      xget3 c i j k = faraday_prefix depth Bz ne i j k.
Proof.
  intros Hnz Hw. unfold stokes_RM.
  replace (Reqb wavelength 0) with false.
  2:{ symmetry. unfold Reqb. destruct (Req_dec_T wavelength 0); [contradiction|reflexivity]. }
  cbn [negb].
  destruct (arr3_map2_ok xmul NaN NaN NaN (arr3_map Fin Bz) (arr3_map Fin ne) nx ny nz)
    as (g & Hg & Hgs & Hgg); try (apply lift_shape; assumption).
  rewrite Hg. cbn [rbind].
  destruct (cumtrapz_ok g (map Fin depth) nx ny nz Hnz Hgs) as (c & Hc & Hcs & Hcg).
  { rewrite length_map. exact depth_length. }
  rewrite Hc. cbn [rbind].
  eexists. split; [reflexivity|]. split; [apply arr3_map_shape, Hcs|].
  intros i j k Hi Hj Hk. unfold xget3 at 1.
  rewrite (arr3_map_get _ NaN NaN c nx ny nz) by assumption.
  fold (xget3 c i j k). rewrite Hcg by assumption.
  unfold faraday_prefix. f_equal.
  apply trapezoid_sum_ext.
  - intros m Hm. apply lift_depth_nth. lia.
  - intros m Hm. unfold xget3. rewrite Hgg by (try assumption; lia).
    fold (xget3 (arr3_map Fin Bz) i j m) (xget3 (arr3_map Fin ne) i j m).
    rewrite !(lift_get _ nx ny nz) by (try assumption; lia).
    reflexivity.
Qed.

(** Without a wavelength, the scalar zero stands for it. *)
Lemma stokes_RM_zero (Bz' ne' : array3 xreal) (depth' : array1 xreal) :
  stokes_RM depth' 0 Bz' ne' = Ok (mkQuantity (RM_scalar (Fin 0)) rad_per_m2).
Proof. unfold stokes_RM. rewrite Reqb_refl. reflexivity. Qed.

Lemma xpow_zero_2 : xpow (Fin 0) 2 = Fin 0.
Proof.
  unfold xpow. destruct (Req_dec_T 2 0); [lra|].
  destruct (Rlt_dec 0 0); [lra|].
  destruct (Req_dec_T 0 0); [|lra].
  destruct (Rlt_dec 0 2); [reflexivity|lra].
Qed.

(** The rotated angle of a voxel, in both branches of the wavelength
    test: psi0 + wavelength^2 * (the cumulative Faraday integral). *)
Lemma stokes_psi_ok (wavelength : R) (P : array3 xreal) :
  (0 < nz)%nat -> shape3 nx ny nz P ->
  exists RM Psi,
    stokes_RM (map Fin depth) wavelength (arr3_map Fin Bz) (arr3_map Fin ne) = Ok RM /\
    stokes_psi P wavelength RM = Ok Psi /\
    shape3 nx ny nz Psi /\
    forall i j k, (i < nx)%nat -> (j < ny)%nat -> (k < nz)%nat ->
      xget3 Psi i j k =
      xadd (xget3 P i j k)
           (xmul (xpow (Fin wavelength) 2) (faraday_prefix depth Bz ne i j k)).
Proof.
  intros Hnz HP. destruct (Req_dec_T wavelength 0) as [->|Hw].
  - rewrite stokes_RM_zero. eexists. eexists. split; [reflexivity|].
    unfold stokes_psi. cbn [value]. split; [reflexivity|].
    split; [apply arr3_map_shape, HP|].
    intros i j k Hi Hj Hk. unfold xget3 at 1.
    rewrite (arr3_map_get _ NaN NaN P nx ny nz) by assumption.
    fold (xget3 P i j k). f_equal.
    destruct (faraday_prefix_finite i j k) as [r ->].
    rewrite xpow_zero_2. simpl. f_equal. lra.
  - destruct (stokes_RM_ok wavelength Hnz Hw) as (c & Hc & Hcs & Hcg).
    rewrite Hc. unfold stokes_psi. cbn [value].
    destruct (arr3_map2_ok xadd NaN NaN NaN P
                (arr3_map (xmul (xpow (Fin wavelength) 2)) c) nx ny nz)
      as (Psi & HPsi & HPsis & HPsig); [exact HP | apply arr3_map_shape, Hcs |].
    exists (mkQuantity (RM_array c) rad_per_m2), Psi.
    split; [reflexivity|]. split; [exact HPsi|]. split; [exact HPsis|].
    intros i j k Hi Hj Hk. unfold xget3 at 1. rewrite HPsig by assumption.
    rewrite (arr3_map_get _ NaN NaN c nx ny nz) by assumption.
    fold (xget3 c i j k). rewrite Hcg by assumption. reflexivity.
Qed.

Lemma stokes_p0_ok (gamma : R) :
  gamma + 7 / 3 <> 0 -> stokes_p0 gamma = Ok ((gamma + 1) / (gamma + 7 / 3)).
Proof.
  intros H. unfold stokes_p0. destruct (Req_dec_T (gamma + 7 / 3) 0); [contradiction|].
  reflexivity.
Qed.

Lemma stokes_polarized_ok (f : xreal -> xreal) (p0 : R) (E Psi : array3 xreal) :
  (0 < nz)%nat -> shape3 nx ny nz E -> shape3 nx ny nz Psi ->
  exists T,
    stokes_polarized f (map Fin depth) p0 E Psi = Ok T /\
    shape2 nx ny T /\
    forall i j, (i < nx)%nat -> (j < ny)%nat ->
      xget2 T i j =
      xmul (Fin p0)
           (trapezoid_sum (samples depth)
              (fun k => xmul (xget3 E i j k) (f (xmul (Fin 2) (xget3 Psi i j k))))
              (nz - 1)).
Proof.
  intros Hnz HE HPsi. unfold stokes_polarized.
  destruct (arr3_map2_ok xmul NaN NaN NaN E
              (arr3_map (fun p => f (xmul (Fin 2) p)) Psi) nx ny nz)
    as (y & Hy & Hys & Hyg); [exact HE | apply arr3_map_shape, HPsi |].
  rewrite Hy. cbn [rbind].
  destruct (trapz_ok y (map Fin depth) nx ny nz Hys) as (t & Ht & Hts & Htg).
  { rewrite length_map. exact depth_length. }
  rewrite Ht. cbn [rbind].
  eexists. split; [reflexivity|]. split; [apply arr2_map_shape, Hts|].
  intros i j Hi Hj. unfold xget2 at 1.
  rewrite (arr2_map_get _ NaN NaN t nx ny) by assumption.
  fold (xget2 t i j). rewrite Htg by assumption. f_equal.
  apply trapezoid_sum_ext.
  - intros m Hm. apply lift_depth_nth. lia.
  - intros m Hm.
    unfold xget3 at 1. rewrite Hyg by (try assumption; lia).
    rewrite (arr3_map_get _ NaN NaN Psi nx ny nz) by (try assumption; lia).
    reflexivity.
Qed.

Lemma trapz_emissivity_ok (E : array3 xreal) :
  (0 < nz)%nat -> shape3 nx ny nz E ->
  exists T,
    trapz E (map Fin depth) = Ok T /\
    shape2 nx ny T /\
    forall i j, (i < nx)%nat -> (j < ny)%nat ->
      xget2 T i j = trapezoid_sum (samples depth) (fun k => xget3 E i j k) (nz - 1).
Proof.
  intros Hnz HE.
  destruct (trapz_ok E (map Fin depth) nx ny nz HE) as (t & Ht & Hts & Htg).
  { rewrite length_map. exact depth_length. }
  exists t. split; [exact Ht|]. split; [exact Hts|].
  intros i j Hi Hj. rewrite Htg by assumption.
  apply trapezoid_sum_ext; [|reflexivity].
  intros m Hm. apply lift_depth_nth. lia.
Qed.

End Blocks.

(** ** Running the observables *)

Lemma bind_lift_ok {A B : Type} (a : A) (k : A -> py B) : bind (lift (Ok a)) k = k a.
Proof. unfold bind, lift. destruct (k a). reflexivity. Qed.

Lemma bind_lift_raise {A B : Type} (e : exn) (k : A -> py B) :
  bind (lift (Raise e)) k = ([], Raise e).
Proof. reflexivity. Qed.

Lemma bind_ret {A B : Type} (a : A) (k : A -> py B) : bind (ret a) k = k a.
Proof. unfold bind, ret. destruct (k a). reflexivity. Qed.

Lemma bind_legacy_depth_grid {B : Type} (depth_grid : depth_arg) (k : array1 R -> py B) :
  bind (legacy_depth_grid depth_grid) k =
  (fst (legacy_depth_grid depth_grid) ++ fst (k (depth_array depth_grid)),
   snd (k (depth_array depth_grid))).
Proof.
  destruct depth_grid as [a|g]; simpl; destruct (k _); reflexivity.
Qed.

Section Runs.

Variable gaussian_filter : array2 xreal -> R -> array2 xreal.

(** The run of [compute_stokes_parameters] when none of its blocks raises. *)
Lemma compute_stokes_parameters_run
      (depth_grid : depth_arg) (wavelength : R) (Bx By Bz ne ncr : array3 R)
      (gamma : R) (beam_kernel_sd : option R)
      (E P Psi : array3 xreal) (RM : Quantity rm_value) (p0 : R) (I U Q : array2 xreal) :
  let depth := map Fin (depth_array depth_grid) in
  stokes_emissivity wavelength (arr3_map Fin Bx) (arr3_map Fin By) (arr3_map Fin ncr) gamma
  = Ok E ->
  trapz E depth = Ok I ->
  stokes_psi0 (arr3_map Fin Bx) (arr3_map Fin By) = Ok P ->
  stokes_RM depth wavelength (arr3_map Fin Bz) (arr3_map Fin ne) = Ok RM ->
  stokes_psi P wavelength RM = Ok Psi ->
  stokes_p0 gamma = Ok p0 ->
  stokes_polarized xsin depth p0 E Psi = Ok U ->
  stokes_polarized xcos depth p0 E Psi = Ok Q ->
  compute_stokes_parameters gaussian_filter depth_grid wavelength Bx By Bz ne ncr gamma
                            beam_kernel_sd
  = (fst (legacy_depth_grid depth_grid),
     Ok (BeamConvolver gaussian_filter (mkQuantity I (stokes_unit gamma)) beam_kernel_sd,
         BeamConvolver gaussian_filter (mkQuantity U (stokes_unit gamma)) beam_kernel_sd,
         BeamConvolver gaussian_filter (mkQuantity Q (stokes_unit gamma)) beam_kernel_sd)).
Proof.
  intros depth HE HI HP HRM HPsi Hp0 HU HQ.
  unfold compute_stokes_parameters. cbv zeta.
  rewrite bind_legacy_depth_grid. fold depth.
  rewrite HE, bind_lift_ok, HI, bind_lift_ok, HP, bind_lift_ok, HRM, bind_lift_ok,
    HPsi, bind_lift_ok, Hp0, bind_lift_ok, HU, bind_lift_ok, HQ, bind_lift_ok.
  destruct beam_kernel_sd; simpl; rewrite app_nil_r; reflexivity.
Qed.

(** The run of [compute_fd] when none of its steps raises. *)
Lemma compute_fd_run
      (depth_grid : depth_arg) (Bz ne : array3 R) (beam_kernel_sd : option R)
      (integrand : array3 xreal) (t : array2 xreal) :
  arr3_map2 xmul (arr3_map Fin Bz) (arr3_map Fin ne) = Ok integrand ->
  trapz integrand (map Fin (depth_array depth_grid)) = Ok t ->
  compute_fd gaussian_filter depth_grid Bz ne beam_kernel_sd
  = (fst (legacy_depth_grid depth_grid),
     Ok (BeamConvolver gaussian_filter
           (mkQuantity (arr2_map (xmul (Fin (812 / 1000))) t) rad_per_m2)
           beam_kernel_sd)).
Proof.
  intros Hg Ht. unfold compute_fd. cbv zeta.
  rewrite bind_legacy_depth_grid.
  rewrite Hg, bind_lift_ok, Ht, bind_lift_ok.
  destruct beam_kernel_sd; simpl; rewrite app_nil_r; reflexivity.
Qed.

End Runs.

(** ** The Stokes integrals *)

(** C2.  On fields of one shape (nx, ny, nz) and a depth axis of nz >= 1
    samples, [compute_stokes_parameters] returns, through the beam stage,
    the maps I, U, Q with, in every column (i, j): I the trapezoidal
    integral of the emissivity along the depth axis, and Q and U equal to
    p0 times the trapezoidal integrals of emissivity * cos(2 psi) and
    emissivity * sin(2 psi), where psi = psi0 + wavelength^2 *
    RM_cumulative and p0 = (gamma+1)/(gamma+7/3); the three integrals are
    the same trapezoidal rule on the actual spacing of the depth samples. *)
Theorem compute_stokes_parameters_integrals
        (gaussian_filter : array2 xreal -> R -> array2 xreal)
        (depth_grid : depth_arg) (wavelength : R) (Bx By Bz ne ncr : array3 R)
        (gamma : R) (beam_kernel_sd : option R) (nx ny nz : nat) :
  has_shape3 nx ny nz Bx = true ->
  has_shape3 nx ny nz By = true ->
  has_shape3 nx ny nz Bz = true ->
  has_shape3 nx ny nz ne = true ->
  has_shape3 nx ny nz ncr = true ->
  length (depth_array depth_grid) = nz ->
  (0 < nz)%nat ->
  gamma + 7 / 3 <> 0 ->
  exists (emissivity psi0 : array3 xreal) (I U Q : array2 xreal),
    stokes_emissivity wavelength (arr3_map Fin Bx) (arr3_map Fin By) (arr3_map Fin ncr) gamma
    = Ok emissivity /\
    stokes_psi0 (arr3_map Fin Bx) (arr3_map Fin By) = Ok psi0 /\
    snd (compute_stokes_parameters gaussian_filter depth_grid wavelength
                                   Bx By Bz ne ncr gamma beam_kernel_sd)
    = Ok (BeamConvolver gaussian_filter (mkQuantity I (stokes_unit gamma)) beam_kernel_sd,
          BeamConvolver gaussian_filter (mkQuantity U (stokes_unit gamma)) beam_kernel_sd,
          BeamConvolver gaussian_filter (mkQuantity Q (stokes_unit gamma)) beam_kernel_sd) /\
    forall i j, (i < nx)%nat -> (j < ny)%nat ->
      let depth := samples (depth_array depth_grid) in
      let psi k :=
        xadd (xget3 psi0 i j k)
             (xmul (xpow (Fin wavelength) 2)
                   (faraday_prefix (depth_array depth_grid) Bz ne i j k)) in
      let p0 := (gamma + 1) / (gamma + 7 / 3) in
      xget2 I i j = trapezoid_sum depth (fun k => xget3 emissivity i j k) (nz - 1) /\
      xget2 Q i j =
        xmul (Fin p0)
             (trapezoid_sum depth
                (fun k => xmul (xget3 emissivity i j k) (xcos (xmul (Fin 2) (psi k))))
                (nz - 1)) /\
      xget2 U i j =
        xmul (Fin p0)
             (trapezoid_sum depth
                (fun k => xmul (xget3 emissivity i j k) (xsin (xmul (Fin 2) (psi k))))
                (nz - 1)).
Proof.
  intros HBx HBy HBz Hne Hncr Hdepth Hnz Hgamma.
  apply has_shape3_shape3 in HBx, HBy, HBz, Hne, Hncr.
  destruct (stokes_emissivity_ok nx ny nz Bx By ncr HBx HBy Hncr wavelength gamma)
    as (E & HE & HEs & _).
  destruct (stokes_psi0_ok nx ny nz Bx By HBx HBy) as (P & HP & HPs & _).
  destruct (stokes_psi_ok nx ny nz Bz ne (depth_array depth_grid) HBz Hne Hdepth
              wavelength P Hnz HPs) as (RM & Psi & HRM & HPsi & HPsis & HPsig).
  destruct (trapz_emissivity_ok nx ny nz (depth_array depth_grid) Hdepth E Hnz HEs)
    as (I & HI & _ & HIg).
  pose proof (stokes_p0_ok gamma Hgamma) as Hp0.
  destruct (stokes_polarized_ok nx ny nz (depth_array depth_grid) Hdepth xsin
              ((gamma + 1) / (gamma + 7 / 3)) E Psi Hnz HEs HPsis) as (U & HU & _ & HUg).
  destruct (stokes_polarized_ok nx ny nz (depth_array depth_grid) Hdepth xcos
              ((gamma + 1) / (gamma + 7 / 3)) E Psi Hnz HEs HPsis) as (Q & HQ & _ & HQg).
  exists E, P, I, U, Q.
  split; [exact HE|]. split; [exact HP|]. split.
  - rewrite (compute_stokes_parameters_run gaussian_filter depth_grid wavelength
               Bx By Bz ne ncr gamma beam_kernel_sd E P Psi RM _ I U Q
               HE HI HP HRM HPsi Hp0 HU HQ).
    reflexivity.
  - intros i j Hi Hj. cbv zeta. split; [apply HIg; assumption|]. split.
    + rewrite HQg by assumption. f_equal.
      apply trapezoid_sum_ext; [reflexivity|].
      intros k Hk. rewrite HPsig by (try assumption; lia). reflexivity.
    + rewrite HUg by assumption. f_equal.
      apply trapezoid_sum_ext; [reflexivity|].
      intros k Hk. rewrite HPsig by (try assumption; lia). reflexivity.
Qed.

(** A column of two samples one parsec apart in a uniform field along x. *)
Lemma compute_stokes_parameters_integrals_witness :
  exists (emissivity psi0 : array3 xreal) (I U Q : array2 xreal),
    stokes_emissivity 1 (arr3_map Fin [[[1; 1]]]) (arr3_map Fin [[[0; 0]]])
                      (arr3_map Fin [[[1; 1]]]) 3
    = Ok emissivity /\
    stokes_psi0 (arr3_map Fin [[[1; 1]]]) (arr3_map Fin [[[0; 0]]]) = Ok psi0 /\
    snd (compute_stokes_parameters (fun m _ => m) (DepthArray [0; 1]) 1
           [[[1; 1]]] [[[0; 0]]] [[[0; 0]]] [[[0; 0]]] [[[1; 1]]] 3 None)
    = Ok (mkQuantity I (stokes_unit 3), mkQuantity U (stokes_unit 3),
          mkQuantity Q (stokes_unit 3)) /\
    forall i j, (i < 1)%nat -> (j < 1)%nat ->
      let depth := samples [0; 1] in
      let psi k :=
        xadd (xget3 psi0 i j k)
             (xmul (xpow (Fin 1) 2) (faraday_prefix [0; 1] [[[0; 0]]] [[[0; 0]]] i j k)) in
      let p0 := (3 + 1) / (3 + 7 / 3) in
      xget2 I i j = trapezoid_sum depth (fun k => xget3 emissivity i j k) (2 - 1) /\
      xget2 Q i j =
        xmul (Fin p0)
             (trapezoid_sum depth
                (fun k => xmul (xget3 emissivity i j k) (xcos (xmul (Fin 2) (psi k))))
                (2 - 1)) /\
      xget2 U i j =
        xmul (Fin p0)
             (trapezoid_sum depth
                (fun k => xmul (xget3 emissivity i j k) (xsin (xmul (Fin 2) (psi k))))
                (2 - 1)).
Proof.
  apply (compute_stokes_parameters_integrals (fun m _ => m) (DepthArray [0; 1]) 1
           [[[1; 1]]] [[[0; 0]]] [[[0; 0]]] [[[0; 0]]] [[[1; 1]]] 3 None 1 1 2);
    try reflexivity; [lia | lra].
Defined.

(** ** One voxel: the emissivity and the intrinsic angle *)

Ltac decide_reals :=
  repeat match goal with
         | |- context [Rlt_dec ?a ?b] => destruct (Rlt_dec a b); try lra
         | |- context [Rle_dec ?a ?b] => destruct (Rle_dec a b); try lra
         | |- context [Req_dec_T ?a ?b] => destruct (Req_dec_T a b); try lra
         end.

Lemma xpow_zero (y : R) : 0 < y -> xpow (Fin 0) y = Fin 0.
Proof. intros Hy. unfold xpow. decide_reals. reflexivity. Qed.

Lemma xpow_zero_neg (y : R) : y < 0 -> xpow (Fin 0) y = PInf.
Proof. intros Hy. unfold xpow. decide_reals. reflexivity. Qed.

Lemma xpow_pos_finite (a y : R) : 0 < a -> exists w, xpow (Fin a) y = Fin w /\ 0 < w.
Proof.
  intros Ha. unfold xpow. destruct (Req_dec_T y 0).
  - exists 1. split; [reflexivity | lra].
  - destruct (Rlt_dec 0 a); [|lra]. eexists. split; [reflexivity|].
    unfold Rpower. apply exp_pos.
Qed.

Lemma voxel_emissivity_degenerate (wavelength gamma ncr : R) :
  -1 < gamma -> 0 < wavelength \/ (wavelength = 0 /\ 1 <= gamma) ->
  voxel_emissivity wavelength gamma 0 0 ncr = Fin 0.
Proof.
  intros Hg Hw. unfold voxel_emissivity.
  rewrite xpow_zero_2. cbn [xadd]. replace (0 + 0) with 0 by lra.
  rewrite xpow_zero by lra. cbn [xmul].
  destruct Hw as [Hw|[-> Hw]].
  - destruct (xpow_pos_finite wavelength ((gamma - 1) / 2) Hw) as (w & -> & _).
    cbn [xmul]. f_equal. ring.
  - destruct (Req_dec_T gamma 1) as [->|Hne].
    + unfold xpow. decide_reals. cbn [xmul]. f_equal. ring.
    + rewrite xpow_zero by lra. cbn [xmul]. f_equal. ring.
Qed.

Lemma voxel_emissivity_negative_exponent : voxel_emissivity 1 (-5) 0 0 1 = PInf.
Proof.
  unfold voxel_emissivity.
  rewrite xpow_zero_2. cbn [xadd]. replace (0 + 0) with 0 by lra.
  rewrite xpow_zero_neg by lra.
  destruct (xpow_pos_finite 1 ((-5 - 1) / 2) Rlt_0_1) as (w & -> & Hw).
  cbn [xmul]. unfold xinf_of_sign. decide_reals.
  cbn [xmul]. unfold xinf_of_sign. decide_reals. reflexivity.
Qed.

Lemma voxel_psi0_degenerate : voxel_psi0 0 0 = Fin 0.
Proof.
  pose proof PI_RGT_0.
  unfold voxel_psi0. cbn [xeqb]. rewrite Reqb_refl. cbn [andb].
  cbv zeta. unfold xgtb, xltb, Rltb. decide_reals. reflexivity.
Qed.

Lemma voxel_psi0_range (bx by' : R) : in_wrap_interval (voxel_psi0 bx by').
Proof.
  pose proof PI_RGT_0 as Hpi. unfold in_wrap_interval.
  destruct (Req_dec_T bx 0) as [->|Hbx].
  - destruct (Req_dec_T by' 0) as [->|Hby].
    + rewrite voxel_psi0_degenerate. exists 0. split; [reflexivity | lra].
    + unfold voxel_psi0. cbn [xeqb xdiv].
      replace (Reqb by' 0) with false
        by (symmetry; unfold Reqb; destruct (Req_dec_T by' 0); [contradiction|reflexivity]).
      cbn [andb]. destruct (Req_dec_T 0 0); [|lra].
      unfold xinf_of_sign.
      destruct (Rlt_dec 0 by'); [|destruct (Rlt_dec by' 0); [|lra]];
        cbn [xatan xadd]; cbv zeta; unfold xgtb, xltb, Rltb; decide_reals;
        eexists; (split; [reflexivity | lra]).
  - unfold voxel_psi0. cbn [xeqb xdiv].
    replace (Reqb bx 0) with false
      by (symmetry; unfold Reqb; destruct (Req_dec_T bx 0); [contradiction|reflexivity]).
    rewrite andb_false_r. destruct (Req_dec_T bx 0); [contradiction|].
    cbn [xatan xadd]. cbv zeta.
    pose proof (atan_bound (by' / bx)) as Hb.
    unfold xgtb, xltb, Rltb. decide_reals.
    eexists; (split; [reflexivity | lra]).
Qed.

(** C5, as stated, fails for a negative exponent: with gamma = -5 the
    exponent (gamma+1)/4 is -1, the zero perpendicular field raised to it
    is +inf (numpy does not raise), and so is the emissivity of the voxel. *)
Lemma emissivity_infinite_at_negative_exponent :
  stokes_emissivity 1 (arr3_map Fin [[[0]]]) (arr3_map Fin [[[0]]])
                    (arr3_map Fin [[[1]]]) (-5)
  = Ok [[[PInf]]] /\
  PInf <> Fin 0.
Proof.
  split; [|discriminate].
  unfold stokes_emissivity, stokes_Bperp2. cbn -[xpow xmul xadd].
  pose proof voxel_emissivity_negative_exponent as H.
  unfold voxel_emissivity in H. rewrite H. reflexivity.
Qed.

(** C5, amended.  The emissivity is computed without raising, whatever the
    exponents; at every voxel where Bx = 0 and By = 0 exactly it is 0 (not
    NaN) when the exponent (gamma+1)/4 is positive and the wavelength
    factor is finite (a positive wavelength, or a zero wavelength with
    gamma >= 1). *)
Theorem emissivity_degenerate_voxels
        (wavelength gamma : R) (Bx By ncr : array3 R) (nx ny nz : nat) :
  has_shape3 nx ny nz Bx = true ->
  has_shape3 nx ny nz By = true ->
  has_shape3 nx ny nz ncr = true ->
  exists emissivity : array3 xreal,
    stokes_emissivity wavelength (arr3_map Fin Bx) (arr3_map Fin By) (arr3_map Fin ncr) gamma
    = Ok emissivity /\
    forall i j k, (i < nx)%nat -> (j < ny)%nat -> (k < nz)%nat ->
      rget3 Bx i j k = 0 -> rget3 By i j k = 0 ->
      -1 < gamma -> 0 < wavelength \/ (wavelength = 0 /\ 1 <= gamma) ->
      xget3 emissivity i j k = Fin 0.
Proof.
  intros HBx HBy Hncr.
  apply has_shape3_shape3 in HBx, HBy, Hncr.
  destruct (stokes_emissivity_ok nx ny nz Bx By ncr HBx HBy Hncr wavelength gamma)
    as (E & HE & _ & HEg).
  exists E. split; [exact HE|].
  intros i j k Hi Hj Hk Hx Hy Hg Hw.
  rewrite HEg by assumption. rewrite Hx, Hy.
  apply voxel_emissivity_degenerate; assumption.
Qed.

Lemma emissivity_degenerate_voxels_witness :
  exists emissivity : array3 xreal,
    stokes_emissivity 1 (arr3_map Fin [[[0; 1]]]) (arr3_map Fin [[[0; 0]]])
                      (arr3_map Fin [[[1; 1]]]) 3
    = Ok emissivity /\
    forall i j k, (i < 1)%nat -> (j < 1)%nat -> (k < 2)%nat ->
      rget3 [[[0; 1]]] i j k = 0 -> rget3 [[[0; 0]]] i j k = 0 ->
      -1 < 3 -> 0 < 1 \/ (1 = 0 /\ 1 <= 3) ->
      xget3 emissivity i j k = Fin 0.
Proof.
  apply (emissivity_degenerate_voxels 1 3 [[[0; 1]]] [[[0; 0]]] [[[1; 1]]] 1 1 2);
    reflexivity.
Defined.

(** C7.  At every voxel where Bx = 0 and By = 0 exactly the intrinsic
    angle psi0 is exactly 0, and for all fields every element of psi0 is a
    finite angle of (-pi, pi] (no NaN or infinity is left in it). *)
Theorem psi0_degenerate_and_range (Bx By : array3 R) (nx ny nz : nat) :
  has_shape3 nx ny nz Bx = true ->
  has_shape3 nx ny nz By = true ->
  exists psi0 : array3 xreal,
    stokes_psi0 (arr3_map Fin Bx) (arr3_map Fin By) = Ok psi0 /\
    forall i j k, (i < nx)%nat -> (j < ny)%nat -> (k < nz)%nat ->
      in_wrap_interval (xget3 psi0 i j k) /\
      (rget3 Bx i j k = 0 -> rget3 By i j k = 0 -> xget3 psi0 i j k = Fin 0).
Proof.
  intros HBx HBy.
  apply has_shape3_shape3 in HBx, HBy.
  destruct (stokes_psi0_ok nx ny nz Bx By HBx HBy) as (P & HP & _ & HPg).
  exists P. split; [exact HP|].
  intros i j k Hi Hj Hk. rewrite HPg by assumption. split.
  - apply voxel_psi0_range.
  - intros -> ->. apply voxel_psi0_degenerate.
Qed.

Lemma psi0_degenerate_and_range_witness :
  exists psi0 : array3 xreal,
    stokes_psi0 (arr3_map Fin [[[0; 0; 1]]]) (arr3_map Fin [[[0; 1; 1]]]) = Ok psi0 /\
    forall i j k, (i < 1)%nat -> (j < 1)%nat -> (k < 3)%nat ->
      in_wrap_interval (xget3 psi0 i j k) /\
      (rget3 [[[0; 0; 1]]] i j k = 0 -> rget3 [[[0; 1; 1]]] i j k = 0 ->
       xget3 psi0 i j k = Fin 0).
Proof.
  apply (psi0_degenerate_and_range [[[0; 0; 1]]] [[[0; 1; 1]]] 1 1 3); reflexivity.
Defined.

(** ** The wavelength sentinel, the legacy depth argument, the beam *)

(** One block of a run: it raises, or the run goes on. *)
Ltac step_block :=
  match goal with
  | |- context [bind (lift ?r) _] =>
      let E := fresh "E" in
      destruct r eqn:E; [rewrite !bind_lift_ok | rewrite !bind_lift_raise]
  end.

Lemma arr3_map_id {A : Type} (f : A -> A) (a : array3 A) :
  (forall x, f x = x) -> arr3_map f a = a.
Proof.
  intros H. unfold arr3_map.
  rewrite <- (map_id a) at 2. apply map_ext. intros row.
  rewrite <- (map_id row) at 2. apply map_ext. intros col.
  rewrite <- (map_id col) at 2. apply map_ext. exact H.
Qed.

Lemma stokes_psi_zero (psi0 : array3 xreal) :
  stokes_psi psi0 0 (mkQuantity (RM_scalar (Fin 0)) rad_per_m2) = Ok psi0.
Proof.
  unfold stokes_psi. cbn [value]. f_equal. apply arr3_map_id.
  intros p. rewrite xpow_zero_2. cbn [xmul].
  replace (0 * 0) with 0 by lra. apply xadd_0_r.
Qed.

(** C6.  With a wavelength of exactly 0 the cumulative Faraday rotation is
    not computed: whatever the fields and the depth axis, RM is the scalar
    zero in rad m^-2, the rotated angle psi is psi0 itself, and the result
    of [compute_stokes_parameters] does not depend on Bz and ne. *)
Theorem zero_wavelength_no_rotation
        (gaussian_filter : array2 xreal -> R -> array2 xreal) :
  (forall depth_grid Bz ne,
      stokes_RM depth_grid 0 Bz ne = Ok (mkQuantity (RM_scalar (Fin 0)) rad_per_m2)) /\
  (forall psi0 depth_grid Bz ne,
      rbind (stokes_RM depth_grid 0 Bz ne) (stokes_psi psi0 0) = Ok psi0) /\
  (forall depth_grid Bx By Bz ne Bz' ne' ncr gamma beam_kernel_sd,
      compute_stokes_parameters gaussian_filter depth_grid 0 Bx By Bz ne ncr gamma
                                beam_kernel_sd
      = compute_stokes_parameters gaussian_filter depth_grid 0 Bx By Bz' ne' ncr gamma
                                  beam_kernel_sd).
Proof.
  split; [intros; apply stokes_RM_zero|]. split.
  - intros. rewrite stokes_RM_zero. cbn [rbind]. apply stokes_psi_zero.
  - intros. unfold compute_stokes_parameters. cbv zeta.
    rewrite !bind_legacy_depth_grid.
    do 3 (step_block; [|reflexivity]).
    rewrite !stokes_RM_zero. reflexivity.
Qed.

(** C9.  Called with a full grid, [compute_stokes_parameters] and
    [compute_fd] issue the deprecation warning, and nothing else, and go
    on with the depth array of the grid: the outcome is that of the call
    with the bare depth array, which issues no warning. *)
Theorem legacy_grid_deprecation
        (gaussian_filter : array2 xreal -> R -> array2 xreal) (g : Grid) :
  (forall wavelength Bx By Bz ne ncr gamma beam_kernel_sd,
      let bare := compute_stokes_parameters gaussian_filter (DepthArray (z g)) wavelength
                                            Bx By Bz ne ncr gamma beam_kernel_sd in
      fst bare = [] /\
      compute_stokes_parameters gaussian_filter (FullGrid g) wavelength
                                Bx By Bz ne ncr gamma beam_kernel_sd
      = ([DeprecationWarning syntax_changed], snd bare)) /\
  (forall Bz ne beam_kernel_sd,
      let bare := compute_fd gaussian_filter (DepthArray (z g)) Bz ne beam_kernel_sd in
      fst bare = [] /\
      compute_fd gaussian_filter (FullGrid g) Bz ne beam_kernel_sd
      = ([DeprecationWarning syntax_changed], snd bare)).
Proof.
  split.
  - intros. subst bare. unfold compute_stokes_parameters. cbv zeta.
    rewrite !bind_legacy_depth_grid. cbn [legacy_depth_grid depth_array fst snd app ret].
    repeat (step_block; [|split; reflexivity]).
    destruct beam_kernel_sd; split; reflexivity.
  - intros. subst bare. unfold compute_fd. cbv zeta.
    rewrite !bind_legacy_depth_grid. cbn [legacy_depth_grid depth_array fst snd app ret].
    repeat (step_block; [|split; reflexivity]).
    destruct beam_kernel_sd; split; reflexivity.
Qed.

(** C10.  Without a standard deviation [compute_stokes_parameters] and
    [compute_fd] return their maps unsmoothed: the filter plays no part in
    the run.  With a standard deviation they return each map of that run
    with the Gaussian filter applied to its values and its own unit
    attached again. *)
Theorem beam_convolution_frame
        (gaussian_filter : array2 xreal -> R -> array2 xreal) :
  (* no standard deviation: the maps do not depend on the filter *)
  (forall gaussian_filter' depth_grid wavelength Bx By Bz ne ncr gamma,
      compute_stokes_parameters gaussian_filter depth_grid wavelength
                                Bx By Bz ne ncr gamma None
      = compute_stokes_parameters gaussian_filter' depth_grid wavelength
                                  Bx By Bz ne ncr gamma None) /\
  (forall gaussian_filter' depth_grid Bz ne,
      compute_fd gaussian_filter depth_grid Bz ne None
      = compute_fd gaussian_filter' depth_grid Bz ne None) /\
  (* a standard deviation: each map of the run without one, smoothed *)
  (forall depth_grid wavelength Bx By Bz ne ncr gamma sd,
      compute_stokes_parameters gaussian_filter depth_grid wavelength
                                Bx By Bz ne ncr gamma (Some sd)
      = match compute_stokes_parameters gaussian_filter depth_grid wavelength
                                        Bx By Bz ne ncr gamma None with
        | (w, Ok (stokes_I, stokes_U, stokes_Q)) =>
            (w, Ok (convolve gaussian_filter stokes_I sd,
                    convolve gaussian_filter stokes_U sd,
                    convolve gaussian_filter stokes_Q sd))
        | (w, Raise e) => (w, Raise e)
        end) /\
  (forall depth_grid Bz ne sd,
      compute_fd gaussian_filter depth_grid Bz ne (Some sd)
      = match compute_fd gaussian_filter depth_grid Bz ne None with
        | (w, Ok RM) => (w, Ok (convolve gaussian_filter RM sd))
        | (w, Raise e) => (w, Raise e)
        end) /\
  (* the smoothing acts on the values and keeps the unit *)
  (forall (X : map_quantity) sd,
      value (convolve gaussian_filter X sd) = gaussian_filter (value X) sd /\
      unit (convolve gaussian_filter X sd) = unit X).
Proof.
  split; [|split; [|split; [|split]]].
  - intros. unfold compute_stokes_parameters. cbv zeta.
    rewrite !bind_legacy_depth_grid.
    repeat (step_block; [|reflexivity]). reflexivity.
  - intros. unfold compute_fd. cbv zeta.
    rewrite !bind_legacy_depth_grid.
    repeat (step_block; [|reflexivity]). reflexivity.
  - intros. unfold compute_stokes_parameters. cbv zeta.
    rewrite !bind_legacy_depth_grid.
    repeat (step_block; [|reflexivity]). reflexivity.
  - intros. unfold compute_fd. cbv zeta.
    rewrite !bind_legacy_depth_grid.
    repeat (step_block; [|reflexivity]). reflexivity.
  - intros. split; reflexivity.
Qed.

(** ** The cumulative and the total Faraday integrals *)

(** The total Faraday depth of [compute_fd] on arrays of one shape. *)
Lemma faraday_total_ok (nx ny nz : nat) (Bz ne : array3 R) (depth : array1 R) :
  shape3 nx ny nz Bz -> shape3 nx ny nz ne -> length depth = nz -> (0 < nz)%nat ->
  exists integrand t,
    arr3_map2 xmul (arr3_map Fin Bz) (arr3_map Fin ne) = Ok integrand /\
    trapz integrand (map Fin depth) = Ok t /\
    forall i j, (i < nx)%nat -> (j < ny)%nat ->
      xget2 (arr2_map (xmul (Fin (812 / 1000))) t) i j
      = faraday_prefix depth Bz ne i j (nz - 1).
Proof.
  intros HBz Hne Hdepth Hnz.
  destruct (arr3_map2_ok xmul NaN NaN NaN (arr3_map Fin Bz) (arr3_map Fin ne) nx ny nz)
    as (g & Hg & Hgs & Hgg); try (apply lift_shape; assumption).
  destruct (trapz_ok g (map Fin depth) nx ny nz Hgs) as (t & Ht & Hts & Htg).
  { rewrite length_map. exact Hdepth. }
  exists g, t. split; [exact Hg|]. split; [exact Ht|].
  intros i j Hi Hj. unfold xget2 at 1.
  rewrite (arr2_map_get _ NaN NaN t nx ny) by assumption.
  fold (xget2 t i j). rewrite Htg by assumption.
  unfold faraday_prefix. f_equal.
  apply trapezoid_sum_ext.
  - intros m Hm. apply lift_depth_nth. lia.
  - intros m Hm. unfold xget3. rewrite Hgg by (try assumption; lia).
    fold (xget3 (arr3_map Fin Bz) i j m) (xget3 (arr3_map Fin ne) i j m).
    rewrite !(lift_get _ nx ny nz) by (try assumption; lia).
    reflexivity.
Qed.

(** C3.  For the same Bz, ne and depth axis, in every column the last
    depth sample of the cumulative Faraday integral computed inside
    [compute_stokes_parameters] equals the total integral computed by
    [compute_fd], and its first depth sample is exactly 0. *)
Theorem cumulative_faraday_matches_total
        (gaussian_filter : array2 xreal -> R -> array2 xreal)
        (depth_grid : depth_arg) (wavelength : R) (Bz ne : array3 R) (nx ny nz : nat) :
  has_shape3 nx ny nz Bz = true ->
  has_shape3 nx ny nz ne = true ->
  length (depth_array depth_grid) = nz ->
  (0 < nz)%nat ->
  wavelength <> 0 ->
  exists (RM_cumulative : array3 xreal) (RM_total : array2 xreal),
    stokes_RM (map Fin (depth_array depth_grid)) wavelength
              (arr3_map Fin Bz) (arr3_map Fin ne)
    = Ok (mkQuantity (RM_array RM_cumulative) rad_per_m2) /\
    shape3 nx ny nz RM_cumulative /\
    snd (compute_fd gaussian_filter depth_grid Bz ne None)
    = Ok (mkQuantity RM_total rad_per_m2) /\
    forall i j, (i < nx)%nat -> (j < ny)%nat ->
      xget3 RM_cumulative i j (nz - 1) = xget2 RM_total i j /\
      xget3 RM_cumulative i j 0 = Fin 0.
Proof.
  intros HBz Hne Hdepth Hnz Hw.
  apply has_shape3_shape3 in HBz, Hne.
  destruct (stokes_RM_ok nx ny nz Bz ne (depth_array depth_grid) HBz Hne Hdepth
              wavelength Hnz Hw) as (c & Hc & Hcs & Hcg).
  destruct (faraday_total_ok nx ny nz Bz ne (depth_array depth_grid) HBz Hne Hdepth Hnz)
    as (g & t & Hg & Ht & Htg).
  exists c, (arr2_map (xmul (Fin (812 / 1000))) t).
  split; [exact Hc|]. split; [exact Hcs|]. split.
  - rewrite (compute_fd_run gaussian_filter depth_grid Bz ne None g t Hg Ht). reflexivity.
  - intros i j Hi Hj. split.
    + rewrite Hcg, Htg by (try assumption; lia). reflexivity.
    + rewrite Hcg by assumption. unfold faraday_prefix, trapezoid_sum.
      cbn [xsum_upto xmul]. f_equal. lra.
Qed.

(** A column of three samples unevenly spaced. *)
Lemma cumulative_faraday_matches_total_witness :
  exists (RM_cumulative : array3 xreal) (RM_total : array2 xreal),
    stokes_RM (map Fin [0; 1; 3]) 1 (arr3_map Fin [[[1; 2; 3]]]) (arr3_map Fin [[[1; 1; 2]]])
    = Ok (mkQuantity (RM_array RM_cumulative) rad_per_m2) /\
    shape3 1 1 3 RM_cumulative /\
    snd (compute_fd (fun m _ => m) (DepthArray [0; 1; 3]) [[[1; 2; 3]]] [[[1; 1; 2]]] None)
    = Ok (mkQuantity RM_total rad_per_m2) /\
    forall i j, (i < 1)%nat -> (j < 1)%nat ->
      xget3 RM_cumulative i j (3 - 1) = xget2 RM_total i j /\
      xget3 RM_cumulative i j 0 = Fin 0.
Proof.
  apply (cumulative_faraday_matches_total (fun m _ => m) (DepthArray [0; 1; 3]) 1
           [[[1; 2; 3]]] [[[1; 1; 2]]] 1 1 3);
    try reflexivity; [lia | lra].
Defined.

(** ** More on the angle kernels *)

Lemma returns_sound_adjust_diff (d r : R) :
  returns (fun fuel => _adjust_diff fuel d) r ->
  (- (PI / 2) <= r <= PI / 2) /\
  (exists k : Z, r = d + PI * IZR k) /\
  (- (PI / 2) < d -> - (PI / 2) < r) /\
  (d <= - (PI / 2) -> r < PI / 2) /\
  (- (PI / 2) <= d <= PI / 2 -> r = d).
Proof.
  intros [f Hf]. exact (adjust_diff_sound f d r (Hf f (Nat.le_refl f))).
Qed.

(** A nonzero integer is at least 1 in absolute value. *)
Lemma IZR_nonzero_abs (m : Z) : m <> 0%Z -> 1 <= Rabs (IZR m).
Proof.
  intros Hm. unfold Rabs. destruct (Rcase_abs (IZR m)) as [H|H].
  - assert (m <= -1)%Z by (apply lt_IZR in H; lia).
    apply IZR_le in H0. lra.
  - assert (1 <= m)%Z.
    { apply Rge_le in H. apply le_IZR in H. lia. }
    apply IZR_le in H0. lra.
Qed.

(** Among the angles d + k pi, one of [-pi/2, pi/2] has the smallest
    magnitude. *)
Lemma half_period_minimal (r : R) (m : Z) :
  - (PI / 2) <= r <= PI / 2 -> Rabs r <= Rabs (r + PI * IZR m).
Proof.
  pose proof PI_RGT_0 as Hpi. intros Hr.
  destruct (Z.eq_dec m 0) as [->|Hm].
  - replace (r + PI * 0) with r by lra. lra.
  - pose proof (IZR_nonzero_abs m Hm) as H1.
    assert (Hr' : Rabs r <= PI / 2) by (unfold Rabs; destruct (Rcase_abs r); lra).
    assert (H2 : PI <= Rabs (PI * IZR m)).
    { rewrite Rabs_mult, (Rabs_pos_eq PI) by lra. nra. }
    pose proof (Rabs_triang_inv (PI * IZR m) (- r)) as H3.
    rewrite Rabs_Ropp in H3.
    replace (PI * IZR m - - r) with (r + PI * IZR m) in H3 by lra.
    lra.
Qed.



(** The representative of d + n pi in [-pi/2, pi/2] is that of d, unless it
    is an end of the interval. *)
Lemma half_period_unique (r r' : R) (m : Z) :
  - (PI / 2) <= r <= PI / 2 -> - (PI / 2) <= r' <= PI / 2 ->
  r' = r + PI * IZR m -> Rabs r < PI / 2 -> r' = r.
Proof.
  pose proof PI_RGT_0 as Hpi. intros Hr Hr' E Hs.
  assert (Hm : m = 0%Z).
  { apply one_IZR_lt1.
    assert (- (PI / 2) < r < PI / 2) by (unfold Rabs in Hs; destruct (Rcase_abs r); lra).
    split; apply Rmult_lt_reg_l with PI; lra. }
  subst m. lra.
Qed.

Lemma adjust_diff_opp (d r : R) :
  returns (fun fuel => _adjust_diff fuel d) r ->
  returns (fun fuel => _adjust_diff fuel (- d)) (- r).
Proof.
  pose proof PI_RGT_0 as Hpi. intros Hr.
  destruct (returns_sound_adjust_diff d r Hr) as (Hin & (k & Hk) & Hlo & Hhi & Hid).
  destruct (adjust_diff_returns (- d)) as [r' Hr'].
  destruct (returns_sound_adjust_diff (- d) r' Hr') as (Hin' & (k' & Hk') & Hlo' & Hhi' & _).
  assert (E' : r' = - r + PI * IZR (k' + k)) by (rewrite plus_IZR; lra).
  assert (E : r' = - r).
  { destruct (Req_dec_T (Rabs r) (PI / 2)) as [Ht|Ht].
    - (* a tie: r is an end of the interval *)
      unfold Rabs in Ht. destruct (Rcase_abs r) as [Hneg|Hpos].
      + (* r = -pi/2, so d <= -pi/2 and -pi/2 < -d *)
        assert (Hd : d <= - (PI / 2)).
        { destruct (Rle_dec d (- (PI / 2))); [assumption|]. specialize (Hlo ltac:(lra)). lra. }
        specialize (Hlo' ltac:(lra)).
        assert (Hm : (k' + k = 0)%Z).
        { apply one_IZR_lt1. split; apply Rmult_lt_reg_l with PI; lra. }
        rewrite Hm in E'. lra.
      + (* r = pi/2, so -pi/2 < d *)
        assert (Hd : - (PI / 2) < d).
        { destruct (Rlt_dec (- (PI / 2)) d); [assumption|]. specialize (Hhi ltac:(lra)). lra. }
        destruct (Rle_dec (- d) (- (PI / 2))) as [Hd'|Hd'].
        * specialize (Hhi' Hd').
          assert (Hm : (k' + k = 0)%Z).
          { apply one_IZR_lt1. split; apply Rmult_lt_reg_l with PI; lra. }
          rewrite Hm in E'. lra.
        * (* -pi/2 < d < pi/2: the difference is returned unchanged *)
          assert (Hd2 : - (PI / 2) <= d <= PI / 2) by lra.
          specialize (Hid Hd2). lra.
    - assert (Hs : Rabs (- r) < PI / 2).
      { rewrite Rabs_Ropp. unfold Rabs in *. destruct (Rcase_abs r); lra. }
      apply (half_period_unique (- r) r' (k' + k)%Z); try lra. }
  rewrite <- E. exact Hr'.
Qed.

Lemma adjust_diff_shift (d r : R) (n : Z) :
  returns (fun fuel => _adjust_diff fuel d) r -> Rabs r < PI / 2 ->
  returns (fun fuel => _adjust_diff fuel (d + PI * IZR n)) r.
Proof.
  intros Hr Hs.
  destruct (returns_sound_adjust_diff d r Hr) as (Hin & (k & Hk) & _).
  destruct (adjust_diff_returns (d + PI * IZR n)) as [r' Hr'].
  destruct (returns_sound_adjust_diff _ r' Hr') as (Hin' & (k' & Hk') & _).
  assert (E : r' = r).
  { apply (half_period_unique r r' (n + k' - k)%Z); try assumption.
    rewrite minus_IZR, plus_IZR. lra. }
  rewrite <- E. exact Hr'.
Qed.

(** X2.  [_adjust_diff] is odd: on [-d] it returns the opposite of what it
    returns on [d], the ties at half a turn included. *)
Theorem adjust_diff_odd (d : R) :
  exists r,
    returns (fun fuel => _adjust_diff fuel d) r /\
    returns (fun fuel => _adjust_diff fuel (- d)) (- r).
Proof.
  destruct (adjust_diff_returns d) as [r Hr]. exists r.
  split; [exact Hr | apply adjust_diff_opp; exact Hr].
Qed.



(** X4.  Both kernels are idempotent on angles of magnitude at most 2^53,
    in exact arithmetic: each one returns within [max_shifts] shifts, and
    on its own result it returns at once, leaving it unchanged. *)
Theorem angle_kernels_idempotent (theta : R) :
  moderate theta ->
  (exists r, (forall fuel, (max_shifts <= fuel)%nat -> adjust_angles fuel theta = Some r) /\
             (forall fuel, adjust_angles (S fuel) r = Some r)) /\
  (exists r, (forall fuel, (max_shifts <= fuel)%nat -> _adjust_diff fuel theta = Some r) /\
             (forall fuel, _adjust_diff (S fuel) r = Some r)).
Proof.
  intros Hm. pose proof PI_RGT_0 as Hpi. split.
  - destruct (adjust_angles_within theta Hm) as [r Hr]. exists r. split; [exact Hr|].
    destruct (adjust_angles_sound _ _ _ (Hr _ (Nat.le_refl _))) as (Hin & _).
    intros fuel. unfold adjust_angles. cbn [while_loop].
    replace (Rltb PI r) with false by (symmetry; apply Rltb_false; lra).
    cbn [while_loop].
    replace (Rleb r (- PI)) with false by (symmetry; apply Rleb_false; lra).
    reflexivity.
  - destruct (adjust_diff_within theta Hm) as [r Hr]. exists r. split; [exact Hr|].
    destruct (adjust_diff_sound _ _ _ (Hr _ (Nat.le_refl _))) as (Hin & _).
    intros fuel. unfold _adjust_diff. cbn [while_loop].
    rewrite closer_below.
    replace (Rltb (PI / 2) r) with false by (symmetry; apply Rltb_false; lra).
    cbn [while_loop]. rewrite closer_above.
    replace (Rltb r (- (PI / 2))) with false by (symmetry; apply Rltb_false; lra).
    reflexivity.
Qed.

Lemma angle_kernels_idempotent_witness :
  (exists r, (forall fuel, (max_shifts <= fuel)%nat -> adjust_angles fuel 10 = Some r) /\
             (forall fuel, adjust_angles (S fuel) r = Some r)) /\
  (exists r, (forall fuel, (max_shifts <= fuel)%nat -> _adjust_diff fuel 10 = Some r) /\
             (forall fuel, _adjust_diff (S fuel) r = Some r)).
Proof.
  apply (angle_kernels_idempotent 10). unfold moderate, max_angle. lra.
Defined.

(** ** The kernels on the elements of an array *)

Lemma while_loop_Fin (cond : R -> bool) (body : R -> R)
      (condx : xreal -> bool) (bodyx : xreal -> xreal) :
  (forall r, condx (Fin r) = cond r) ->
  (forall r, bodyx (Fin r) = Fin (body r)) ->
  forall fuel r,
    while_loop condx bodyx fuel (Fin r) = option_map Fin (while_loop cond body fuel r).
Proof.
  intros Hc Hb. induction fuel as [|n IH]; intros r; simpl; [reflexivity|].
  rewrite Hc. destruct (cond r); [|reflexivity].
  rewrite Hb. apply IH.
Qed.

Lemma adjust_angles_elem_Fin (fuel : nat) (r : R) :
  adjust_angles_elem fuel (Fin r) = option_map Fin (adjust_angles fuel r).
Proof.
  unfold adjust_angles_elem, adjust_angles.
  rewrite (while_loop_Fin (fun psi => Rltb PI psi) (fun psi => psi - 2 * PI))
    by (intros; reflexivity).
  destruct (while_loop _ _ fuel r) as [r1|]; [|reflexivity]. simpl.
  apply (while_loop_Fin (fun psi => Rleb psi (- PI)) (fun psi => psi + 2 * PI));
    intros; reflexivity.
Qed.

Lemma adjust_diff_elem_Fin (fuel : nat) (d : R) :
  _adjust_diff_elem fuel (Fin d) = option_map Fin (_adjust_diff fuel d).
Proof.
  unfold _adjust_diff_elem, _adjust_diff.
  rewrite (while_loop_Fin (fun diff => Rltb (Rabs (diff - PI)) (Rabs diff))
                          (fun diff => diff - PI))
    by (intros; reflexivity).
  destruct (while_loop _ _ fuel d) as [r1|]; [|reflexivity]. simpl.
  apply (while_loop_Fin (fun diff => Rltb (Rabs (diff + PI)) (Rabs diff))
                        (fun diff => diff + PI));
    intros; reflexivity.
Qed.

(** X5.  [adjust_angles] on the special values of float64: a NaN is
    returned as it is (both tests are false), and on +inf and on -inf a
    test holds for ever ([inf - 2*pi == inf]), so that the loops never
    end, whatever the fuel.  The kernel on the elements of an array does
    the same. *)
Theorem adjust_angles_special_values :
  (forall fuel, adjust_angles_float64 (S fuel) nan = Some nan) /\
  (forall fuel, adjust_angles_float64 fuel infinity = None) /\
  (forall fuel, adjust_angles_float64 fuel neg_infinity = None) /\
  (forall fuel, adjust_angles_elem (S fuel) NaN = Some NaN) /\
  (forall fuel, adjust_angles_elem fuel PInf = None) /\
  (forall fuel, adjust_angles_elem fuel NInf = None).
Proof.
  split; [reflexivity|]. split; [|split; [|split; [reflexivity|split]]].
  - intros fuel. unfold adjust_angles_float64.
    rewrite while_loop_stuck; reflexivity.
  - intros [|fuel]; [reflexivity|]. unfold adjust_angles_float64.
    cbn [while_loop].
    change (PrimFloat.ltb np_pi neg_infinity) with false. cbv iota.
    apply while_loop_stuck; reflexivity.
  - intros fuel. unfold adjust_angles_elem.
    rewrite while_loop_stuck; reflexivity.
  - intros [|fuel]; [reflexivity|]. unfold adjust_angles_elem.
    cbn [while_loop xgtb xltb].
    apply while_loop_stuck; reflexivity.
Qed.

(** X6.  [_adjust_diff] on the special values of float64: NaN, +inf and
    -inf are returned as they are, at once: for them the strict
    comparisons of absolute values are false and neither loop is entered.
    The kernel on the elements of an array does the same. *)
Theorem adjust_diff_special_values :
  (forall fuel, _adjust_diff_float64 (S fuel) nan = Some nan) /\
  (forall fuel, _adjust_diff_float64 (S fuel) infinity = Some infinity) /\
  (forall fuel, _adjust_diff_float64 (S fuel) neg_infinity = Some neg_infinity) /\
  (forall fuel, _adjust_diff_elem (S fuel) NaN = Some NaN) /\
  (forall fuel, _adjust_diff_elem (S fuel) PInf = Some PInf) /\
  (forall fuel, _adjust_diff_elem (S fuel) NInf = Some NInf).
Proof. repeat split. Qed.

(** An angle of (-pi, pi] is left as it is, in one round of the loops. *)
Lemma adjust_angles_elem_idle (fuel : nat) (r : R) :
  - PI < r <= PI -> adjust_angles_elem (S fuel) (Fin r) = Some (Fin r).
Proof.
  intros Hr. unfold adjust_angles_elem. cbn [while_loop xgtb xltb].
  replace (Rltb PI r) with false by (symmetry; apply Rltb_false; lra).
  cbn [while_loop xleb].
  replace (Rleb r (- PI)) with false by (symmetry; apply Rleb_false; lra).
  reflexivity.
Qed.

(** ** A kernel on a map *)

Lemma mapO_ok {A B : Type} (f : A -> option B) (da : A) (db : B) :
  forall l n,
    length l = n ->
    (forall i, (i < n)%nat -> exists c, f (nth i l da) = Some c) ->
    exists l', mapO f l = Some l' /\ length l' = n /\
               forall i, (i < n)%nat -> f (nth i l da) = Some (nth i l' db).
Proof.
  induction l as [|a l IH]; intros n H1 Hf; simpl in *; subst n.
  - exists []. repeat split; intros; lia.
  - destruct (Hf O ltac:(lia)) as [c Hc]. simpl in Hc.
    destruct (IH (length l) eq_refl) as (l' & Hl & Hlen & Hnth).
    { intros i Hi. apply (Hf (S i)). lia. }
    exists (c :: l'). rewrite Hc, Hl. simpl.
    repeat split; [lia|]. intros [|i] Hi; [exact Hc | apply Hnth; lia].
Qed.

Lemma ufunc2_ok (kernel : xreal -> option xreal) :
  forall (a : array2 xreal) nx ny,
    shape2 nx ny a ->
    (forall i j, (i < nx)%nat -> (j < ny)%nat -> exists c, kernel (xget2 a i j) = Some c) ->
    exists c, ufunc2 kernel a = Some c /\ shape2 nx ny c /\
              forall i j, (i < nx)%nat -> (j < ny)%nat ->
                          kernel (xget2 a i j) = Some (xget2 c i j).
Proof.
  intros a nx ny [Ha Ha'] Hf.
  assert (Hrow : forall i, (i < nx)%nat ->
            exists l', mapO kernel (nth i a []) = Some l' /\ length l' = ny /\
                       forall j, (j < ny)%nat ->
                         kernel (nth j (nth i a []) NaN) = Some (nth j l' NaN)).
  { intros i Hi. apply mapO_ok; [apply Ha'; exact Hi|].
    intros j Hj. apply (Hf i j Hi Hj). }
  destruct (mapO_ok (mapO kernel) [] [] a nx Ha) as (c & Hc & Hlen & Hnth).
  { intros i Hi. destruct (Hrow i Hi) as (l' & Hl' & _). eauto. }
  exists c. split; [exact Hc|]. split.
  - split; [exact Hlen|]. intros i Hi.
    destruct (Hrow i Hi) as (l' & Hl' & Hll & _).
    pose proof (eq_trans (eq_sym Hl') (Hnth i Hi)) as E. injection E as <-. exact Hll.
  - intros i j Hi Hj. unfold xget2, get2.
    destruct (Hrow i Hi) as (l' & Hl' & _ & Hl'').
    pose proof (eq_trans (eq_sym Hl') (Hnth i Hi)) as E. injection E as <-.
    apply Hl''. exact Hj.
Qed.

(** Fuel enough for every element of a map. *)
Lemma uniform_fuel {A B : Type} (kernel : nat -> A -> option B) (P : A -> B -> Prop) :
  forall l : list A,
    (forall x, In x l -> exists y, returns (fun fuel => kernel fuel x) y /\ P x y) ->
    exists F, forall fuel, (F <= fuel)%nat ->
      forall x, In x l -> exists y, kernel fuel x = Some y /\ P x y.
Proof.
  induction l as [|a l IH]; intros H.
  - exists O. intros _ _ x [].
  - destruct IH as [F HF]; [intros x Hx; apply H; right; exact Hx|].
    destruct (H a (or_introl eq_refl)) as (y & [Fa Hy] & HP).
    exists (Nat.max F Fa). intros fuel Hfuel x [<-|Hx].
    + exists y. split; [apply Hy; lia | exact HP].
    + apply HF; [lia | exact Hx].
Qed.

Lemma get2_in_concat {A : Type} (d : A) (a : array2 A) (nx ny i j : nat) :
  shape2 nx ny a -> (i < nx)%nat -> (j < ny)%nat -> In (get2 d a i j) (concat a).
Proof.
  intros [Ha Ha'] Hi Hj. apply in_concat. exists (nth i a []). split.
  - apply nth_In. lia.
  - unfold get2. apply nth_In. rewrite Ha' by exact Hi. exact Hj.
Qed.

Lemma ufunc2_returns (kernel : nat -> xreal -> option xreal) (P : xreal -> xreal -> Prop) :
  forall (a : array2 xreal) nx ny,
    shape2 nx ny a ->
    (forall x, In x (concat a) ->
               exists y, returns (fun fuel => kernel fuel x) y /\ P x y) ->
    exists F, forall fuel, (F <= fuel)%nat ->
      exists c, ufunc2 (kernel fuel) a = Some c /\ shape2 nx ny c /\
                forall i j, (i < nx)%nat -> (j < ny)%nat -> P (xget2 a i j) (xget2 c i j).
Proof.
  intros a nx ny Ha H.
  destruct (uniform_fuel kernel P (concat a) H) as [F HF].
  exists F. intros fuel Hfuel.
  destruct (ufunc2_ok (kernel fuel) a nx ny Ha) as (c & Hc & Hcs & Hcg).
  { intros i j Hi Hj.
    destruct (HF fuel Hfuel _ (get2_in_concat NaN a nx ny i j Ha Hi Hj)) as (y & Hy & _).
    eauto. }
  exists c. split; [exact Hc|]. split; [exact Hcs|].
  intros i j Hi Hj.
  destruct (HF fuel Hfuel _ (get2_in_concat NaN a nx ny i j Ha Hi Hj)) as (y & Hy & HP).
  specialize (Hcg i j Hi Hj). unfold xget2 in *. rewrite Hy in Hcg.
  injection Hcg as <-. exact HP.
Qed.

(** ** The polarization angle *)

Lemma atan_nonpos (t : R) : t <= 0 -> atan t <= 0.
Proof.
  intros Ht. destruct Ht as [H|H]; [|rewrite H, atan_0; lra].
  pose proof (atan_increasing t 0 H). rewrite atan_0 in *. lra.
Qed.

Lemma atan_pos (t : R) : 0 < t -> 0 < atan t.
Proof. intros H. pose proof (atan_increasing 0 t H). rewrite atan_0 in *. lra. Qed.

Lemma atan2_range (y x : R) : - PI < atan2 y x <= PI.
Proof.
  pose proof PI_RGT_0 as Hpi. pose proof (atan_bound (y / x)) as Hb.
  unfold atan2.
  destruct (Rlt_dec 0 x) as [Hx|Hx]; [lra|].
  destruct (Rlt_dec x 0) as [Hx'|Hx'].
  - destruct (Rle_dec 0 y) as [Hy|Hy].
    + assert (y / x <= 0).
      { unfold Rdiv. assert (/ x < 0) by (apply Rinv_lt_0_compat; exact Hx'). nra. }
      pose proof (atan_nonpos _ H). lra.
    + assert (0 < y / x).
      { unfold Rdiv. assert (/ x < 0) by (apply Rinv_lt_0_compat; exact Hx'). nra. }
      pose proof (atan_pos _ H). lra.
  - destruct (Rlt_dec 0 y); [lra|]. destruct (Rlt_dec y 0); lra.
Qed.

Lemma polar_ratio (P s c : R) : 0 < P -> c <> 0 -> P * s / (P * c) = s / c.
Proof. intros HP Hc. field. split; lra. Qed.

(** The angle of the point at the distance P > 0 in the direction theta. *)
Lemma atan2_polar (P theta : R) :
  0 < P -> - PI < theta <= PI -> atan2 (P * sin theta) (P * cos theta) = theta.
Proof.
  pose proof PI_RGT_0 as Hpi. intros HP Ht. unfold atan2.
  destruct (Rlt_dec theta (- (PI / 2))) as [H1|H1].
  - (* third quadrant *)
    assert (Hc : 0 < cos (theta + PI)) by (apply cos_gt_0; lra).
    assert (Hs : 0 < sin (theta + PI)) by (apply sin_gt_0; lra).
    rewrite neg_cos in Hc. rewrite neg_sin in Hs.
    destruct (Rlt_dec 0 (P * cos theta)); [nra|].
    destruct (Rlt_dec (P * cos theta) 0); [|nra].
    destruct (Rle_dec 0 (P * sin theta)); [nra|].
    rewrite polar_ratio by lra.
    replace (sin theta / cos theta) with (tan (theta + PI)).
    2:{ unfold tan. rewrite neg_sin, neg_cos. field. lra. }
    rewrite atan_tan by lra. lra.
  - destruct (Req_dec_T theta (- (PI / 2))) as [->|H2].
    + rewrite cos_neg, sin_neg, cos_PI2, sin_PI2.
      destruct (Rlt_dec 0 (P * 0)); [lra|].
      destruct (Rlt_dec (P * 0) 0); [lra|].
      destruct (Rlt_dec 0 (P * - (1))); [lra|].
      destruct (Rlt_dec (P * - (1)) 0); lra.
    + destruct (Rlt_dec theta (PI / 2)) as [H3|H3].
      * assert (Hc : 0 < cos theta) by (apply cos_gt_0; lra).
        destruct (Rlt_dec 0 (P * cos theta)); [|nra].
        rewrite polar_ratio by lra.
        apply atan_tan. lra.
      * destruct (Req_dec_T theta (PI / 2)) as [->|H4].
        -- rewrite cos_PI2, sin_PI2.
           destruct (Rlt_dec 0 (P * 0)); [lra|].
           destruct (Rlt_dec (P * 0) 0); [lra|].
           destruct (Rlt_dec 0 (P * 1)); lra.
        -- (* second quadrant *)
           assert (Hc : cos theta < 0) by (apply cos_lt_0; lra).
           assert (Hs : 0 <= sin theta) by (apply sin_ge_0; lra).
           destruct (Rlt_dec 0 (P * cos theta)); [nra|].
           destruct (Rlt_dec (P * cos theta) 0); [|nra].
           destruct (Rle_dec 0 (P * sin theta)); [|nra].
           rewrite polar_ratio by lra.
           replace (sin theta / cos theta) with (tan (theta - PI)).
           2:{ unfold tan.
               replace theta with (theta - PI + PI) at 3 4 by lra.
               rewrite neg_sin, neg_cos. field.
               intro E. replace theta with (theta - PI + PI) in Hc by lra.
               rewrite neg_cos in Hc. lra. }
           rewrite atan_tan by lra. lra.
Qed.

(** [arctan2] of two floats: NaN exactly when one of them is, and
    otherwise an angle of [-pi, pi]. *)
Lemma xatan2_range (y x : xreal) :
  (xatan2 y x = NaN /\ (y = NaN \/ x = NaN)) \/
  (exists r, xatan2 y x = Fin r /\ - PI <= r <= PI /\ y <> NaN /\ x <> NaN).
Proof.
  pose proof PI_RGT_0 as Hpi.
  destruct y as [b| | |], x as [a| | |]; simpl;
    try (left; split; [reflexivity | auto; fail]);
    try (right; eexists; split; [reflexivity|]; repeat split; try discriminate; lra).
  - right. exists (atan2 b a). pose proof (atan2_range b a).
    repeat split; try discriminate; lra.
  - right. destruct (Rlt_dec b 0); eexists; (split; [reflexivity|]);
      repeat split; try discriminate; lra.
Qed.

Lemma xhalf_Fin (r : R) : xdiv (Fin r) (Fin 2) = Fin (r / 2).
Proof. simpl. destruct (Req_dec_T 2 0); [lra | reflexivity]. Qed.

Section PolarizationAngle.

Variables nx ny : nat.
Variables U Q : array2 xreal.
Hypothesis U_shape : shape2 nx ny U.
Hypothesis Q_shape : shape2 nx ny Q.

(** The run of [compute_Psi] on maps of one shape: the unwrapping leaves
    every element as it is. *)
Lemma compute_Psi_ok (fuel : nat) :
  exists Psi,
    compute_Psi (S fuel) U Q = Some (Ok (mkQuantity Psi u_rad)) /\
    shape2 nx ny Psi /\
    forall i j, (i < nx)%nat -> (j < ny)%nat ->
      xget2 Psi i j = xdiv (xatan2 (xget2 U i j) (xget2 Q i j)) (Fin 2).
Proof.
  pose proof PI_RGT_0 as Hpi.
  unfold compute_Psi.
  destruct (arr2_map2_ok xatan2 NaN NaN NaN U Q nx ny U_shape Q_shape)
    as (a & Ha & Has & Hag).
  rewrite Ha. cbv zeta.
  assert (Hhalf : forall i j, (i < nx)%nat -> (j < ny)%nat ->
            xget2 (arr2_map (fun t => xdiv t (Fin 2)) a) i j
            = xdiv (xatan2 (xget2 U i j) (xget2 Q i j)) (Fin 2)).
  { intros i j Hi Hj. unfold xget2.
    rewrite (arr2_map_get _ NaN NaN a nx ny) by assumption.
    rewrite Hag by assumption. reflexivity. }
  assert (Hidle : forall i j, (i < nx)%nat -> (j < ny)%nat ->
            adjust_angles_elem (S fuel) (xget2 (arr2_map (fun t => xdiv t (Fin 2)) a) i j)
            = Some (xget2 (arr2_map (fun t => xdiv t (Fin 2)) a) i j)).
  { intros i j Hi Hj. rewrite Hhalf by assumption.
    destruct (xatan2_range (xget2 U i j) (xget2 Q i j)) as [[-> _]|(r & -> & Hr & _)].
    - reflexivity.
    - rewrite xhalf_Fin. apply adjust_angles_elem_idle. lra. }
  destruct (ufunc2_ok (adjust_angles_elem (S fuel))
              (arr2_map (fun t => xdiv t (Fin 2)) a) nx ny)
    as (c & Hc & Hcs & Hcg).
  { apply arr2_map_shape, Has. }
  { intros i j Hi Hj. rewrite Hidle by assumption. eauto. }
  rewrite Hc. exists c. split; [reflexivity|]. split; [exact Hcs|].
  intros i j Hi Hj. specialize (Hcg i j Hi Hj).
  rewrite Hidle in Hcg by assumption. injection Hcg as <-.
  apply Hhalf; assumption.
Qed.

End PolarizationAngle.

(** X7.  On maps U and Q of one shape [compute_Psi] returns, in radians,
    half of [arctan2(U, Q)] element by element, the wrap of
    [adjust_angles] leaving it untouched: an element is NaN exactly where
    U or Q is NaN, every other element lies in [-pi/2, pi/2], and in
    (-pi/2, pi/2] where U and Q are finite. *)
Theorem compute_Psi_returns_half_angle (fuel : nat) (U Q : array2 xreal) (nx ny : nat) :
  has_shape2 nx ny U = true ->
  has_shape2 nx ny Q = true ->
  exists Psi,
    compute_Psi (S fuel) U Q = Some (Ok (mkQuantity Psi u_rad)) /\
    forall i j, (i < nx)%nat -> (j < ny)%nat ->
      xget2 Psi i j = xdiv (xatan2 (xget2 U i j) (xget2 Q i j)) (Fin 2) /\
      (xget2 Psi i j = NaN <-> xget2 U i j = NaN \/ xget2 Q i j = NaN) /\
      (xget2 Psi i j = NaN \/
       exists r, xget2 Psi i j = Fin r /\ - (PI / 2) <= r <= PI / 2) /\
      (forall u q, xget2 U i j = Fin u -> xget2 Q i j = Fin q ->
                   exists r, xget2 Psi i j = Fin r /\ - (PI / 2) < r <= PI / 2).
Proof.
  intros HU HQ. apply has_shape2_shape2 in HU, HQ.
  destruct (compute_Psi_ok nx ny U Q HU HQ fuel) as (Psi & HPsi & _ & Hg).
  exists Psi. split; [exact HPsi|].
  intros i j Hi Hj. rewrite Hg by assumption.
  split; [reflexivity|].
  destruct (xatan2_range (xget2 U i j) (xget2 Q i j)) as [[E HN]|(r & E & Hr & HU' & HQ')].
  - rewrite E. simpl. split; [tauto|]. split; [left; reflexivity|].
    intros u q Eu Eq. destruct HN as [HN|HN]; rewrite HN in *; discriminate.
  - rewrite E, xhalf_Fin. split.
    + split; [discriminate | intros [H|H]; contradiction].
    + split; [right; exists (r / 2); split; [reflexivity | lra]|].
      intros u q Eu Eq. rewrite Eu, Eq in E. simpl in E. injection E as <-.
      pose proof (atan2_range u q). exists (atan2 u q / 2). split; [reflexivity | lra].
Qed.

Lemma compute_Psi_returns_half_angle_witness :
  exists Psi,
    compute_Psi 1 [[Fin 1; Fin 0]] [[Fin 1; NaN]] = Some (Ok (mkQuantity Psi u_rad)) /\
    forall i j, (i < 1)%nat -> (j < 2)%nat ->
      xget2 Psi i j
      = xdiv (xatan2 (xget2 [[Fin 1; Fin 0]] i j) (xget2 [[Fin 1; NaN]] i j)) (Fin 2) /\
      (xget2 Psi i j = NaN <->
       xget2 [[Fin 1; Fin 0]] i j = NaN \/ xget2 [[Fin 1; NaN]] i j = NaN) /\
      (xget2 Psi i j = NaN \/
       exists r, xget2 Psi i j = Fin r /\ - (PI / 2) <= r <= PI / 2) /\
      (forall u q, xget2 [[Fin 1; Fin 0]] i j = Fin u -> xget2 [[Fin 1; NaN]] i j = Fin q ->
                   exists r, xget2 Psi i j = Fin r /\ - (PI / 2) < r <= PI / 2).
Proof.
  apply (compute_Psi_returns_half_angle 0 [[Fin 1; Fin 0]] [[Fin 1; NaN]] 1 2); reflexivity.
Defined.

(** X8.  [compute_Psi] inverts the Stokes parametrisation: where
    [U = P sin(2 psi)] and [Q = P cos(2 psi)] with [P > 0] and [psi] in
    (-pi/2, pi/2], the angle returned is [psi]. *)
Theorem compute_Psi_recovers_angle (fuel : nat) (U Q : array2 xreal) (nx ny : nat) :
  has_shape2 nx ny U = true ->
  has_shape2 nx ny Q = true ->
  exists Psi,
    compute_Psi (S fuel) U Q = Some (Ok (mkQuantity Psi u_rad)) /\
    forall i j, (i < nx)%nat -> (j < ny)%nat ->
      forall P psi : R,
        0 < P -> - (PI / 2) < psi <= PI / 2 ->
        xget2 U i j = Fin (P * sin (2 * psi)) ->
        xget2 Q i j = Fin (P * cos (2 * psi)) ->
        xget2 Psi i j = Fin psi.
Proof.
  intros HU HQ. apply has_shape2_shape2 in HU, HQ.
  destruct (compute_Psi_ok nx ny U Q HU HQ fuel) as (Psi & HPsi & _ & Hg).
  exists Psi. split; [exact HPsi|].
  intros i j Hi Hj P psi HP Hpsi EU EQ.
  rewrite Hg, EU, EQ by assumption. cbn [xatan2].
  rewrite atan2_polar by lra. rewrite xhalf_Fin. f_equal. lra.
Qed.

Lemma compute_Psi_recovers_angle_witness :
  exists Psi,
    compute_Psi 1 [[Fin (2 * sin (2 * (PI / 4)))]] [[Fin (2 * cos (2 * (PI / 4)))]]
    = Some (Ok (mkQuantity Psi u_rad)) /\
    forall i j, (i < 1)%nat -> (j < 1)%nat ->
      forall P psi : R,
        0 < P -> - (PI / 2) < psi <= PI / 2 ->
        xget2 [[Fin (2 * sin (2 * (PI / 4)))]] i j = Fin (P * sin (2 * psi)) ->
        xget2 [[Fin (2 * cos (2 * (PI / 4)))]] i j = Fin (P * cos (2 * psi)) ->
        xget2 Psi i j = Fin psi.
Proof.
  apply (compute_Psi_recovers_angle 0 [[Fin (2 * sin (2 * (PI / 4)))]]
           [[Fin (2 * cos (2 * (PI / 4)))]] 1 1); reflexivity.
Defined.

(** ** The rotation measure *)

Lemma xpow_fin_2 (a : R) : xpow (Fin a) 2 = Fin (a * a).
Proof.
  unfold xpow. destruct (Req_dec_T 2 0); [lra|].
  destruct (Rlt_dec 0 a) as [Ha|Ha].
  - f_equal. replace 2 with (1 + 1) by lra.
    rewrite Rpower_plus, Rpower_1 by exact Ha. reflexivity.
  - destruct (Req_dec_T a 0) as [->|Hz].
    + destruct (Rlt_dec 0 2); [f_equal; lra | lra].
    + assert (Hint : Int_part 2 = 2%Z).
      { unfold Int_part. rewrite <- (up_tech 2 2); [reflexivity | lra | simpl; lra]. }
      unfold is_integer. rewrite Hint, Reqb_refl.
      f_equal. simpl. lra.
Qed.

Lemma lift_get2 (a : array2 R) (nx ny i j : nat) :
  shape2 nx ny a -> (i < nx)%nat -> (j < ny)%nat ->
  xget2 (arr2_map Fin a) i j = Fin (rget2 a i j).
Proof. intros. apply (arr2_map_get Fin 0 NaN a nx ny); assumption. Qed.

Lemma in_concat_get2 {A : Type} (d : A) (a : array2 A) (nx ny : nat) (x : A) :
  shape2 nx ny a -> In x (concat a) ->
  exists i j, (i < nx)%nat /\ (j < ny)%nat /\ x = get2 d a i j.
Proof.
  intros [Ha Ha'] Hx. apply in_concat in Hx. destruct Hx as (row & Hrow & Hx).
  destruct (In_nth a row [] Hrow) as (i & Hi & Ei).
  destruct (In_nth row x d Hx) as (j & Hj & Ej).
  exists i, j. subst row. rewrite Ha' in Hj by lia.
  repeat split; try lia. unfold get2. symmetry. exact Ej.
Qed.

(** Two maps of one shape with the same elements are the same map. *)
Lemma list_ext {A : Type} (d : A) (l l' : list A) :
  length l = length l' -> (forall i, (i < length l)%nat -> nth i l d = nth i l' d) -> l = l'.
Proof.
  revert l'. induction l as [|a l IH]; intros [|a' l'] Hlen H; simpl in *;
    try discriminate; [reflexivity|].
  f_equal.
  - apply (H O). lia.
  - apply IH; [lia|]. intros i Hi. apply (H (S i)). lia.
Qed.

Lemma array2_ext {A : Type} (d : A) (a b : array2 A) (nx ny : nat) :
  shape2 nx ny a -> shape2 nx ny b ->
  (forall i j, (i < nx)%nat -> (j < ny)%nat -> get2 d a i j = get2 d b i j) -> a = b.
Proof.
  intros [Ha Ha'] [Hb Hb'] H.
  apply (list_ext []); [lia|]. intros i Hi.
  apply (list_ext d).
  - rewrite Ha', Hb' by lia. reflexivity.
  - intros j Hj. rewrite Ha' in Hj by lia. apply H; lia.
Qed.

Section RotationMeasure.

Variables nx ny : nat.
Variables Psi1 Psi2 : array2 R.
Hypothesis Psi1_shape : shape2 nx ny Psi1.
Hypothesis Psi2_shape : shape2 nx ny Psi2.

(** The run of [compute_RM] on two finite angle maps of one shape. *)
Lemma compute_RM_ok (lambda1 lambda2 : R) :
  exists F, forall fuel, (F <= fuel)%nat ->
    exists RM,
      compute_RM fuel (arr2_map Fin Psi1) (arr2_map Fin Psi2) lambda1 lambda2
      = Some (Ok (mkQuantity RM rad_per_m2)) /\
      shape2 nx ny RM /\
      forall i j, (i < nx)%nat -> (j < ny)%nat ->
        exists r,
          returns (fun fuel => _adjust_diff fuel (rget2 Psi2 i j - rget2 Psi1 i j)) r /\
          xget2 RM i j = xdiv (Fin r) (Fin (lambda2 * lambda2 - lambda1 * lambda1)).
Proof.
  unfold compute_RM.
  destruct (arr2_map2_ok xsub NaN NaN NaN (arr2_map Fin Psi2) (arr2_map Fin Psi1) nx ny)
    as (diff & Hd & Hds & Hdg); try (apply arr2_map_shape; assumption).
  rewrite Hd.
  assert (Hdiff : forall i j, (i < nx)%nat -> (j < ny)%nat ->
            xget2 diff i j = Fin (rget2 Psi2 i j - rget2 Psi1 i j)).
  { intros i j Hi Hj. unfold xget2. rewrite Hdg by assumption.
    fold (xget2 (arr2_map Fin Psi2) i j) (xget2 (arr2_map Fin Psi1) i j).
    rewrite !(lift_get2 _ nx ny) by assumption. reflexivity. }
  destruct (ufunc2_returns _adjust_diff_elem
              (fun x y => exists d r, x = Fin d /\ y = Fin r /\
                                      returns (fun fuel => _adjust_diff fuel d) r)
              diff nx ny Hds) as [F HF].
  { intros x Hx.
    destruct (in_concat_get2 NaN diff nx ny x Hds Hx) as (i & j & Hi & Hj & ->).
    fold (xget2 diff i j). rewrite Hdiff by assumption.
    destruct (adjust_diff_returns (rget2 Psi2 i j - rget2 Psi1 i j)) as [r Hr].
    exists (Fin r). split.
    - destruct Hr as [f Hf]. exists f. intros fuel Hfuel.
      rewrite adjust_diff_elem_Fin, Hf by exact Hfuel. reflexivity.
    - exists (rget2 Psi2 i j - rget2 Psi1 i j), r. auto. }
  exists F. intros fuel Hfuel.
  destruct (HF fuel Hfuel) as (c & Hc & Hcs & Hcg).
  rewrite Hc. cbv zeta. eexists. split; [reflexivity|].
  split; [apply arr2_map_shape, Hcs|].
  intros i j Hi Hj.
  destruct (Hcg i j Hi Hj) as (d & r & Ed & Er & Hr).
  rewrite Hdiff in Ed by assumption. injection Ed as <-.
  exists r. split; [exact Hr|].
  unfold xget2 at 1. rewrite (arr2_map_get _ NaN NaN c nx ny) by assumption.
  fold (xget2 c i j). rewrite Er, !xpow_fin_2. reflexivity.
Qed.

End RotationMeasure.

(** The same run on differences of moderate magnitude, within [max_shifts]
    shifts. *)
Lemma compute_RM_at (Psi1 Psi2 : array2 R) (lambda1 lambda2 : R) (nx ny : nat) :
  shape2 nx ny Psi1 -> shape2 nx ny Psi2 ->
  (forall i j, (i < nx)%nat -> (j < ny)%nat ->
               moderate (rget2 Psi2 i j - rget2 Psi1 i j)) ->
  forall fuel, (max_shifts <= fuel)%nat ->
    exists RM,
      compute_RM fuel (arr2_map Fin Psi1) (arr2_map Fin Psi2) lambda1 lambda2
      = Some (Ok (mkQuantity RM rad_per_m2)) /\
      shape2 nx ny RM /\
      forall i j, (i < nx)%nat -> (j < ny)%nat ->
        exists r,
          returns (fun fuel => _adjust_diff fuel (rget2 Psi2 i j - rget2 Psi1 i j)) r /\
          xget2 RM i j = xdiv (Fin r) (Fin (lambda2 * lambda2 - lambda1 * lambda1)).
Proof.
  intros H1 H2 Hmod fuel Hfuel. unfold compute_RM.
  destruct (arr2_map2_ok xsub NaN NaN NaN (arr2_map Fin Psi2) (arr2_map Fin Psi1) nx ny)
    as (diff & Hd & Hds & Hdg); try (apply arr2_map_shape; assumption).
  rewrite Hd.
  assert (Hdiff : forall i j, (i < nx)%nat -> (j < ny)%nat ->
            xget2 diff i j = Fin (rget2 Psi2 i j - rget2 Psi1 i j)).
  { intros i j Hi Hj. unfold xget2. rewrite Hdg by assumption.
    fold (xget2 (arr2_map Fin Psi2) i j) (xget2 (arr2_map Fin Psi1) i j).
    rewrite !(lift_get2 _ nx ny) by assumption. reflexivity. }
  destruct (ufunc2_ok (_adjust_diff_elem fuel) diff nx ny Hds) as (c & Hc & Hcs & Hcg).
  { intros i j Hi Hj. rewrite Hdiff by assumption.
    destruct (adjust_diff_within _ (Hmod i j Hi Hj)) as [r Hr].
    exists (Fin r). rewrite adjust_diff_elem_Fin, Hr by exact Hfuel. reflexivity. }
  rewrite Hc. cbv zeta. eexists. split; [reflexivity|].
  split; [apply arr2_map_shape, Hcs|].
  intros i j Hi Hj.
  destruct (adjust_diff_within _ (Hmod i j Hi Hj)) as [r Hr].
  pose proof (Hcg i j Hi Hj) as Er.
  rewrite Hdiff, adjust_diff_elem_Fin, Hr in Er by assumption.
  injection Er as Er.
  exists r. split; [exists max_shifts; exact Hr|].
  unfold xget2 at 1. rewrite (arr2_map_get _ NaN NaN c nx ny) by assumption.
  fold (xget2 c i j). rewrite <- Er, !xpow_fin_2. reflexivity.
Qed.

Lemma compute_RM_within (Psi1 Psi2 : array2 R) (lambda1 lambda2 : R) (nx ny : nat) :
  shape2 nx ny Psi1 -> shape2 nx ny Psi2 ->
  (forall i j, (i < nx)%nat -> (j < ny)%nat ->
               moderate (rget2 Psi2 i j - rget2 Psi1 i j)) ->
  exists RM,
    (forall fuel, (max_shifts <= fuel)%nat ->
       compute_RM fuel (arr2_map Fin Psi1) (arr2_map Fin Psi2) lambda1 lambda2
       = Some (Ok (mkQuantity RM rad_per_m2))) /\
    shape2 nx ny RM /\
    forall i j, (i < nx)%nat -> (j < ny)%nat ->
      exists r,
        returns (fun fuel => _adjust_diff fuel (rget2 Psi2 i j - rget2 Psi1 i j)) r /\
        xget2 RM i j = xdiv (Fin r) (Fin (lambda2 * lambda2 - lambda1 * lambda1)).
Proof.
  intros H1 H2 Hmod.
  destruct (compute_RM_at Psi1 Psi2 lambda1 lambda2 nx ny H1 H2 Hmod
              max_shifts (Nat.le_refl _)) as (RM & HRM & Hs & Hg).
  exists RM. split; [|split; [exact Hs | exact Hg]].
  intros fuel Hfuel.
  destruct (compute_RM_at Psi1 Psi2 lambda1 lambda2 nx ny H1 H2 Hmod fuel Hfuel)
    as (RM' & HRM' & Hs' & Hg').
  rewrite HRM'. do 3 f_equal.
  apply (array2_ext NaN RM' RM nx ny Hs' Hs). intros i j Hi Hj.
  destruct (Hg i j Hi Hj) as (r & Hr & E).
  destruct (Hg' i j Hi Hj) as (r' & Hr' & E').
  change (xget2 RM' i j = xget2 RM i j).
  rewrite E, E', (returns_unique _ _ _ Hr' Hr). reflexivity.
Qed.





(** X11.  With [lambda2^2 = lambda1^2] (equal or opposite wavelengths)
    [compute_RM] raises nothing and returns no finite element: every
    element is +inf, -inf or NaN, and NaN where the two angles are equal. *)
Theorem compute_RM_equal_wavelengths
        (Psi1 Psi2 : array2 R) (lambda1 lambda2 : R) (nx ny : nat) :
  has_shape2 nx ny Psi1 = true ->
  has_shape2 nx ny Psi2 = true ->
  lambda2 * lambda2 = lambda1 * lambda1 ->
  exists F, forall fuel, (F <= fuel)%nat ->
    exists RM,
      compute_RM fuel (arr2_map Fin Psi1) (arr2_map Fin Psi2) lambda1 lambda2
      = Some (Ok (mkQuantity RM rad_per_m2)) /\
      forall i j, (i < nx)%nat -> (j < ny)%nat ->
        (xget2 RM i j = PInf \/ xget2 RM i j = NInf \/ xget2 RM i j = NaN) /\
        (rget2 Psi2 i j = rget2 Psi1 i j -> xget2 RM i j = NaN).
Proof.
  intros H1 H2 Hl. apply has_shape2_shape2 in H1, H2.
  destruct (compute_RM_ok nx ny Psi1 Psi2 H1 H2 lambda1 lambda2) as [F HF].
  exists F. intros fuel Hfuel.
  destruct (HF fuel Hfuel) as (RM & HRM & _ & Hg).
  exists RM. split; [exact HRM|].
  intros i j Hi Hj. destruct (Hg i j Hi Hj) as (r & Hr & E).
  rewrite E. replace (lambda2 * lambda2 - lambda1 * lambda1) with 0 by lra.
  simpl. destruct (Req_dec_T 0 0); [|lra]. split.
  - unfold xinf_of_sign. destruct (Rlt_dec 0 r); [auto|]. destruct (Rlt_dec r 0); auto.
  - intros Heq.
    destruct (returns_sound_adjust_diff _ r Hr) as (_ & _ & _ & _ & Hid).
    pose proof PI_RGT_0. rewrite Hid by lra.
    unfold xinf_of_sign. destruct (Rlt_dec 0 _); [lra|]. destruct (Rlt_dec _ 0); [lra|].
    reflexivity.
Qed.

Lemma compute_RM_equal_wavelengths_witness :
  exists F, forall fuel, (F <= fuel)%nat ->
    exists RM,
      compute_RM fuel (arr2_map Fin [[0; 1]]) (arr2_map Fin [[3; 1]]) 2 (-2)
      = Some (Ok (mkQuantity RM rad_per_m2)) /\
      forall i j, (i < 1)%nat -> (j < 2)%nat ->
        (xget2 RM i j = PInf \/ xget2 RM i j = NInf \/ xget2 RM i j = NaN) /\
        (rget2 [[3; 1]] i j = rget2 [[0; 1]] i j -> xget2 RM i j = NaN).
Proof.
  apply (compute_RM_equal_wavelengths [[0; 1]] [[3; 1]] 2 (-2) 1 2); try reflexivity. lra.
Defined.

(** X12.  Exchanging the two observations, angle maps and wavelengths
    together, leaves the map of [compute_RM] unchanged. *)
Theorem compute_RM_swap (Psi1 Psi2 : array2 R) (lambda1 lambda2 : R) (nx ny : nat) :
  has_shape2 nx ny Psi1 = true ->
  has_shape2 nx ny Psi2 = true ->
  lambda2 * lambda2 <> lambda1 * lambda1 ->
  exists F, forall fuel, (F <= fuel)%nat ->
    exists RM,
      compute_RM fuel (arr2_map Fin Psi1) (arr2_map Fin Psi2) lambda1 lambda2
      = Some (Ok (mkQuantity RM rad_per_m2)) /\
      compute_RM fuel (arr2_map Fin Psi2) (arr2_map Fin Psi1) lambda2 lambda1
      = Some (Ok (mkQuantity RM rad_per_m2)).
Proof.
  intros H1 H2 Hl. apply has_shape2_shape2 in H1, H2.
  destruct (compute_RM_ok nx ny Psi1 Psi2 H1 H2 lambda1 lambda2) as [F HF].
  destruct (compute_RM_ok nx ny Psi2 Psi1 H2 H1 lambda2 lambda1) as [F' HF'].
  exists (Nat.max F F'). intros fuel Hfuel.
  destruct (HF fuel ltac:(lia)) as (RM & HRM & HRMs & Hg).
  destruct (HF' fuel ltac:(lia)) as (RM' & HRM' & HRMs' & Hg').
  exists RM. split; [exact HRM|].
  rewrite HRM'. do 3 f_equal.
  apply (array2_ext NaN RM' RM nx ny HRMs' HRMs).
  intros i j Hi Hj.
  destruct (Hg i j Hi Hj) as (r & Hr & E).
  destruct (Hg' i j Hi Hj) as (r' & Hr' & E').
  fold (xget2 RM' i j) (xget2 RM i j). rewrite E, E'.
  assert (Er : r' = - r).
  { apply (returns_unique (fun fuel => _adjust_diff fuel (rget2 Psi1 i j - rget2 Psi2 i j)));
      [exact Hr'|].
    replace (rget2 Psi1 i j - rget2 Psi2 i j) with (- (rget2 Psi2 i j - rget2 Psi1 i j))
      by lra.
    apply adjust_diff_opp. exact Hr. }
  subst r'. simpl.
  destruct (Req_dec_T (lambda1 * lambda1 - lambda2 * lambda2) 0); [lra|].
  destruct (Req_dec_T (lambda2 * lambda2 - lambda1 * lambda1) 0); [lra|].
  f_equal. field. split; lra.
Qed.

Lemma compute_RM_swap_witness :
  exists F, forall fuel, (F <= fuel)%nat ->
    exists RM,
      compute_RM fuel (arr2_map Fin [[0; 1]]) (arr2_map Fin [[3; 1]]) 1 2
      = Some (Ok (mkQuantity RM rad_per_m2)) /\
      compute_RM fuel (arr2_map Fin [[3; 1]]) (arr2_map Fin [[0; 1]]) 2 1
      = Some (Ok (mkQuantity RM rad_per_m2)).
Proof.
  apply (compute_RM_swap [[0; 1]] [[3; 1]] 1 2 1 2); try reflexivity. lra.
Defined.

(** ** The Faraday depth of simple columns *)

Lemma trapezoid_sum_Fin (z f : nat -> R) (m : nat) :
  trapezoid_sum (fun k => Fin (z k)) (fun k => Fin (f k)) m = Fin (Rtrapezoid z f m).
Proof.
  unfold trapezoid_sum. induction m as [|m IH]; [reflexivity|].
  cbn [xsum_upto Rtrapezoid]. rewrite IH. unfold trapezoid_term. simpl.
  destruct (Req_dec_T 2 0); [lra|]. simpl. f_equal.
Qed.

Lemma Rtrapezoid_const (z f : nat -> R) (c : R) (m : nat) :
  (forall k, (k <= m)%nat -> f k = c) -> Rtrapezoid z f m = c * (z m - z O).
Proof.
  induction m as [|m IH]; intros H; simpl; [lra|].
  rewrite IH by (intros; apply H; lia).
  rewrite (H (S m)), (H m) by lia. lra.
Qed.

Lemma faraday_prefix_Fin (depth : array1 R) (Bz ne : array3 R) (i j k : nat) :
  faraday_prefix depth Bz ne i j k
  = Fin (812 / 1000 * Rtrapezoid (fun m => nth m depth 0)
                                  (fun m => rget3 Bz i j m * rget3 ne i j m) k).
Proof.
  unfold faraday_prefix.
  change (trapezoid_sum (samples depth)
            (fun m => xmul (Fin (rget3 Bz i j m)) (Fin (rget3 ne i j m))) k)
    with (trapezoid_sum (fun m => Fin (nth m depth 0))
            (fun m => Fin (rget3 Bz i j m * rget3 ne i j m)) k).
  rewrite trapezoid_sum_Fin. reflexivity.
Qed.

(** X13.  On a column where [Bz * ne] keeps one value [c], [compute_fd]
    without a beam returns [0.812 * c * (z_last - z_first)], whatever the
    spacing of the depth samples. *)
Theorem compute_fd_uniform_column
        (gaussian_filter : array2 xreal -> R -> array2 xreal)
        (depth_grid : depth_arg) (Bz ne : array3 R) (nx ny nz : nat) :
  has_shape3 nx ny nz Bz = true ->
  has_shape3 nx ny nz ne = true ->
  length (depth_array depth_grid) = nz ->
  (0 < nz)%nat ->
  exists RM : array2 xreal,
    snd (compute_fd gaussian_filter depth_grid Bz ne None)
    = Ok (mkQuantity RM rad_per_m2) /\
    forall i j, (i < nx)%nat -> (j < ny)%nat ->
      forall c : R,
        (forall k, (k < nz)%nat -> rget3 Bz i j k * rget3 ne i j k = c) ->
        xget2 RM i j
        = Fin (812 / 1000 *
               (c * (nth (nz - 1) (depth_array depth_grid) 0
                     - nth 0 (depth_array depth_grid) 0))).
Proof.
  intros HBz Hne Hdepth Hnz.
  apply has_shape3_shape3 in HBz, Hne.
  destruct (faraday_total_ok nx ny nz Bz ne (depth_array depth_grid) HBz Hne Hdepth Hnz)
    as (g & t & Hg & Ht & Htg).
  exists (arr2_map (xmul (Fin (812 / 1000))) t). split.
  - rewrite (compute_fd_run gaussian_filter depth_grid Bz ne None g t Hg Ht). reflexivity.
  - intros i j Hi Hj c Hc. rewrite Htg by assumption.
    rewrite faraday_prefix_Fin. do 2 f_equal.
    apply (Rtrapezoid_const (fun m => nth m (depth_array depth_grid) 0)).
    intros k Hk. apply Hc. lia.
Qed.

Lemma compute_fd_uniform_column_witness :
  exists RM : array2 xreal,
    snd (compute_fd (fun m _ => m) (DepthArray [0; 1; 3]) [[[2; 2; 2]]] [[[1; 1; 1]]] None)
    = Ok (mkQuantity RM rad_per_m2) /\
    forall i j, (i < 1)%nat -> (j < 1)%nat ->
      forall c : R,
        (forall k, (k < 3)%nat -> rget3 [[[2; 2; 2]]] i j k * rget3 [[[1; 1; 1]]] i j k = c) ->
        xget2 RM i j
        = Fin (812 / 1000 *
               (c * (nth (3 - 1) (depth_array (DepthArray [0; 1; 3])) 0
                     - nth 0 (depth_array (DepthArray [0; 1; 3])) 0))).
Proof.
  apply (compute_fd_uniform_column (fun m _ => m) (DepthArray [0; 1; 3])
           [[[2; 2; 2]]] [[[1; 1; 1]]] 1 1 3); try reflexivity. lia.
Defined.

(** X14.  Where [Bz * ne] vanishes everywhere there is no Faraday
    rotation: the rotated angle [psi] of [compute_stokes_parameters] is
    the intrinsic angle [psi0] in every voxel, and the Faraday depth map
    of [compute_fd] is zero. *)
Theorem no_rotation_without_parallel_field
        (gaussian_filter : array2 xreal -> R -> array2 xreal)
        (depth_grid : depth_arg) (wavelength : R) (Bx By Bz ne : array3 R)
        (nx ny nz : nat) :
  has_shape3 nx ny nz Bx = true ->
  has_shape3 nx ny nz By = true ->
  has_shape3 nx ny nz Bz = true ->
  has_shape3 nx ny nz ne = true ->
  length (depth_array depth_grid) = nz ->
  (0 < nz)%nat ->
  (forall i j k, (i < nx)%nat -> (j < ny)%nat -> (k < nz)%nat ->
                 rget3 Bz i j k * rget3 ne i j k = 0) ->
  exists (psi0 psi : array3 xreal) (RM : Quantity rm_value) (RM_total : array2 xreal),
    stokes_psi0 (arr3_map Fin Bx) (arr3_map Fin By) = Ok psi0 /\
    stokes_RM (map Fin (depth_array depth_grid)) wavelength
              (arr3_map Fin Bz) (arr3_map Fin ne) = Ok RM /\
    stokes_psi psi0 wavelength RM = Ok psi /\
    snd (compute_fd gaussian_filter depth_grid Bz ne None)
    = Ok (mkQuantity RM_total rad_per_m2) /\
    (forall i j k, (i < nx)%nat -> (j < ny)%nat -> (k < nz)%nat ->
                   xget3 psi i j k = xget3 psi0 i j k) /\
    (forall i j, (i < nx)%nat -> (j < ny)%nat -> xget2 RM_total i j = Fin 0).
Proof.
  intros HBx HBy HBz Hne Hdepth Hnz Hzero.
  apply has_shape3_shape3 in HBx, HBy, HBz, Hne.
  destruct (stokes_psi0_ok nx ny nz Bx By HBx HBy) as (P & HP & HPs & HPg).
  destruct (stokes_psi_ok nx ny nz Bz ne (depth_array depth_grid) HBz Hne Hdepth
              wavelength P Hnz HPs) as (RM & Psi & HRM & HPsi & _ & HPsig).
  destruct (faraday_total_ok nx ny nz Bz ne (depth_array depth_grid) HBz Hne Hdepth Hnz)
    as (g & t & Hg & Ht & Htg).
  assert (Hprefix : forall i j k, (i < nx)%nat -> (j < ny)%nat -> (k < nz)%nat ->
            faraday_prefix (depth_array depth_grid) Bz ne i j k = Fin 0).
  { intros i j k Hi Hj Hk. rewrite faraday_prefix_Fin. f_equal.
    rewrite (Rtrapezoid_const _ _ 0); [lra|].
    intros m Hm. apply Hzero; try assumption. lia. }
  exists P, Psi, RM, (arr2_map (xmul (Fin (812 / 1000))) t).
  split; [exact HP|]. split; [exact HRM|]. split; [exact HPsi|]. split.
  { rewrite (compute_fd_run gaussian_filter depth_grid Bz ne None g t Hg Ht). reflexivity. }
  split.
  - intros i j k Hi Hj Hk. rewrite HPsig, Hprefix by assumption.
    rewrite xpow_fin_2. cbn [xmul].
    replace (wavelength * wavelength * 0) with 0 by lra. apply xadd_0_r.
  - intros i j Hi Hj. rewrite Htg by assumption. apply Hprefix; try assumption. lia.
Qed.

Lemma no_rotation_without_parallel_field_witness :
  exists (psi0 psi : array3 xreal) (RM : Quantity rm_value) (RM_total : array2 xreal),
    stokes_psi0 (arr3_map Fin [[[1; 1]]]) (arr3_map Fin [[[0; 2]]]) = Ok psi0 /\
    stokes_RM (map Fin (depth_array (DepthArray [0; 1]))) 1
              (arr3_map Fin [[[0; 0]]]) (arr3_map Fin [[[1; 3]]]) = Ok RM /\
    stokes_psi psi0 1 RM = Ok psi /\
    snd (compute_fd (fun m _ => m) (DepthArray [0; 1]) [[[0; 0]]] [[[1; 3]]] None)
    = Ok (mkQuantity RM_total rad_per_m2) /\
    (forall i j k, (i < 1)%nat -> (j < 1)%nat -> (k < 2)%nat ->
                   xget3 psi i j k = xget3 psi0 i j k) /\
    (forall i j, (i < 1)%nat -> (j < 1)%nat -> xget2 RM_total i j = Fin 0).
Proof.
  apply (no_rotation_without_parallel_field (fun m _ => m) (DepthArray [0; 1]) 1
           [[[1; 1]]] [[[0; 2]]] [[[0; 0]]] [[[1; 3]]] 1 1 2); try reflexivity; [lia|].
  intros [|i] [|j] [|[|k]] Hi Hj Hk; try lia; cbn; lra.
Defined.

(** ** The division by zero of the polarization degree *)

(** X15.  With the spectral index [gamma = -7/3] the degree of
    polarization divides by zero: [compute_stokes_parameters] raises
    ZeroDivisionError on well-shaped inputs, and returns no maps. *)
Theorem compute_stokes_parameters_zero_division
        (gaussian_filter : array2 xreal -> R -> array2 xreal)
        (depth_grid : depth_arg) (wavelength : R) (Bx By Bz ne ncr : array3 R)
        (beam_kernel_sd : option R) (nx ny nz : nat) :
  has_shape3 nx ny nz Bx = true ->
  has_shape3 nx ny nz By = true ->
  has_shape3 nx ny nz Bz = true ->
  has_shape3 nx ny nz ne = true ->
  has_shape3 nx ny nz ncr = true ->
  length (depth_array depth_grid) = nz ->
  (0 < nz)%nat ->
  snd (compute_stokes_parameters gaussian_filter depth_grid wavelength
                                 Bx By Bz ne ncr (- (7 / 3)) beam_kernel_sd)
  = Raise ZeroDivisionError.
Proof.
  intros HBx HBy HBz Hne Hncr Hdepth Hnz.
  apply has_shape3_shape3 in HBx, HBy, HBz, Hne, Hncr.
  destruct (stokes_emissivity_ok nx ny nz Bx By ncr HBx HBy Hncr wavelength (- (7 / 3)))
    as (E & HE & HEs & _).
  destruct (stokes_psi0_ok nx ny nz Bx By HBx HBy) as (P & HP & HPs & _).
  destruct (stokes_psi_ok nx ny nz Bz ne (depth_array depth_grid) HBz Hne Hdepth
              wavelength P Hnz HPs) as (RM & Psi & HRM & HPsi & _).
  destruct (trapz_emissivity_ok nx ny nz (depth_array depth_grid) Hdepth E Hnz HEs)
    as (I & HI & _).
  unfold compute_stokes_parameters. cbv zeta.
  rewrite bind_legacy_depth_grid.
  rewrite HE, bind_lift_ok, HI, bind_lift_ok, HP, bind_lift_ok, HRM, bind_lift_ok,
    HPsi, bind_lift_ok.
  unfold stokes_p0. destruct (Req_dec_T (- (7 / 3) + 7 / 3) 0); [|lra].
  reflexivity.
Qed.

Lemma compute_stokes_parameters_zero_division_witness :
  snd (compute_stokes_parameters (fun m _ => m) (DepthArray [0; 1]) 1
         [[[1; 1]]] [[[0; 0]]] [[[0; 0]]] [[[0; 0]]] [[[1; 1]]] (- (7 / 3)) None)
  = Raise ZeroDivisionError.
Proof.
  apply (compute_stokes_parameters_zero_division (fun m _ => m) (DepthArray [0; 1]) 1
           [[[1; 1]]] [[[0; 0]]] [[[0; 0]]] [[[0; 0]]] [[[1; 1]]] None 1 1 2);
    try reflexivity. lia.
Defined.

(** ** The intrinsic angle in closed form *)

Lemma voxel_psi0_closed (bx by' : R) : voxel_psi0 bx by' = Fin (intrinsic_angle bx by').
Proof.
  pose proof PI_RGT_0 as Hpi. unfold intrinsic_angle.
  destruct (Req_dec_T bx 0) as [->|Hbx].
  - destruct (Req_dec_T by' 0) as [->|Hby].
    + rewrite voxel_psi0_degenerate. destruct (Rlt_dec 0 0); [lra | reflexivity].
    + unfold voxel_psi0. cbn [xeqb xdiv].
      replace (Reqb by' 0) with false
        by (symmetry; unfold Reqb; destruct (Req_dec_T by' 0); [contradiction|reflexivity]).
      cbn [andb]. destruct (Req_dec_T 0 0); [|lra].
      unfold xinf_of_sign.
      destruct (Rlt_dec 0 by'); [|destruct (Rlt_dec by' 0); [|lra]];
        cbn [xatan xadd]; cbv zeta; unfold xgtb, xltb, Rltb; decide_reals;
        f_equal; lra.
  - unfold voxel_psi0. cbn [xeqb xdiv].
    replace (Reqb bx 0) with false
      by (symmetry; unfold Reqb; destruct (Req_dec_T bx 0); [contradiction|reflexivity]).
    rewrite andb_false_r. destruct (Req_dec_T bx 0); [contradiction|].
    cbn [xatan xadd]. cbv zeta.
    pose proof (atan_bound (by' / bx)) as Hb.
    unfold xgtb, xltb, Rltb. decide_reals. reflexivity.
Qed.

Lemma intrinsic_angle_range (bx by' : R) : 0 <= intrinsic_angle bx by' <= PI.
Proof.
  pose proof PI_RGT_0 as Hpi. unfold intrinsic_angle.
  destruct (Req_dec_T bx 0); [destruct (Rlt_dec 0 by'); lra|].
  pose proof (atan_bound (by' / bx)). lra.
Qed.

Lemma intrinsic_angle_perpendicular (bx by' : R) :
  bx * cos (intrinsic_angle bx by') + by' * sin (intrinsic_angle bx by') = 0.
Proof.
  unfold intrinsic_angle.
  destruct (Req_dec_T bx 0) as [->|Hbx].
  - destruct (Rlt_dec 0 by'); [rewrite sin_PI | rewrite sin_0]; lra.
  - rewrite cos_plus, sin_plus, cos_PI2, sin_PI2.
    pose proof (tan_atan (by' / bx)) as Ht. unfold tan in Ht.
    pose proof (atan_bound (by' / bx)) as Hb.
    assert (Hc : 0 < cos (atan (by' / bx))) by (apply cos_gt_0; lra).
    assert (Hs : sin (atan (by' / bx)) = by' / bx * cos (atan (by' / bx))).
    { rewrite <- Ht at 2. field. lra. }
    rewrite Hs. field. exact Hbx.
Qed.

(** X16.  The intrinsic angle [psi0] of a voxel with a finite field is
    finite, lies in [0, pi], and is perpendicular to the field in the
    plane of the sky: [Bx cos(psi0) + By sin(psi0) = 0]; for [Bx <> 0] it
    is [atan(By/Bx) + pi/2]. *)
Theorem psi0_perpendicular_to_field (Bx By : array3 R) (nx ny nz : nat) :
  has_shape3 nx ny nz Bx = true ->
  has_shape3 nx ny nz By = true ->
  exists psi0 : array3 xreal,
    stokes_psi0 (arr3_map Fin Bx) (arr3_map Fin By) = Ok psi0 /\
    forall i j k, (i < nx)%nat -> (j < ny)%nat -> (k < nz)%nat ->
      exists p : R,
        xget3 psi0 i j k = Fin p /\
        0 <= p <= PI /\
        rget3 Bx i j k * cos p + rget3 By i j k * sin p = 0 /\
        (rget3 Bx i j k <> 0 -> p = atan (rget3 By i j k / rget3 Bx i j k) + PI / 2).
Proof.
  intros HBx HBy. apply has_shape3_shape3 in HBx, HBy.
  destruct (stokes_psi0_ok nx ny nz Bx By HBx HBy) as (P & HP & _ & HPg).
  exists P. split; [exact HP|].
  intros i j k Hi Hj Hk. rewrite HPg by assumption.
  exists (intrinsic_angle (rget3 Bx i j k) (rget3 By i j k)).
  split; [apply voxel_psi0_closed|]. split; [apply intrinsic_angle_range|].
  split; [apply intrinsic_angle_perpendicular|].
  intros Hne. unfold intrinsic_angle. destruct (Req_dec_T _ 0); [contradiction | reflexivity].
Qed.

Lemma psi0_perpendicular_to_field_witness :
  exists psi0 : array3 xreal,
    stokes_psi0 (arr3_map Fin [[[0; 1]]]) (arr3_map Fin [[[2; 1]]]) = Ok psi0 /\
    forall i j k, (i < 1)%nat -> (j < 1)%nat -> (k < 2)%nat ->
      exists p : R,
        xget3 psi0 i j k = Fin p /\
        0 <= p <= PI /\
        rget3 [[[0; 1]]] i j k * cos p + rget3 [[[2; 1]]] i j k * sin p = 0 /\
        (rget3 [[[0; 1]]] i j k <> 0 ->
         p = atan (rget3 [[[2; 1]]] i j k / rget3 [[[0; 1]]] i j k) + PI / 2).
Proof.
  apply (psi0_perpendicular_to_field [[[0; 1]]] [[[2; 1]]] 1 1 2); reflexivity.
Defined.

(** ** The Stokes maps, voxel by voxel *)

Section StokesMaps.

Variable gaussian_filter : array2 xreal -> R -> array2 xreal.
Variables nx ny nz : nat.
Variables Bx By Bz ne ncr : array3 R.
Variable depth_grid : depth_arg.
Variables wavelength gamma : R.
Hypothesis Bx_shape : shape3 nx ny nz Bx.
Hypothesis By_shape : shape3 nx ny nz By.
Hypothesis Bz_shape : shape3 nx ny nz Bz.
Hypothesis ne_shape : shape3 nx ny nz ne.
Hypothesis ncr_shape : shape3 nx ny nz ncr.
Hypothesis depth_length : length (depth_array depth_grid) = nz.
Hypothesis nz_pos : (0 < nz)%nat.
Hypothesis gamma_ok : gamma + 7 / 3 <> 0.

Lemma compute_stokes_parameters_voxels (beam_kernel_sd : option R) :
  exists I U Q : array2 xreal,
    snd (compute_stokes_parameters gaussian_filter depth_grid wavelength
                                   Bx By Bz ne ncr gamma beam_kernel_sd)
    = Ok (BeamConvolver gaussian_filter (mkQuantity I (stokes_unit gamma)) beam_kernel_sd,
          BeamConvolver gaussian_filter (mkQuantity U (stokes_unit gamma)) beam_kernel_sd,
          BeamConvolver gaussian_filter (mkQuantity Q (stokes_unit gamma)) beam_kernel_sd) /\
    shape2 nx ny I /\ shape2 nx ny U /\ shape2 nx ny Q /\
    forall i j, (i < nx)%nat -> (j < ny)%nat ->
      let depth := samples (depth_array depth_grid) in
      let e k := voxel_emissivity wavelength gamma
                                  (rget3 Bx i j k) (rget3 By i j k) (rget3 ncr i j k) in
      let psi k := rotated_angle (depth_array depth_grid) wavelength Bx By Bz ne i j k in
      let p0 := (gamma + 1) / (gamma + 7 / 3) in
      xget2 I i j = trapezoid_sum depth e (nz - 1) /\
      xget2 U i j =
        xmul (Fin p0)
             (trapezoid_sum depth (fun k => xmul (e k) (Fin (sin (2 * psi k)))) (nz - 1)) /\
      xget2 Q i j =
        xmul (Fin p0)
             (trapezoid_sum depth (fun k => xmul (e k) (Fin (cos (2 * psi k)))) (nz - 1)).
Proof.
  destruct (stokes_emissivity_ok nx ny nz Bx By ncr Bx_shape By_shape ncr_shape
              wavelength gamma) as (E & HE & HEs & HEg).
  destruct (stokes_psi0_ok nx ny nz Bx By Bx_shape By_shape) as (P & HP & HPs & HPg).
  destruct (stokes_psi_ok nx ny nz Bz ne (depth_array depth_grid) Bz_shape ne_shape
              depth_length wavelength P nz_pos HPs)
    as (RM & Psi & HRM & HPsi & HPsis & HPsig).
  destruct (trapz_emissivity_ok nx ny nz (depth_array depth_grid) depth_length E nz_pos HEs)
    as (I & HI & HIs & HIg).
  pose proof (stokes_p0_ok gamma gamma_ok) as Hp0.
  destruct (stokes_polarized_ok nx ny nz (depth_array depth_grid) depth_length xsin
              ((gamma + 1) / (gamma + 7 / 3)) E Psi nz_pos HEs HPsis)
    as (U & HU & HUs & HUg).
  destruct (stokes_polarized_ok nx ny nz (depth_array depth_grid) depth_length xcos
              ((gamma + 1) / (gamma + 7 / 3)) E Psi nz_pos HEs HPsis)
    as (Q & HQ & HQs & HQg).
  assert (Hpsi : forall i j k, (i < nx)%nat -> (j < ny)%nat -> (k < nz)%nat ->
            xmul (Fin 2) (xget3 Psi i j k)
            = Fin (2 * rotated_angle (depth_array depth_grid) wavelength Bx By Bz ne i j k)).
  { intros i j k Hi Hj Hk. rewrite HPsig, HPg by assumption.
    rewrite voxel_psi0_closed, faraday_prefix_Fin, xpow_fin_2. reflexivity. }
  exists I, U, Q. split.
  { rewrite (compute_stokes_parameters_run gaussian_filter depth_grid wavelength
               Bx By Bz ne ncr gamma beam_kernel_sd E P Psi RM _ I U Q
               HE HI HP HRM HPsi Hp0 HU HQ).
    reflexivity. }
  split; [exact HIs|]. split; [exact HUs|]. split; [exact HQs|].
  intros i j Hi Hj. cbv zeta. split; [|split].
  - rewrite HIg by assumption. apply trapezoid_sum_ext; [reflexivity|].
    intros k Hk. apply HEg; try assumption. lia.
  - rewrite HUg by assumption. f_equal. apply trapezoid_sum_ext; [reflexivity|].
    intros k Hk. rewrite HEg, Hpsi by (try assumption; lia). reflexivity.
  - rewrite HQg by assumption. f_equal. apply trapezoid_sum_ext; [reflexivity|].
    intros k Hk. rewrite HEg, Hpsi by (try assumption; lia). reflexivity.
Qed.

End StokesMaps.

(** ** The order of the maps *)

(** C8.  The three maps [compute_stokes_parameters] returns are, in this
    order: I, the integral of the emissivity; U, p0 times the integral of
    emissivity * sin(2 psi); Q, p0 times the integral of emissivity *
    cos(2 psi) -- U second and Q third, not the order I, Q, U of the
    docstring.  The emissivity and the rotated angle psi are those of the
    voxels of the input fields, and each map has the shape (nx, ny), so
    that the three maps are determined by the inputs. *)
Theorem compute_stokes_parameters_order
        (gaussian_filter : array2 xreal -> R -> array2 xreal)
        (depth_grid : depth_arg) (wavelength : R) (Bx By Bz ne ncr : array3 R)
        (gamma : R) (beam_kernel_sd : option R) (nx ny nz : nat) :
  has_shape3 nx ny nz Bx = true ->
  has_shape3 nx ny nz By = true ->
  has_shape3 nx ny nz Bz = true ->
  has_shape3 nx ny nz ne = true ->
  has_shape3 nx ny nz ncr = true ->
  length (depth_array depth_grid) = nz ->
  (0 < nz)%nat ->
  gamma + 7 / 3 <> 0 ->
  exists I U Q : array2 xreal,
    shape2 nx ny I /\ shape2 nx ny U /\ shape2 nx ny Q /\
    (forall i j, (i < nx)%nat -> (j < ny)%nat ->
       let depth := samples (depth_array depth_grid) in
       let e k := voxel_emissivity wavelength gamma
                                   (rget3 Bx i j k) (rget3 By i j k) (rget3 ncr i j k) in
       let psi k := rotated_angle (depth_array depth_grid) wavelength Bx By Bz ne i j k in
       let p0 := (gamma + 1) / (gamma + 7 / 3) in
       xget2 I i j = trapezoid_sum depth e (nz - 1) /\
       xget2 U i j =
         xmul (Fin p0)
              (trapezoid_sum depth (fun k => xmul (e k) (Fin (sin (2 * psi k)))) (nz - 1)) /\
       xget2 Q i j =
         xmul (Fin p0)
              (trapezoid_sum depth (fun k => xmul (e k) (Fin (cos (2 * psi k)))) (nz - 1))) /\
    forall first second third,
      snd (compute_stokes_parameters gaussian_filter depth_grid wavelength
                                     Bx By Bz ne ncr gamma beam_kernel_sd)
      = Ok (first, second, third) <->
      first = BeamConvolver gaussian_filter (mkQuantity I (stokes_unit gamma)) beam_kernel_sd /\
      second = BeamConvolver gaussian_filter (mkQuantity U (stokes_unit gamma)) beam_kernel_sd /\
      third = BeamConvolver gaussian_filter (mkQuantity Q (stokes_unit gamma)) beam_kernel_sd.
Proof.
  intros HBx HBy HBz Hne Hncr Hdepth Hnz Hgamma.
  apply has_shape3_shape3 in HBx, HBy, HBz, Hne, Hncr.
  destruct (compute_stokes_parameters_voxels gaussian_filter nx ny nz Bx By Bz ne ncr
              depth_grid wavelength gamma HBx HBy HBz Hne Hncr Hdepth Hnz Hgamma
              beam_kernel_sd)
    as (I & U & Q & Hrun & HIs & HUs & HQs & Hg).
  exists I, U, Q.
  split; [exact HIs|]. split; [exact HUs|]. split; [exact HQs|]. split; [exact Hg|].
  intros first second third. rewrite Hrun. split.
  - intros H. injection H as <- <- <-. auto.
  - intros (-> & -> & ->). reflexivity.
Qed.

Lemma compute_stokes_parameters_order_witness :
  exists I U Q : array2 xreal,
    shape2 1 1 I /\ shape2 1 1 U /\ shape2 1 1 Q /\
    (forall i j, (i < 1)%nat -> (j < 1)%nat ->
       let depth := samples (depth_array (DepthArray [0; 1])) in
       let e k := voxel_emissivity 1 3 (rget3 [[[1; 1]]] i j k) (rget3 [[[0; 0]]] i j k)
                                   (rget3 [[[1; 1]]] i j k) in
       let psi k := rotated_angle (depth_array (DepthArray [0; 1])) 1
                                  [[[1; 1]]] [[[0; 0]]] [[[1; 2]]] [[[1; 1]]] i j k in
       let p0 := (3 + 1) / (3 + 7 / 3) in
       xget2 I i j = trapezoid_sum depth e (2 - 1) /\
       xget2 U i j =
         xmul (Fin p0)
              (trapezoid_sum depth (fun k => xmul (e k) (Fin (sin (2 * psi k)))) (2 - 1)) /\
       xget2 Q i j =
         xmul (Fin p0)
              (trapezoid_sum depth (fun k => xmul (e k) (Fin (cos (2 * psi k)))) (2 - 1))) /\
    forall first second third,
      snd (compute_stokes_parameters (fun m _ => m) (DepthArray [0; 1]) 1
             [[[1; 1]]] [[[0; 0]]] [[[1; 2]]] [[[1; 1]]] [[[1; 1]]] 3 None)
      = Ok (first, second, third) <->
      first = BeamConvolver (fun m _ => m) (mkQuantity I (stokes_unit 3)) None /\
      second = BeamConvolver (fun m _ => m) (mkQuantity U (stokes_unit 3)) None /\
      third = BeamConvolver (fun m _ => m) (mkQuantity Q (stokes_unit 3)) None.
Proof.
  apply (compute_stokes_parameters_order (fun m _ => m) (DepthArray [0; 1]) 1
           [[[1; 1]]] [[[0; 0]]] [[[1; 2]]] [[[1; 1]]] [[[1; 1]]] 3 None 1 1 2);
    try reflexivity; [lia | lra].
Defined.

(** ** Reversing the field in the plane of the sky *)

Lemma sin_plus_2PI (y : R) : sin (y + 2 * PI) = sin y.
Proof. replace (y + 2 * PI) with (y + PI + PI) by lra. rewrite !neg_sin. lra. Qed.

Lemma cos_plus_2PI (y : R) : cos (y + 2 * PI) = cos y.
Proof. replace (y + 2 * PI) with (y + PI + PI) by lra. rewrite !neg_cos. lra. Qed.

Lemma double_angle_shift (x y : R) (m : Z) :
  (m = -1 \/ m = 0 \/ m = 1)%Z -> y = x + PI * IZR m ->
  sin (2 * y) = sin (2 * x) /\ cos (2 * y) = cos (2 * x).
Proof.
  intros [ -> | [ -> | -> ] ] ->.
  - replace (2 * x) with (2 * (x + PI * -1) + 2 * PI) by lra.
    rewrite sin_plus_2PI, cos_plus_2PI. auto.
  - replace (x + PI * 0) with x by lra. auto.
  - replace (2 * (x + PI * 1)) with (2 * x + 2 * PI) by lra.
    rewrite sin_plus_2PI, cos_plus_2PI. auto.
Qed.

Lemma intrinsic_angle_opp (bx by' : R) :
  exists m : Z, (m = -1 \/ m = 0 \/ m = 1)%Z /\
    intrinsic_angle (- bx) (- by') = intrinsic_angle bx by' + PI * IZR m.
Proof.
  unfold intrinsic_angle.
  destruct (Req_dec_T bx 0) as [->|Hbx].
  - destruct (Req_dec_T (- 0) 0); [|lra].
    destruct (Rlt_dec 0 by'), (Rlt_dec 0 (- by')); try lra.
    + exists (-1)%Z. split; [auto | lra].
    + exists 1%Z. split; [auto | lra].
    + exists 0%Z. split; [auto | lra].
  - destruct (Req_dec_T (- bx) 0); [lra|].
    exists 0%Z. split; [auto|].
    replace (- by' / - bx) with (by' / bx) by (field; exact Hbx). lra.
Qed.

Lemma voxel_emissivity_opp (wavelength gamma bx by' n : R) :
  voxel_emissivity wavelength gamma (- bx) (- by') n
  = voxel_emissivity wavelength gamma bx by' n.
Proof.
  unfold voxel_emissivity. rewrite !xpow_fin_2.
  replace (- bx * - bx) with (bx * bx) by ring.
  replace (- by' * - by') with (by' * by') by ring. reflexivity.
Qed.

Lemma opp_get (a : array3 R) (nx ny nz i j k : nat) :
  shape3 nx ny nz a -> (i < nx)%nat -> (j < ny)%nat -> (k < nz)%nat ->
  rget3 (arr3_map Ropp a) i j k = - rget3 a i j k.
Proof. intros. apply (arr3_map_get Ropp 0 0 a nx ny nz); assumption. Qed.

(** X17.  Reversing the field in the plane of the sky, [Bx] and [By]
    together, changes none of the three maps of
    [compute_stokes_parameters], with or without a beam. *)
Theorem stokes_in_plane_field_reversal
        (gaussian_filter : array2 xreal -> R -> array2 xreal)
        (depth_grid : depth_arg) (wavelength : R) (Bx By Bz ne ncr : array3 R)
        (gamma : R) (beam_kernel_sd : option R) (nx ny nz : nat) :
  has_shape3 nx ny nz Bx = true ->
  has_shape3 nx ny nz By = true ->
  has_shape3 nx ny nz Bz = true ->
  has_shape3 nx ny nz ne = true ->
  has_shape3 nx ny nz ncr = true ->
  length (depth_array depth_grid) = nz ->
  (0 < nz)%nat ->
  gamma + 7 / 3 <> 0 ->
  exists maps,
    snd (compute_stokes_parameters gaussian_filter depth_grid wavelength
                                   Bx By Bz ne ncr gamma beam_kernel_sd)
    = Ok maps /\
    snd (compute_stokes_parameters gaussian_filter depth_grid wavelength
                                   (arr3_map Ropp Bx) (arr3_map Ropp By) Bz ne ncr
                                   gamma beam_kernel_sd)
    = Ok maps.
Proof.
  intros HBx HBy HBz Hne Hncr Hdepth Hnz Hgamma.
  apply has_shape3_shape3 in HBx, HBy, HBz, Hne, Hncr.
  destruct (compute_stokes_parameters_voxels gaussian_filter nx ny nz Bx By Bz ne ncr
              depth_grid wavelength gamma HBx HBy HBz Hne Hncr Hdepth Hnz Hgamma
              beam_kernel_sd) as (I & U & Q & Hrun & HIs & HUs & HQs & Hg).
  destruct (compute_stokes_parameters_voxels gaussian_filter nx ny nz
              (arr3_map Ropp Bx) (arr3_map Ropp By) Bz ne ncr
              depth_grid wavelength gamma
              (arr3_map_shape Ropp Bx nx ny nz HBx) (arr3_map_shape Ropp By nx ny nz HBy)
              HBz Hne Hncr Hdepth Hnz Hgamma
              beam_kernel_sd) as (I' & U' & Q' & Hrun' & HIs' & HUs' & HQs' & Hg').
  eexists. split; [exact Hrun|]. rewrite Hrun'.
  assert (Hangles : forall i j k, (i < nx)%nat -> (j < ny)%nat -> (k < nz)%nat ->
            sin (2 * rotated_angle (depth_array depth_grid) wavelength
                                   (arr3_map Ropp Bx) (arr3_map Ropp By) Bz ne i j k)
            = sin (2 * rotated_angle (depth_array depth_grid) wavelength Bx By Bz ne i j k)
            /\
            cos (2 * rotated_angle (depth_array depth_grid) wavelength
                                   (arr3_map Ropp Bx) (arr3_map Ropp By) Bz ne i j k)
            = cos (2 * rotated_angle (depth_array depth_grid) wavelength Bx By Bz ne i j k)).
  { intros i j k Hi Hj Hk. unfold rotated_angle.
    rewrite !(opp_get _ nx ny nz) by assumption.
    destruct (intrinsic_angle_opp (rget3 Bx i j k) (rget3 By i j k)) as (m & Hm & E).
    apply (double_angle_shift _ _ m Hm). rewrite E. lra. }
  assert (EI : I' = I).
  { apply (array2_ext NaN I' I nx ny HIs' HIs). intros i j Hi Hj.
    change (xget2 I' i j = xget2 I i j).
    destruct (Hg i j Hi Hj) as (-> & _). destruct (Hg' i j Hi Hj) as (-> & _).
    apply trapezoid_sum_ext; [reflexivity|]. intros k Hk.
    rewrite !(opp_get _ nx ny nz) by (try assumption; lia).
    apply voxel_emissivity_opp. }
  assert (EU : U' = U).
  { apply (array2_ext NaN U' U nx ny HUs' HUs). intros i j Hi Hj.
    change (xget2 U' i j = xget2 U i j).
    destruct (Hg i j Hi Hj) as (_ & -> & _). destruct (Hg' i j Hi Hj) as (_ & -> & _).
    f_equal. apply trapezoid_sum_ext; [reflexivity|]. intros k Hk.
    rewrite !(opp_get _ nx ny nz) by (try assumption; lia).
    rewrite voxel_emissivity_opp.
    destruct (Hangles i j k Hi Hj ltac:(lia)) as [-> _]. reflexivity. }
  assert (EQ : Q' = Q).
  { apply (array2_ext NaN Q' Q nx ny HQs' HQs). intros i j Hi Hj.
    change (xget2 Q' i j = xget2 Q i j).
    destruct (Hg i j Hi Hj) as (_ & _ & ->). destruct (Hg' i j Hi Hj) as (_ & _ & ->).
    f_equal. apply trapezoid_sum_ext; [reflexivity|]. intros k Hk.
    rewrite !(opp_get _ nx ny nz) by (try assumption; lia).
    rewrite voxel_emissivity_opp.
    destruct (Hangles i j k Hi Hj ltac:(lia)) as [_ ->]. reflexivity. }
  rewrite EI, EU, EQ. reflexivity.
Qed.

Lemma stokes_in_plane_field_reversal_witness :
  exists maps,
    snd (compute_stokes_parameters (fun m _ => m) (DepthArray [0; 1]) 1
           [[[1; 0]]] [[[0; 2]]] [[[1; 1]]] [[[1; 1]]] [[[1; 1]]] 3 None)
    = Ok maps /\
    snd (compute_stokes_parameters (fun m _ => m) (DepthArray [0; 1]) 1
           (arr3_map Ropp [[[1; 0]]]) (arr3_map Ropp [[[0; 2]]])
           [[[1; 1]]] [[[1; 1]]] [[[1; 1]]] 3 None)
    = Ok maps.
Proof.
  apply (stokes_in_plane_field_reversal (fun m _ => m) (DepthArray [0; 1]) 1
           [[[1; 0]]] [[[0; 2]]] [[[1; 1]]] [[[1; 1]]] [[[1; 1]]] 3 None 1 1 2);
    try reflexivity; [lia | lra].
Defined.

(** ** A uniform column, from the fields to the polarization angle *)

Lemma xpow_pos (a y : R) : 0 < a -> xpow (Fin a) y = Fin (Rpower a y).
Proof.
  intros Ha. unfold xpow. destruct (Req_dec_T y 0) as [->|Hy].
  - rewrite Rpower_O by exact Ha. reflexivity.
  - destruct (Rlt_dec 0 a); [reflexivity | lra].
Qed.

Lemma Rpower_pos (a y : R) : 0 < Rpower a y.
Proof. unfold Rpower. apply exp_pos. Qed.

Lemma voxel_emissivity_value (wavelength gamma bx by' n : R) :
  0 < wavelength -> bx <> 0 \/ by' <> 0 ->
  voxel_emissivity wavelength gamma bx by' n
  = Fin (emissivity_value wavelength gamma bx by' n).
Proof.
  intros Hw Hb. unfold voxel_emissivity, emissivity_value.
  rewrite !xpow_fin_2. cbn [xadd].
  rewrite xpow_pos by (destruct Hb; nra).
  rewrite xpow_pos by exact Hw. reflexivity.
Qed.

(** X18.  [compute_stokes_parameters] followed by [compute_Psi]: on a
    column with one field in the plane of the sky, one positive density
    of cosmic rays and no Faraday rotation, the total intensity is the
    emissivity times the length of the column, and the angle returned by
    [compute_Psi] on the maps U and Q is the intrinsic angle of the
    column, brought into (-pi/2, pi/2]. *)
Theorem uniform_column_polarization_angle
        (gaussian_filter : array2 xreal -> R -> array2 xreal)
        (depth_grid : depth_arg) (wavelength : R) (Bx By Bz ne ncr : array3 R)
        (gamma : R) (nx ny nz : nat) :
  has_shape3 nx ny nz Bx = true ->
  has_shape3 nx ny nz By = true ->
  has_shape3 nx ny nz Bz = true ->
  has_shape3 nx ny nz ne = true ->
  has_shape3 nx ny nz ncr = true ->
  length (depth_array depth_grid) = nz ->
  (0 < nz)%nat ->
  -1 < gamma ->
  0 < wavelength ->
  exists (I U Q Psi : array2 xreal),
    snd (compute_stokes_parameters gaussian_filter depth_grid wavelength
                                   Bx By Bz ne ncr gamma None)
    = Ok (mkQuantity I (stokes_unit gamma), mkQuantity U (stokes_unit gamma),
          mkQuantity Q (stokes_unit gamma)) /\
    compute_Psi 1 U Q = Some (Ok (mkQuantity Psi u_rad)) /\
    forall i j, (i < nx)%nat -> (j < ny)%nat ->
      forall bx by' n : R,
        (forall k, (k < nz)%nat ->
                   rget3 Bx i j k = bx /\ rget3 By i j k = by' /\ rget3 ncr i j k = n /\
                   rget3 Bz i j k * rget3 ne i j k = 0) ->
        0 < n -> bx <> 0 \/ by' <> 0 ->
        nth 0 (depth_array depth_grid) 0 < nth (nz - 1) (depth_array depth_grid) 0 ->
        xget2 I i j
        = Fin (emissivity_value wavelength gamma bx by' n *
               (nth (nz - 1) (depth_array depth_grid) 0 - nth 0 (depth_array depth_grid) 0))
        /\
        xget2 Psi i j
        = Fin (if Rle_dec (intrinsic_angle bx by') (PI / 2)
               then intrinsic_angle bx by'
               else intrinsic_angle bx by' - PI).
Proof.
  intros HBx HBy HBz Hne Hncr Hdepth Hnz Hgamma Hw.
  apply has_shape3_shape3 in HBx, HBy, HBz, Hne, Hncr.
  assert (Hgamma' : gamma + 7 / 3 <> 0) by lra.
  destruct (compute_stokes_parameters_voxels gaussian_filter nx ny nz Bx By Bz ne ncr
              depth_grid wavelength gamma HBx HBy HBz Hne Hncr Hdepth Hnz Hgamma' None)
    as (I & U & Q & Hrun & HIs & HUs & HQs & Hg).
  destruct (compute_Psi_ok nx ny U Q HUs HQs 0) as (Psi & HPsi & _ & HPsig).
  exists I, U, Q, Psi. split; [exact Hrun|]. split; [exact HPsi|].
  intros i j Hi Hj bx by' n Hcol Hn Hb HL.
  destruct (Hg i j Hi Hj) as (EI & EU & EQ). cbv zeta in EI, EU, EQ.
  set (z := fun m => nth m (depth_array depth_grid) 0) in *.
  set (e := emissivity_value wavelength gamma bx by' n) in *.
  set (L := z (nz - 1)%nat - z O).
  set (psi0 := intrinsic_angle bx by') in *.
  assert (He : 0 < e).
  { unfold e, emissivity_value.
    apply Rmult_lt_0_compat; [apply Rmult_lt_0_compat; [exact Hn|]|]; apply Rpower_pos. }
  assert (Hp0 : 0 < (gamma + 1) / (gamma + 7 / 3)) by (apply Rdiv_lt_0_compat; lra).
  assert (Hvox : forall k, (k <= nz - 1)%nat ->
            voxel_emissivity wavelength gamma (rget3 Bx i j k) (rget3 By i j k)
                             (rget3 ncr i j k) = Fin e).
  { intros k Hk. destruct (Hcol k ltac:(lia)) as (-> & -> & -> & _).
    apply voxel_emissivity_value; assumption. }
  assert (Hrot : forall k, (k <= nz - 1)%nat ->
            rotated_angle (depth_array depth_grid) wavelength Bx By Bz ne i j k = psi0).
  { intros k Hk. unfold rotated_angle.
    destruct (Hcol k ltac:(lia)) as (-> & -> & _).
    rewrite (Rtrapezoid_const _ _ 0); [unfold psi0; lra|].
    intros m Hm. apply (Hcol m). lia. }
  assert (HI : xget2 I i j = Fin (e * L)).
  { rewrite EI.
    rewrite (trapezoid_sum_ext _ (fun m => Fin (z m)) _ (fun _ => Fin e));
      [|reflexivity | exact Hvox].
    rewrite trapezoid_sum_Fin. f_equal. apply Rtrapezoid_const. reflexivity. }
  assert (HU : xget2 U i j = Fin ((gamma + 1) / (gamma + 7 / 3) * e * L * sin (2 * psi0))).
  { rewrite EU.
    rewrite (trapezoid_sum_ext _ (fun m => Fin (z m)) _
               (fun _ => Fin (e * sin (2 * psi0)))); [|reflexivity|].
    - rewrite trapezoid_sum_Fin. rewrite (Rtrapezoid_const _ _ (e * sin (2 * psi0)))
        by reflexivity.
      cbn [xmul]. f_equal. unfold L. ring.
    - intros k Hk. rewrite Hvox, Hrot by exact Hk. reflexivity. }
  assert (HQ : xget2 Q i j = Fin ((gamma + 1) / (gamma + 7 / 3) * e * L * cos (2 * psi0))).
  { rewrite EQ.
    rewrite (trapezoid_sum_ext _ (fun m => Fin (z m)) _
               (fun _ => Fin (e * cos (2 * psi0)))); [|reflexivity|].
    - rewrite trapezoid_sum_Fin. rewrite (Rtrapezoid_const _ _ (e * cos (2 * psi0)))
        by reflexivity.
      cbn [xmul]. f_equal. unfold L. ring.
    - intros k Hk. rewrite Hvox, Hrot by exact Hk. reflexivity. }
  split; [exact HI|].
  rewrite HPsig, HU, HQ by assumption. cbn [xatan2].
  assert (HP : 0 < (gamma + 1) / (gamma + 7 / 3) * e * L).
  { apply Rmult_lt_0_compat; [apply Rmult_lt_0_compat; assumption|]. unfold L, z. lra. }
  pose proof (intrinsic_angle_range bx by') as Hr. fold psi0 in Hr.
  pose proof PI_RGT_0 as Hpi.
  destruct (Rle_dec psi0 (PI / 2)) as [Hs|Hs].
  - rewrite atan2_polar by (try assumption; lra). rewrite xhalf_Fin. f_equal. lra.
  - destruct (double_angle_shift psi0 (psi0 - PI) (-1)%Z) as [Es Ec];
      [left; reflexivity | unfold psi0; lra |].
    rewrite <- Es, <- Ec.
    rewrite atan2_polar by (try assumption; lra). rewrite xhalf_Fin. f_equal. lra.
Qed.

Lemma uniform_column_polarization_angle_witness :
  exists (I U Q Psi : array2 xreal),
    snd (compute_stokes_parameters (fun m _ => m) (DepthArray [0; 1; 3]) 1
           [[[1; 1; 1]]] [[[0; 0; 0]]] [[[0; 0; 0]]] [[[0; 0; 0]]] [[[1; 1; 1]]] 3 None)
    = Ok (mkQuantity I (stokes_unit 3), mkQuantity U (stokes_unit 3),
          mkQuantity Q (stokes_unit 3)) /\
    compute_Psi 1 U Q = Some (Ok (mkQuantity Psi u_rad)) /\
    forall i j, (i < 1)%nat -> (j < 1)%nat ->
      forall bx by' n : R,
        (forall k, (k < 3)%nat ->
                   rget3 [[[1; 1; 1]]] i j k = bx /\ rget3 [[[0; 0; 0]]] i j k = by' /\
                   rget3 [[[1; 1; 1]]] i j k = n /\
                   rget3 [[[0; 0; 0]]] i j k * rget3 [[[0; 0; 0]]] i j k = 0) ->
        0 < n -> bx <> 0 \/ by' <> 0 ->
        nth 0 (depth_array (DepthArray [0; 1; 3])) 0
        < nth (3 - 1) (depth_array (DepthArray [0; 1; 3])) 0 ->
        xget2 I i j
        = Fin (emissivity_value 1 3 bx by' n *
               (nth (3 - 1) (depth_array (DepthArray [0; 1; 3])) 0
                - nth 0 (depth_array (DepthArray [0; 1; 3])) 0))
        /\
        xget2 Psi i j
        = Fin (if Rle_dec (intrinsic_angle bx by') (PI / 2)
               then intrinsic_angle bx by'
               else intrinsic_angle bx by' - PI).
Proof.
  apply (uniform_column_polarization_angle (fun m _ => m) (DepthArray [0; 1; 3]) 1
           [[[1; 1; 1]]] [[[0; 0; 0]]] [[[0; 0; 0]]] [[[0; 0; 0]]] [[[1; 1; 1]]] 3 1 1 3);
    try reflexivity; [lia | lra | lra].
Defined.

(** ** The degree of polarization *)

(** Adding to a vector of the plane a vector of length w lengthens it by w
    at most. *)
Lemma norm_step (x y n w c s : R) :
  x * x + y * y <= n * n -> 0 <= n -> 0 <= w -> c * c + s * s = 1 ->
  (x + w * c) * (x + w * c) + (y + w * s) * (y + w * s) <= (n + w) * (n + w).
Proof.
  intros Hn Hn0 Hw Hcs.
  assert (Hdot : x * c + y * s <= n).
  { destruct (Rle_dec (x * c + y * s) n) as [H|H]; [exact H|exfalso].
    apply Rnot_le_lt in H.
    pose proof (Rle_0_sqr (x * s - y * c)) as Hsq. unfold Rsqr in Hsq.
    assert (Hlt : n * n < (x * c + y * s) * (x * c + y * s)).
    { apply Rle_lt_trans with (n * (x * c + y * s)).
      - apply Rmult_le_compat_l; lra.
      - apply Rmult_lt_compat_r; lra. }
    assert (Hlag : (x * c + y * s) * (x * c + y * s) + (x * s - y * c) * (x * s - y * c)
                   = (x * x + y * y) * (c * c + s * s)) by ring.
    rewrite Hcs in Hlag. lra. }
  pose proof (Rmult_le_compat_l w _ _ Hw Hdot) as Hwd.
  replace ((x + w * c) * (x + w * c) + (y + w * s) * (y + w * s))
    with (x * x + y * y + 2 * (w * (x * c + y * s)) + w * w * (c * c + s * s)) by ring.
  rewrite Hcs.
  replace ((n + w) * (n + w)) with (n * n + 2 * (w * n) + w * w * 1) by ring.
  lra.
Qed.

Lemma cos_sin_unit (t : R) : cos t * cos t + sin t * sin t = 1.
Proof. pose proof (sin2_cos2 t) as H. unfold Rsqr in H. lra. Qed.

Lemma Rtrapezoid_polarized (z e psi : nat -> R) (m : nat) :
  (forall k, (k < m)%nat -> z k <= z (S k)) ->
  (forall k, (k <= m)%nat -> 0 <= e k) ->
  let I := Rtrapezoid z e m in
  let Q := Rtrapezoid z (fun k => e k * cos (2 * psi k)) m in
  let U := Rtrapezoid z (fun k => e k * sin (2 * psi k)) m in
  0 <= I /\ Q * Q + U * U <= I * I.
Proof.
  induction m as [|m IH]; intros Hz He; cbv zeta; simpl.
  - split; lra.
  - destruct IH as [HI HQU]; [intros; apply Hz; lia | intros; apply He; lia|].
    cbv zeta in HI, HQU.
    set (I := Rtrapezoid z e m) in *.
    set (Q := Rtrapezoid z (fun k => e k * cos (2 * psi k)) m) in *.
    set (U := Rtrapezoid z (fun k => e k * sin (2 * psi k)) m) in *.
    pose proof (Hz m ltac:(lia)) as Hd.
    pose proof (He (S m) ltac:(lia)) as He1.
    pose proof (He m ltac:(lia)) as He0.
    set (w1 := (z (S m) - z m) * e (S m) / 2).
    set (w0 := (z (S m) - z m) * e m / 2).
    assert (Hw1 : 0 <= w1) by (unfold w1; nra).
    assert (Hw0 : 0 <= w0) by (unfold w0; nra).
    pose proof (norm_step Q U I w1 (cos (2 * psi (S m))) (sin (2 * psi (S m)))
                  HQU HI Hw1 (cos_sin_unit _)) as H1.
    pose proof (norm_step _ _ _ w0 (cos (2 * psi m)) (sin (2 * psi m))
                  H1 ltac:(lra) Hw0 (cos_sin_unit _)) as H2.
    replace (I + (z (S m) - z m) * (e (S m) + e m) / 2) with (I + w1 + w0)
      by (unfold w1, w0; lra).
    replace (Q + (z (S m) - z m) * (e (S m) * cos (2 * psi (S m)) + e m * cos (2 * psi m)) / 2)
      with (Q + w1 * cos (2 * psi (S m)) + w0 * cos (2 * psi m))
      by (unfold w1, w0; lra).
    replace (U + (z (S m) - z m) * (e (S m) * sin (2 * psi (S m)) + e m * sin (2 * psi m)) / 2)
      with (U + w1 * sin (2 * psi (S m)) + w0 * sin (2 * psi m))
      by (unfold w1, w0; lra).
    split; [lra | exact H2].
Qed.

Lemma voxel_emissivity_real (wavelength gamma bx by' n : R) :
  -1 < gamma -> 0 < wavelength ->
  voxel_emissivity wavelength gamma bx by' n = Fin (emissivity_real wavelength gamma bx by' n).
Proof.
  intros Hg Hw. unfold voxel_emissivity, emissivity_real.
  rewrite !xpow_fin_2. cbn [xadd]. rewrite (xpow_pos wavelength) by exact Hw.
  destruct (Req_dec_T (bx * bx + by' * by') 0) as [E|E].
  - rewrite E, xpow_zero by lra. reflexivity.
  - rewrite xpow_pos by nra. reflexivity.
Qed.

Lemma emissivity_real_nonneg (wavelength gamma bx by' n : R) :
  0 <= n -> 0 <= emissivity_real wavelength gamma bx by' n.
Proof.
  intros Hn. unfold emissivity_real.
  pose proof (Rpower_pos wavelength ((gamma - 1) / 2)) as Hw.
  pose proof (Rpower_pos (bx * bx + by' * by') ((gamma + 1) / 4)) as Hb.
  apply Rmult_le_pos; [apply Rmult_le_pos; [exact Hn|] | lra].
  destruct (Req_dec_T (bx * bx + by' * by') 0); lra.
Qed.

(** X19.  The polarized intensity never exceeds the fraction [p0] of the
    total intensity: for [gamma > -1], a positive wavelength, densities
    of cosmic rays that are not negative and depth samples that do not
    decrease, the maps without a beam are finite, [I >= 0] and
    [Q^2 + U^2 <= (p0 I)^2] in every pixel. *)
Theorem polarization_degree_bound
        (gaussian_filter : array2 xreal -> R -> array2 xreal)
        (depth_grid : depth_arg) (wavelength : R) (Bx By Bz ne ncr : array3 R)
        (gamma : R) (nx ny nz : nat) :
  has_shape3 nx ny nz Bx = true ->
  has_shape3 nx ny nz By = true ->
  has_shape3 nx ny nz Bz = true ->
  has_shape3 nx ny nz ne = true ->
  has_shape3 nx ny nz ncr = true ->
  length (depth_array depth_grid) = nz ->
  (0 < nz)%nat ->
  -1 < gamma ->
  0 < wavelength ->
  (forall i j k, (i < nx)%nat -> (j < ny)%nat -> (k < nz)%nat -> 0 <= rget3 ncr i j k) ->
  (forall k, (S k < nz)%nat ->
             nth k (depth_array depth_grid) 0 <= nth (S k) (depth_array depth_grid) 0) ->
  exists (I U Q : array2 xreal),
    snd (compute_stokes_parameters gaussian_filter depth_grid wavelength
                                   Bx By Bz ne ncr gamma None)
    = Ok (mkQuantity I (stokes_unit gamma), mkQuantity U (stokes_unit gamma),
          mkQuantity Q (stokes_unit gamma)) /\
    forall i j, (i < nx)%nat -> (j < ny)%nat ->
      exists vi vu vq : R,
        xget2 I i j = Fin vi /\ xget2 U i j = Fin vu /\ xget2 Q i j = Fin vq /\
        0 <= vi /\
        vq * vq + vu * vu
        <= ((gamma + 1) / (gamma + 7 / 3) * vi) * ((gamma + 1) / (gamma + 7 / 3) * vi).
Proof.
  intros HBx HBy HBz Hne Hncr Hdepth Hnz Hgamma Hw Hn Hz.
  apply has_shape3_shape3 in HBx, HBy, HBz, Hne, Hncr.
  assert (Hgamma' : gamma + 7 / 3 <> 0) by lra.
  destruct (compute_stokes_parameters_voxels gaussian_filter nx ny nz Bx By Bz ne ncr
              depth_grid wavelength gamma HBx HBy HBz Hne Hncr Hdepth Hnz Hgamma' None)
    as (I & U & Q & Hrun & _ & _ & _ & Hg).
  exists I, U, Q. split; [exact Hrun|].
  intros i j Hi Hj. destruct (Hg i j Hi Hj) as (EI & EU & EQ). cbv zeta in EI, EU, EQ.
  set (z := fun m => nth m (depth_array depth_grid) 0).
  set (e := fun k => emissivity_real wavelength gamma (rget3 Bx i j k) (rget3 By i j k)
                                     (rget3 ncr i j k)).
  set (psi := fun k => rotated_angle (depth_array depth_grid) wavelength Bx By Bz ne i j k).
  set (p0 := (gamma + 1) / (gamma + 7 / 3)).
  assert (HE : forall k,
            voxel_emissivity wavelength gamma (rget3 Bx i j k) (rget3 By i j k)
                             (rget3 ncr i j k) = Fin (e k)).
  { intros k. apply voxel_emissivity_real; assumption. }
  rewrite (trapezoid_sum_ext _ (fun m => Fin (z m)) _ (fun k => Fin (e k))) in EI;
    [|reflexivity | intros; apply HE].
  rewrite (trapezoid_sum_ext _ (fun m => Fin (z m)) _
             (fun k => Fin (e k * sin (2 * psi k)))) in EU;
    [|reflexivity | intros k _; rewrite HE; reflexivity].
  rewrite (trapezoid_sum_ext _ (fun m => Fin (z m)) _
             (fun k => Fin (e k * cos (2 * psi k)))) in EQ;
    [|reflexivity | intros k _; rewrite HE; reflexivity].
  rewrite trapezoid_sum_Fin in EI, EU, EQ. cbn [xmul] in EU, EQ.
  destruct (Rtrapezoid_polarized z e psi (nz - 1)) as [HI0 HQU].
  { intros k Hk. apply Hz. lia. }
  { intros k Hk. apply emissivity_real_nonneg. apply Hn; try assumption. lia. }
  cbv zeta in HI0, HQU.
  eexists _, _, _. split; [exact EI|]. split; [exact EU|]. split; [exact EQ|].
  split; [exact HI0|]. fold p0.
  set (vI := Rtrapezoid z e (nz - 1)) in *.
  set (vQ := Rtrapezoid z (fun k => e k * cos (2 * psi k)) (nz - 1)) in *.
  set (vU := Rtrapezoid z (fun k => e k * sin (2 * psi k)) (nz - 1)) in *.
  replace (p0 * vQ * (p0 * vQ) + p0 * vU * (p0 * vU))
    with (p0 * p0 * (vQ * vQ + vU * vU)) by ring.
  replace (p0 * vI * (p0 * vI)) with (p0 * p0 * (vI * vI)) by ring.
  apply Rmult_le_compat_l; [nra | exact HQU].
Qed.

Lemma polarization_degree_bound_witness :
  exists (I U Q : array2 xreal),
    snd (compute_stokes_parameters (fun m _ => m) (DepthArray [0; 1]) 1
           [[[1; 0]]] [[[0; 2]]] [[[1; 1]]] [[[1; 1]]] [[[1; 1]]] 3 None)
    = Ok (mkQuantity I (stokes_unit 3), mkQuantity U (stokes_unit 3),
          mkQuantity Q (stokes_unit 3)) /\
    forall i j, (i < 1)%nat -> (j < 1)%nat ->
      exists vi vu vq : R,
        xget2 I i j = Fin vi /\ xget2 U i j = Fin vu /\ xget2 Q i j = Fin vq /\
        0 <= vi /\
        vq * vq + vu * vu <= ((3 + 1) / (3 + 7 / 3) * vi) * ((3 + 1) / (3 + 7 / 3) * vi).
Proof.
  apply (polarization_degree_bound (fun m _ => m) (DepthArray [0; 1]) 1
           [[[1; 0]]] [[[0; 2]]] [[[1; 1]]] [[[1; 1]]] [[[1; 1]]] 3 1 1 2);
    try reflexivity; try lia; try lra.
  - intros [|i] [|j] [|[|k]] Hi Hj Hk; try lia; cbn; lra.
  - intros [|k] Hk; [cbn; lra | lia].
Defined.

(** ** The Faraday depth is linear in the field along the line of sight *)

Lemma Rtrapezoid_scal (z f : nat -> R) (a : R) (m : nat) :
  Rtrapezoid z (fun k => a * f k) m = a * Rtrapezoid z f m.
Proof. induction m as [|m IH]; simpl; [lra|]. rewrite IH. lra. Qed.

Lemma Rtrapezoid_ext (z f f' : nat -> R) (m : nat) :
  (forall k, (k <= m)%nat -> f k = f' k) -> Rtrapezoid z f m = Rtrapezoid z f' m.
Proof.
  induction m as [|m IH]; intros H; simpl; [reflexivity|].
  rewrite IH, (H (S m)), (H m) by (intros; try apply H; lia). reflexivity.
Qed.

(** X20.  The Faraday depth is linear in the field along the line of
    sight: multiplying [Bz] by a real [a] multiplies every element of the
    map of [compute_fd] by [a]; with [a = -1], reversing the field
    reverses the sign of the map. *)
Theorem compute_fd_linear
        (gaussian_filter : array2 xreal -> R -> array2 xreal)
        (depth_grid : depth_arg) (a : R) (Bz ne : array3 R) (nx ny nz : nat) :
  has_shape3 nx ny nz Bz = true ->
  has_shape3 nx ny nz ne = true ->
  length (depth_array depth_grid) = nz ->
  (0 < nz)%nat ->
  exists RM RM' : array2 xreal,
    snd (compute_fd gaussian_filter depth_grid Bz ne None)
    = Ok (mkQuantity RM rad_per_m2) /\
    snd (compute_fd gaussian_filter depth_grid (arr3_map (Rmult a) Bz) ne None)
    = Ok (mkQuantity RM' rad_per_m2) /\
    forall i j, (i < nx)%nat -> (j < ny)%nat ->
      exists v : R, xget2 RM i j = Fin v /\ xget2 RM' i j = Fin (a * v).
Proof.
  intros HBz Hne Hdepth Hnz.
  apply has_shape3_shape3 in HBz, Hne.
  destruct (faraday_total_ok nx ny nz Bz ne (depth_array depth_grid) HBz Hne Hdepth Hnz)
    as (g & t & Hg & Ht & Htg).
  destruct (faraday_total_ok nx ny nz (arr3_map (Rmult a) Bz) ne (depth_array depth_grid)
              (arr3_map_shape (Rmult a) Bz nx ny nz HBz) Hne Hdepth Hnz)
    as (g' & t' & Hg' & Ht' & Htg').
  exists (arr2_map (xmul (Fin (812 / 1000))) t), (arr2_map (xmul (Fin (812 / 1000))) t').
  split.
  { rewrite (compute_fd_run gaussian_filter depth_grid Bz ne None g t Hg Ht). reflexivity. }
  split.
  { rewrite (compute_fd_run gaussian_filter depth_grid _ ne None g' t' Hg' Ht'). reflexivity. }
  intros i j Hi Hj. rewrite Htg, Htg' by assumption. rewrite !faraday_prefix_Fin.
  eexists. split; [reflexivity|]. f_equal.
  rewrite (Rtrapezoid_ext _ _ (fun m => a * (rget3 Bz i j m * rget3 ne i j m))).
  - rewrite Rtrapezoid_scal. ring.
  - intros k Hk. unfold rget3 at 1.
    rewrite (arr3_map_get (Rmult a) 0 0 Bz nx ny nz) by (try assumption; lia).
    fold (rget3 Bz i j k). ring.
Qed.

Lemma compute_fd_linear_witness :
  exists RM RM' : array2 xreal,
    snd (compute_fd (fun m _ => m) (DepthArray [0; 1; 3]) [[[1; 2; 3]]] [[[1; 1; 2]]] None)
    = Ok (mkQuantity RM rad_per_m2) /\
    snd (compute_fd (fun m _ => m) (DepthArray [0; 1; 3])
                    (arr3_map (Rmult (-1)) [[[1; 2; 3]]]) [[[1; 1; 2]]] None)
    = Ok (mkQuantity RM' rad_per_m2) /\
    forall i j, (i < 1)%nat -> (j < 1)%nat ->
      exists v : R, xget2 RM i j = Fin v /\ xget2 RM' i j = Fin (-1 * v).
Proof.
  apply (compute_fd_linear (fun m _ => m) (DepthArray [0; 1; 3]) (-1)
           [[[1; 2; 3]]] [[[1; 1; 2]]] 1 1 3); try reflexivity. lia.
Defined.
